(** * YumeRobo: parsing and normalisation core

    A shallow embedding of the TypeScript functions that turn BBCode,
    MediaInfo text reports, decoded torrent dictionaries and language
    labels into structured records, and of the helpers around them
    (inner markup, file sizes, escaping, release badges and search),
    followed by the properties proved of them.

    Conventions of the embedding.
    - Outside the BBCode parser a JavaScript string is a list of 8-bit
      code units ([str]): text of the Latin-1 range, on which
      [toLowerCase], [trim] and the regular-expression class [\s] are
      the restrictions of the JavaScript ones.  In the BBCode parser a
      string is a list of 16-bit code units ([Utf16.wstr]), because the
      extractor depends on the length of the lower-case form of a
      text.
    - An index that JavaScript reports as [-1] when absent is an
      [option nat]; [undefined] is [None].
    - A JavaScript object used as a dictionary is an association list of
      its own properties in insertion order; [Js.keys] gives the order
      in which [Object.keys] enumerates them.  The members a plain
      object inherits from [Object.prototype] are listed in
      [Js.objectPrototype], and [Js.read] tells an own property, an
      inherited member and an absent one apart.
    - A call that throws answers [None] in an [option]; torrent.ts,
      where a failure rejects a promise, names the failure.
    - A [while] loop is a function on a fuel argument that answers [None]
      when the fuel runs out; the extractor supplies fuel that is shown
      to suffice.
    - A regular expression is written out as the function that matches
      it; a replacement with the [g] flag goes through the text from
      left to right and skips what a match has consumed. *)

From Stdlib Require Import String Ascii DecimalString.
From Stdlib Require Import List Arith Lia Bool NArith ZArith Permutation.
From Stdlib Require QArith Qround.
Import ListNotations.

Set Implicit Arguments.

(* ================================================================== *)
(** * Part I: the embedding *)
(* ================================================================== *)

(** ** JavaScript strings *)

Module Js.

Definition str := list ascii.

Definition lit (s : string) : str := list_ascii_of_string s.

Definition ascii_eqb (a b : ascii) : bool := Ascii.eqb a b.

Fixpoint str_eqb (a b : str) : bool :=
  match a, b with
  | [], [] => true
  | x :: a', y :: b' => ascii_eqb x y && str_eqb a' b'
  | _, _ => false
  end.

(** [String.prototype.toLowerCase] on one code unit: A-Z, and the
    Latin-1 capitals U+00C0..U+00DE other than the multiplication sign. *)
Definition lower_char (c : ascii) : ascii :=
  let n := N_of_ascii c in
  if ((65 <=? n) && (n <=? 90))%N then ascii_of_N (n + 32)
  else if ((192 <=? n) && (n <=? 222) && negb (n =? 215))%N
       then ascii_of_N (n + 32)
  else c.

(** [String.prototype.toUpperCase] on one code unit that stays within
    the range (a-z and U+00E0..U+00FE other than the division sign). *)
Definition upper_char (c : ascii) : ascii :=
  let n := N_of_ascii c in
  if ((97 <=? n) && (n <=? 122))%N then ascii_of_N (n - 32)
  else if ((224 <=? n) && (n <=? 254) && negb (n =? 247))%N
       then ascii_of_N (n - 32)
  else c.

Definition toLowerCase (s : str) : str := map lower_char s.
Definition toUpperCase (s : str) : str := map upper_char s.

(** White space as [trim] and [\s] see it: TAB, LF, VT, FF, CR, SPACE
    and NO-BREAK SPACE. *)
Definition is_space (c : ascii) : bool :=
  let n := N_of_ascii c in
  (((9 <=? n) && (n <=? 13)) || (n =? 32) || (n =? 160))%N.

Definition is_digit (c : ascii) : bool :=
  let n := N_of_ascii c in ((48 <=? n) && (n <=? 57))%N.

Fixpoint trimStart (s : str) : str :=
  match s with
  | c :: s' => if is_space c then trimStart s' else s
  | [] => []
  end.

Definition trimEnd (s : str) : str := List.rev (trimStart (List.rev s)).

Definition trim (s : str) : str := trimEnd (trimStart s).

(** [s.startsWith(p)] *)
Fixpoint startsWith (p s : str) : bool :=
  match p, s with
  | [], _ => true
  | x :: p', y :: s' => ascii_eqb x y && startsWith p' s'
  | _ :: _, [] => false
  end.

(** Index of the first occurrence of [p] in [s]. *)
Fixpoint find (p s : str) : option nat :=
  if startsWith p s then Some 0
  else match s with
       | [] => None
       | _ :: s' => option_map S (find p s')
       end.

(** [s.indexOf(p, pos)] for a non-empty [p]; [None] stands for [-1]. *)
Definition indexOf (s p : str) (pos : nat) : option nat :=
  option_map (Nat.add pos) (find p (skipn pos s)).

(** [s.includes(p)] *)
Definition includes (s p : str) : bool :=
  match find p s with Some _ => true | None => false end.

(** [s.substring(a, b)]: the arguments are swapped when [a > b]. *)
Definition substring (s : str) (a b : nat) : str :=
  let lo := Nat.min a b in
  let hi := Nat.max a b in
  firstn (hi - lo) (skipn lo s).

(** [s.substring(a)] *)
Definition substringFrom (s : str) (a : nat) : str := skipn a s.

(** [parts.join(sep)] *)
Fixpoint join (sep : str) (parts : list str) : str :=
  match parts with
  | [] => []
  | [p] => p
  | p :: rest => p ++ sep ++ join sep rest
  end.

(** [s.split(c)] for a one-character separator: never empty. *)
Fixpoint splitChar (c : ascii) (s : str) : list str :=
  match s with
  | [] => [[]]
  | x :: s' =>
      if ascii_eqb x c then [] :: splitChar c s'
      else match splitChar c s' with
           | [] => [[x]]
           | p :: ps => (x :: p) :: ps
           end
  end.

(** [s.replace(p, r)] for a plain string pattern: first occurrence only. *)
Definition replaceFirst (s p r : str) : str :=
  match find p s with
  | Some i => firstn i s ++ r ++ skipn (i + length p) s
  | None => s
  end.

(** Decimal rendering of a non-negative integer, as a template literal
    prints it (exact below 10^21). *)
Definition ofNat (n : nat) : str :=
  lit (NilZero.string_of_uint (Nat.to_uint n)).

(** Value of a string of decimal digits. *)
Definition digitsValue (s : str) : nat :=
  fold_left (fun acc c => 10 * acc + (nat_of_ascii c - 48)) s 0.

(** Is the string falsy in a condition (empty)? *)
Definition isEmpty (s : str) : bool :=
  match s with [] => true | _ :: _ => false end.

(** An optional string in a condition: [undefined] and [''] are falsy. *)
Definition truthyStr (o : option str) : bool :=
  match o with Some (_ :: _) => true | _ => false end.

(** [parseInt(s.replace(/[^\d]/g, ''), 10)]: [None] stands for [NaN]. *)
Definition parseDigits (s : str) : option nat :=
  match filter is_digit s with
  | [] => None
  | ds => Some (digitsValue ds)
  end.

(** *** Objects used as dictionaries *)

(** The property [k] of [o] itself; this is [o[k]] when [k] is no member
    of [Object.prototype]. *)
Fixpoint lookup (A : Type) (k : str) (o : list (str * A)) : option A :=
  match o with
  | [] => None
  | (k', v) :: o' => if str_eqb k k' then Some v else lookup k o'
  end.

(** [o[k] = v]: an existing key keeps its place, a new one goes last. *)
Fixpoint assign (A : Type) (k : str) (v : A) (o : list (str * A))
    : list (str * A) :=
  match o with
  | [] => [(k, v)]
  | (k', v') :: o' =>
      if str_eqb k k' then (k', v) :: o' else (k', v') :: assign k v o'
  end.

(** The names of the properties of [o] itself, in the order in which
    they were added. *)
Definition names (A : Type) (o : list (str * A)) : list str := map fst o.

(** Value of a string of decimal digits, in binary. *)
Definition digitsNumber (s : str) : N :=
  fold_left (fun acc c => (10 * acc + (N_of_ascii c - 48))%N) s 0%N.

(** The array index a property name spells, if any: a decimal number
    without leading zero, below 2^32 - 1. *)
Definition arrayIndex (k : str) : option N :=
  match k with
  | [] => None
  | c :: r =>
      if forallb is_digit k && (isEmpty r || negb (ascii_eqb c "0"))
      then if (digitsNumber k <? 4294967295)%N
           then Some (digitsNumber k) else None
      else None
  end.

(** A name and its index, put in its place among names in ascending
    order of index. *)
Fixpoint insertIndexed (n : N) (k : str) (l : list (N * str))
    : list (N * str) :=
  match l with
  | [] => [(n, k)]
  | (m, k') :: l' =>
      if (n <? m)%N then (n, k) :: l else (m, k') :: insertIndexed n k l'
  end.

(** [Object.keys(o)]: the names that are array indices first, in
    ascending order, then the other names in the order in which they
    were added. *)
Definition keys (A : Type) (o : list (str * A)) : list str :=
  map snd
    (fold_left (fun l k =>
                  match arrayIndex k with
                  | Some n => insertIndexed n k l
                  | None => l
                  end) (names o) [])
  ++ filter (fun k => match arrayIndex k with
                      | Some _ => false
                      | None => true
                      end) (names o).

(** A number: [Number(s)] is the double nearest to what [s] spells, or
    [Infinity]. *)
Inductive JsNumber :=
| Finite (n : N)
| Infinity.

(** [Number(ds)] for a string of decimal digits: exact below 2^53,
    rounded to 53 significant bits above, ties to even. *)
Definition numberOfDigits (ds : str) : JsNumber :=
  let n := digitsNumber ds in
  if (n <? 2 ^ 53)%N then Finite n
  else
    let e := (N.log2 n - 52)%N in
    let q := N.shiftr n e in
    let r := (n - N.shiftl q e)%N in
    let half := N.shiftl 1 (e - 1) in
    let q' := if (half <? r)%N || ((half =? r)%N && N.odd q)
              then (q + 1)%N else q in
    if (N.log2 (N.shiftl q' e) <? 1024)%N then Finite (N.shiftl q' e)
    else Infinity.

(** The members every plain object inherits from [Object.prototype],
    by name.  [o[k]] and [k in o] see them when [o] has no property [k]
    of its own. *)
Definition objectPrototype : list str :=
  [lit "constructor"; lit "__defineGetter__"; lit "__defineSetter__";
   lit "hasOwnProperty"; lit "__lookupGetter__"; lit "__lookupSetter__";
   lit "isPrototypeOf"; lit "propertyIsEnumerable"; lit "toString";
   lit "valueOf"; lit "__proto__"; lit "toLocaleString"].

Definition inherited (k : str) : bool := existsb (str_eqb k) objectPrototype.

(** The members an array inherits from [Array.prototype], by name (as
    of ECMAScript 2023). *)
Definition arrayPrototype : list str :=
  [lit "constructor"; lit "at"; lit "concat"; lit "copyWithin"; lit "fill";
   lit "find"; lit "findIndex"; lit "findLast"; lit "findLastIndex";
   lit "lastIndexOf"; lit "pop"; lit "push"; lit "reverse"; lit "shift";
   lit "unshift"; lit "slice"; lit "sort"; lit "splice"; lit "includes";
   lit "indexOf"; lit "join"; lit "keys"; lit "entries"; lit "values";
   lit "forEach"; lit "filter"; lit "flat"; lit "flatMap"; lit "map";
   lit "every"; lit "some"; lit "reduce"; lit "reduceRight";
   lit "toLocaleString"; lit "toString"; lit "toReversed"; lit "toSorted";
   lit "toSpliced"; lit "with"].

Definition arrayInherited (k : str) : bool :=
  existsb (str_eqb k) arrayPrototype.

(** What [o[k]] finds in an object literal [o]: a property of its own,
    a member of [Object.prototype], or nothing ([undefined]). *)
Inductive Slot (A : Type) :=
| Own (v : A)
| Inherited
| Absent.

Arguments Inherited {A}.
Arguments Absent {A}.

Definition read (A : Type) (k : str) (o : list (str * A)) : Slot A :=
  match lookup k o with
  | Some v => Own v
  | None => if inherited k then Inherited else Absent
  end.

(** [xs.map(f)] for an [f] that may throw: the first throw ends it. *)
Fixpoint mapThrowing (A B : Type) (f : A -> option B) (xs : list A)
    : option (list B) :=
  match xs with
  | [] => Some []
  | x :: xs' =>
      match f x with
      | None => None
      | Some y =>
          match mapThrowing f xs' with
          | None => None
          | Some ys => Some (y :: ys)
          end
      end
  end.

End Js.

Import Js.

(* ------------------------------------------------------------------ *)
(** ** scripts/lib/bbcode.ts *)

(** The strings of the BBCode parser are modelled as sequences of
    16-bit code units.  [extractOutermostQuotes] looks for the tags in the
    lower-case form of the text and cuts the text itself at the places
    found there; the two forms differ in length when the text holds
    U+0130, which does not exist in Latin-1. *)
Module Utf16.

(** A code unit: its high and its low byte. *)
Inductive cu := CU (hi lo : ascii).

Definition wstr := list cu.

(** A character of Latin-1 (U+0000 to U+00FF) as a code unit, a text of
    such characters, and a literal. *)
Definition latin (c : ascii) : cu := CU "000" c.
Definition wide (s : Js.str) : wstr := map latin s.
Definition lit (s : string) : wstr := wide (Js.lit s).

Definition cu_eqb (a b : cu) : bool :=
  match a, b with
  | CU h l, CU h' l' => ascii_eqb h h' && ascii_eqb l l'
  end.

Fixpoint wstr_eqb (a b : wstr) : bool :=
  match a, b with
  | [], [] => true
  | x :: a', y :: b' => cu_eqb x y && wstr_eqb a' b'
  | _, _ => false
  end.

(** U+0130, capital I with dot above; U+0307, combining dot above;
    U+212A, the Kelvin sign. *)
Definition dottedI : cu := CU "001" "048".
Definition dotAbove : cu := CU "003" "007".
Definition kelvin : cu := CU "033" "042".

(** [String.prototype.toLowerCase] on one code unit.  Within Latin-1 it
    is [lower_char].  U+0130 is the one character whose lower-case form
    has more code units than itself: [i] and U+0307.  U+0130 and U+212A
    are the only characters beyond ASCII whose lower-case form holds an
    ASCII character.  The other capital letters beyond Latin-1 are left
    as they are here: each becomes a character beyond ASCII of the same
    number of code units, and the extractor, which looks for ASCII tags
    in the result, cannot tell which. *)
Definition lowerUnit (u : cu) : list cu :=
  match u with
  | CU h l =>
      if ascii_eqb h "000" then [latin (lower_char l)]
      else if cu_eqb u dottedI then [latin "i"; dotAbove]
      else if cu_eqb u kelvin then [latin "k"]
      else [u]
  end.

Definition toLowerCase (s : wstr) : wstr := flat_map lowerUnit s.

(** The flag [i] of a pattern of ASCII characters: a code unit matches a
    letter of the pattern when it is that letter in lower or upper case,
    and no code unit beyond ASCII matches an ASCII character.
    [foldUnit] takes A-Z to a-z and leaves every other unit alone. *)
Definition foldUnit (u : cu) : cu :=
  match u with
  | CU h l =>
      if ascii_eqb h "000" && (N_of_ascii l <? 128)%N
      then latin (lower_char l) else u
  end.

(** White space as [trim] sees it: in Latin-1 as [Js.is_space]; beyond,
    U+1680, U+2000 to U+200A, U+2028, U+2029, U+202F, U+205F, U+3000 and
    U+FEFF. *)
Definition is_space (u : cu) : bool :=
  match u with
  | CU h l =>
      let hn := N_of_ascii h in
      let ln := N_of_ascii l in
      if (hn =? 0)%N then Js.is_space l
      else (((hn =? 22) && (ln =? 128))
            || ((hn =? 32)
                && ((ln <=? 10) || (ln =? 40) || (ln =? 41) || (ln =? 47)
                    || (ln =? 95)))
            || ((hn =? 48) && (ln =? 0))
            || ((hn =? 254) && (ln =? 255)))%N
  end.

Fixpoint trimStart (s : wstr) : wstr :=
  match s with
  | c :: s' => if is_space c then trimStart s' else s
  | [] => []
  end.

Definition trimEnd (s : wstr) : wstr := List.rev (trimStart (List.rev s)).

Definition trim (s : wstr) : wstr := trimEnd (trimStart s).

(** [s.startsWith(p)] *)
Fixpoint startsWith (p s : wstr) : bool :=
  match p, s with
  | [], _ => true
  | x :: p', y :: s' => cu_eqb x y && startsWith p' s'
  | _ :: _, [] => false
  end.

(** Index of the first occurrence of [p] in [s]. *)
Fixpoint find (p s : wstr) : option nat :=
  if startsWith p s then Some 0
  else match s with
       | [] => None
       | _ :: s' => option_map S (find p s')
       end.

(** [s.indexOf(p, pos)] for a non-empty [p]; [None] stands for [-1]. *)
Definition indexOf (s p : wstr) (pos : nat) : option nat :=
  option_map (Nat.add pos) (find p (skipn pos s)).

(** [s.includes(p)] *)
Definition includes (s p : wstr) : bool :=
  match find p s with Some _ => true | None => false end.

(** [s.substring(a, b)]: the arguments are swapped when [a > b]. *)
Definition substring (s : wstr) (a b : nat) : wstr :=
  let lo := Nat.min a b in
  let hi := Nat.max a b in
  firstn (hi - lo) (skipn lo s).

(** [s.substring(a)] *)
Definition substringFrom (s : wstr) (a : nat) : wstr := skipn a s.

End Utf16.

Module BBCode.

Import Utf16.

(** The two tag names the opening pattern accepts; [tagName] is
    [openMatch[1].toLowerCase()]. *)
Inductive tagKind := Quote | Spoiler.

Definition tagName (k : tagKind) : str :=
  match k with Quote => Js.lit "quote" | Spoiler => Js.lit "spoiler" end.

(** [`[${tagName}`] and [`[/${tagName}]`] *)
Definition openTagStr (k : tagKind) : str := Js.lit "[" ++ tagName k.
Definition closeTagStr (k : tagKind) : str :=
  Js.lit "[/" ++ tagName k ++ Js.lit "]".

(** *** Inner markup *)

(** The patterns of [parseInnerBBCode] are sequences of three kinds of
    pieces: a literal text of ASCII characters, matched whatever its
    case and given here in lower case; a run [[^c]+]; and a run [[^c]*].
    In every pattern a run is followed by a literal that starts with the
    excluded character, so the longest run is the only one with which
    the pattern can match. *)
Inductive piece :=
| Word (w : wstr)
| Some1 (stop : cu)
| Any (stop : cu).

(** The longest prefix of [s] without the code unit [stop]. *)
Fixpoint upTo (stop : cu) (s : wstr) : wstr :=
  match s with
  | [] => []
  | c :: s' => if cu_eqb c stop then [] else c :: upTo stop s'
  end.

(** A pattern anchored at the head of [s]: the runs, in order, and the
    length of the match. *)
Fixpoint matchPieces (ps : list piece) (s : wstr)
    : option (list wstr * nat) :=
  match ps with
  | [] => Some ([], 0)
  | Word w :: ps' =>
      if startsWith w (map foldUnit (firstn (length w) s))
      then match matchPieces ps' (skipn (length w) s) with
           | Some (groups, n) => Some (groups, length w + n)
           | None => None
           end
      else None
  | Some1 stop :: ps' =>
      let run := upTo stop s in
      match run with
      | [] => None
      | _ :: _ =>
          match matchPieces ps' (skipn (length run) s) with
          | Some (groups, n) => Some (run :: groups, length run + n)
          | None => None
          end
      end
  | Any stop :: ps' =>
      let run := upTo stop s in
      match matchPieces ps' (skipn (length run) s) with
      | Some (groups, n) => Some (run :: groups, length run + n)
      | None => None
      end
  end.

(** [s.replace(/pattern/gi, replacement)]: matches are looked for from
    left to right and do not overlap; [skip] counts the code units of a
    match still to drop, and [tpl] builds the replacement from the runs. *)
Fixpoint replaceFrom (ps : list piece) (tpl : list wstr -> wstr) (skip : nat)
    (s : wstr) : wstr :=
  match s with
  | [] => []
  | c :: s' =>
      match skip with
      | S n => replaceFrom ps tpl n s'
      | 0 =>
          match matchPieces ps s with
          | Some (groups, len) => tpl groups ++ replaceFrom ps tpl (len - 1) s'
          | None => c :: replaceFrom ps tpl 0 s'
          end
      end
  end.

Definition replaceAll (ps : list piece) (tpl : list wstr -> wstr) (s : wstr)
    : wstr :=
  replaceFrom ps tpl 0 s.

(** [$1] and [$2] of a replacement. *)
Definition group (n : nat) (groups : list wstr) : wstr := nth n groups [].

(** A text between double quotes. *)
Definition quoted (s : wstr) : wstr :=
  latin (ascii_of_nat 34) :: s ++ [latin (ascii_of_nat 34)].

(** The replacement of a link, for its target and its label. *)
Definition anchor (href label : wstr) : wstr :=
  lit "<a href=" ++ quoted href ++ lit " target=" ++ quoted (lit "_blank")
  ++ lit " rel=" ++ quoted (lit "noopener")
  ++ lit " class=" ++ quoted (lit "spec-link") ++ lit ">"
  ++ label ++ lit "</a>".

(** The replacement of the opener of an inner block with a title. *)
Definition innerOpen (ttl : wstr) : wstr :=
  lit "<div class=" ++ quoted (lit "inner-quote")
  ++ lit "><div class=" ++ quoted (lit "inner-quote-title") ++ lit ">"
  ++ ttl
  ++ lit "</div><div class=" ++ quoted (lit "inner-quote-content") ++ lit ">".

Definition innerClose : wstr := lit "</div></div>".

(** [parseInnerBBCode(input)] *)
Definition parseInnerBBCode (input : wstr) : wstr :=
  let result := input in
  let result :=
    replaceAll [Word (lit "[url="); Some1 (latin "]"); Word (lit "]");
                Any (latin "["); Word (lit "[/url]")]
      (fun g => anchor (group 0 g) (group 1 g)) result in
  let result :=
    replaceAll [Word (lit "[url]"); Any (latin "["); Word (lit "[/url]")]
      (fun g => anchor (group 0 g) (group 0 g)) result in
  let result :=
    replaceAll [Word (lit "[quote="); Some1 (latin "]"); Word (lit "]")]
      (fun g => innerOpen (group 0 g)) result in
  let result :=
    replaceAll [Word (lit "[/quote]")] (fun _ => innerClose) result in
  let result := replaceAll [Word (lit "[pre]")] (fun _ => []) result in
  let result := replaceAll [Word (lit "[/pre]")] (fun _ => []) result in
  let result :=
    replaceAll [Word (lit "[b]"); Any (latin "["); Word (lit "[/b]")]
      (fun g => lit "<strong>" ++ group 0 g ++ lit "</strong>") result in
  let result :=
    replaceAll [Word (lit "[i]"); Any (latin "["); Word (lit "[/i]")]
      (fun g => lit "<em>" ++ group 0 g ++ lit "</em>") result in
  let result := replaceAll [Word (lit "[code]")] (fun _ => []) result in
  let result := replaceAll [Word (lit "[/code]")] (fun _ => []) result in
  let result :=
    replaceAll [Word (lit "[img]"); Any (latin "["); Word (lit "[/img]")]
      (fun _ => []) result in
  let result :=
    replaceAll [Word (lit "[color="); Any (latin "]"); Word (lit "]")]
      (fun _ => []) result in
  let result := replaceAll [Word (lit "[/color]")] (fun _ => []) result in
  let result :=
    replaceAll [Word (lit "[size="); Any (latin "]"); Word (lit "]")]
      (fun _ => []) result in
  let result := replaceAll [Word (lit "[/size]")] (fun _ => []) result in
  let result :=
    replaceAll [Word (lit "[spoiler="); Some1 (latin "]"); Word (lit "]")]
      (fun g => innerOpen (group 0 g)) result in
  let result :=
    replaceAll [Word (lit "[/spoiler]")] (fun _ => innerClose) result in
  trim result.

End BBCode.

(* ------------------------------------------------------------------ *)
(** ** scripts/lib/bbcode.ts: the extractor *)

Module BBCodeBlocks.

Import BBCode Utf16.

Record Block := { title : wstr; content : wstr }.

(** [[^\]]+\]] at the head of [s]: the code units up to the first ']',
    provided there is one and at least one unit precedes it. *)
Fixpoint upToBracket (s : wstr) : option wstr :=
  match s with
  | [] => None
  | c :: s' =>
      if cu_eqb c (latin "]") then Some []
      else option_map (cons c) (upToBracket s')
  end.

Definition titleGroup (s : wstr) : option wstr :=
  match upToBracket s with
  | Some (c :: t) => Some (c :: t)
  | _ => None
  end.

(** The pattern [/\[(quote|spoiler)=([^\]]+)\]/i] anchored at the head of
    [s]: tag kind, second group and length of the whole match. *)
Definition matchOpenHere (s : wstr) : option (tagKind * wstr * nat) :=
  let tryKind (k : tagKind) :=
    let head := wide (openTagStr k) ++ lit "=" in
    if startsWith head (map foldUnit (firstn (length head) s))
    then match titleGroup (skipn (length head) s) with
         | Some t => Some (k, t, length head + length t + 1)
         | None => None
         end
    else None in
  match tryKind Quote with
  | Some m => Some m
  | None => tryKind Spoiler
  end.

(** [remaining.match(...)]: the leftmost match, as
    (index, kind, group 2, length of the match). *)
Fixpoint matchOpen (s : wstr) : option (nat * tagKind * wstr * nat) :=
  match matchOpenHere s with
  | Some (k, t, len) => Some (0, k, t, len)
  | None =>
      match s with
      | [] => None
      | _ :: s' =>
          match matchOpen s' with
          | Some (i, k, t, len) => Some (S i, k, t, len)
          | None => None
          end
      end
  end.

(** The inner [while (pos < remaining.length && depth > 0)] loop; it
    answers the final [pos] and [endIndex].  The two indexes are places
    in [remaining.toLowerCase()]; [pos] is compared with the length of
    [remaining] itself. *)
Fixpoint findClose (fuel : nat) (remaining : wstr) (k : tagKind)
    (depth pos : nat) (endIndex : option nat) : option (nat * option nat) :=
  if (pos <? length remaining) && (0 <? depth) then
    match fuel with
    | 0 => None
    | S fuel' =>
        let nextOpen :=
          indexOf (toLowerCase remaining) (wide (openTagStr k)) pos in
        let nextClose :=
          indexOf (toLowerCase remaining) (wide (closeTagStr k)) pos in
        match nextClose with
        | None => Some (pos, endIndex)
        | Some c =>
            let closing :=
              let depth' := depth - 1 in
              findClose fuel' remaining k depth'
                (c + length (wide (closeTagStr k)))
                (if depth' =? 0 then Some c else endIndex) in
            match nextOpen with
            | Some o =>
                if o <? c
                then findClose fuel' remaining k (depth + 1)
                       (o + length (wide (openTagStr k))) endIndex
                else closing
            | None => closing
            end
        end
    end
  else Some (pos, endIndex).

(** The outer [while (true)] loop on [remaining] and [results]; the
    content and the new [remaining] are cut out of [remaining] itself. *)
Fixpoint extractLoop (fuel : nat) (remaining : wstr) (results : list Block)
    : option (list Block) :=
  match fuel with
  | 0 => None
  | S fuel' =>
      match matchOpen remaining with
      | None => Some results
      | Some (index, k, g2, len) =>
          let title := trim g2 in
          let startIndex := index + len in
          match findClose (length remaining) remaining k 1 startIndex None with
          | None => None
          | Some (pos, Some endIndex) =>
              let content := substring remaining startIndex endIndex in
              extractLoop fuel' (substringFrom remaining pos)
                (results ++ [{| title := title; content := content |}])
          | Some (pos, None) =>
              extractLoop fuel' (substringFrom remaining startIndex) results
          end
      end
  end.

(** [extractOutermostQuotes(input)]; [None] would mean that a loop ran
    out of fuel, which [extractOutermostQuotes_total] excludes. *)
Definition extractOutermostQuotes (input : wstr) : option (list Block) :=
  extractLoop (S (length input)) input [].

(** [parseBBCodeSpecs(input)]: a spec entry has a title and a content,
    like a block. *)
Definition parseBBCodeSpecs (input : wstr) : option (list Block) :=
  option_map
    (map (fun block =>
            {| title := title block;
               content := parseInnerBBCode (content block) |}))
    (extractOutermostQuotes input).

End BBCodeBlocks.

(** A second copy of the extractor in the repository (bbcode.ts, second
    document): quote tags only, nested tags looked up in the text as
    written, and extraction stops at the first opener without a closer. *)
Module BBCodeQuoteOnly.

Import BBCode Utf16 BBCodeBlocks.

(** [/\[quote=([^\]]+)\]/i] anchored at the head of [s]. *)
Definition matchOpenHere (s : wstr) : option (wstr * nat) :=
  let head := lit "[quote=" in
  if startsWith head (map foldUnit (firstn (length head) s))
  then match titleGroup (skipn (length head) s) with
       | Some t => Some (t, length head + length t + 1)
       | None => None
       end
  else None.

Fixpoint matchOpen (s : wstr) : option (nat * wstr * nat) :=
  match matchOpenHere s with
  | Some (t, len) => Some (0, t, len)
  | None =>
      match s with
      | [] => None
      | _ :: s' =>
          match matchOpen s' with
          | Some (i, t, len) => Some (S i, t, len)
          | None => None
          end
      end
  end.

Fixpoint findClose (fuel : nat) (remaining : wstr)
    (depth pos : nat) (endIndex : option nat) : option (nat * option nat) :=
  if (pos <? length remaining) && (0 <? depth) then
    match fuel with
    | 0 => None
    | S fuel' =>
        let nextOpen := indexOf remaining (lit "[quote") pos in
        let nextClose := indexOf remaining (lit "[/quote]") pos in
        match nextClose with
        | None => Some (pos, endIndex)
        | Some c =>
            let closing :=
              let depth' := depth - 1 in
              findClose fuel' remaining depth' (c + 8)
                (if depth' =? 0 then Some c else endIndex) in
            match nextOpen with
            | Some o =>
                if o <? c
                then findClose fuel' remaining (depth + 1) (o + 6) endIndex
                else closing
            | None => closing
            end
        end
    end
  else Some (pos, endIndex).

Fixpoint extractLoop (fuel : nat) (remaining : wstr) (results : list Block)
    : option (list Block) :=
  match fuel with
  | 0 => None
  | S fuel' =>
      match matchOpen remaining with
      | None => Some results
      | Some (index, g1, len) =>
          let title := trim g1 in
          let startIndex := index + len in
          match findClose (length remaining) remaining 1 startIndex None with
          | None => None
          | Some (pos, Some endIndex) =>
              let content := substring remaining startIndex endIndex in
              extractLoop fuel' (substringFrom remaining pos)
                (results ++ [{| title := title; content := content |}])
          | Some (pos, None) => Some results
          end
      end
  end.

Definition extractOutermostQuotes (input : wstr) : option (list Block) :=
  extractLoop (S (length input)) input [].

End BBCodeQuoteOnly.

(* ------------------------------------------------------------------ *)
(** ** scripts/lib/torrent.ts *)

Module Torrent.

(** [TorrentFile] and the part of [TorrentEntry] that [parseTorrent]
    fills in. *)
Record TorrentFile := { path : str; size : Z }.
Record TorrentEntry := { name : str; files : list TorrentFile }.

(** What [toStr] is handed: a string, the bytes bencode returns for a
    byte string, or any other value -- [undefined] where the entry that
    should hold a text is missing, a number, a list, a dictionary --
    given with what [Buffer.from] makes of it: the bytes of a buffer, or
    nothing when it throws, as it does for [undefined] and for a
    number. *)
Inductive RawText :=
| JsString (s : str)
| Bytes (b : list Byte.byte)
| Other (made : option (list Byte.byte)).

(** A missing entry. *)
Definition Undefined : RawText := Other None.

(** [interface BencodedTorrent].  The result of [bencode.decode] is cast
    to it unchecked, so the entries the interface requires may be
    missing all the same: [info] is [None] when the decoded value has no
    such entry, and [info_name] is [Undefined] when [info] has no name. *)
Record BencodedFile := { file_path : list RawText; file_length : Z }.
Record BencodedInfo := {
  info_name : RawText;
  info_files : option (list BencodedFile);
  info_length : option Z
}.
Record BencodedTorrent := { info : option BencodedInfo }.

(** Why the promise is rejected: reading the file failed,
    [bencode.decode] threw, or a [TypeError] was thrown afterwards. *)
Inductive Failure := ReadFailed | DecodeFailed | TypeError.

(** What awaiting the promise gives: the entry, or a rejection. *)
Inductive Outcome :=
| Resolved (entry : TorrentEntry)
| Rejected (why : Failure).

Section Platform.

(** The platform's collaborators: [TextDecoder.decode],
    [Buffer.toString('utf8')], [fs.readFile] and [bencode.decode]; the
    last two may throw. *)
Variable utf8 : list Byte.byte -> str.
Variable bufferText : list Byte.byte -> str.
Variable readFile : str -> option (list Byte.byte).
Variable bdecode : list Byte.byte -> option BencodedTorrent.

(** [toStr(val)]; [None] when it throws: a value that is neither a
    string nor a [Uint8Array] goes to [Buffer.from], which throws a
    [TypeError] when it can make no buffer of it. *)
Definition toStr (val : RawText) : option str :=
  match val with
  | JsString s => Some s
  | Bytes b => Some (utf8 b)
  | Other (Some b) => Some (bufferText b)
  | Other None => None
  end.

(** A number in a condition: zero is falsy. *)
Definition truthy (n : Z) : bool := negb (n =? 0)%Z.

(** One turn of the loop over [decoded.info.files]. *)
Definition fileEntry (file : BencodedFile) : option TorrentFile :=
  match mapThrowing toStr (file_path file) with
  | Some pathParts =>
      Some {| path := join (lit "/") pathParts; size := file_length file |}
  | None => None
  end.

(** The body of [parseTorrent] after decoding; [None] when it throws a
    [TypeError]: reading [name] of a missing [info], or in [toStr]. *)
Definition parseDecoded (decoded : BencodedTorrent) : option TorrentEntry :=
  match info decoded with
  | None => None
  | Some inf =>
      match toStr (info_name inf) with
      | None => None
      | Some name =>
          match info_files inf with
          | Some fs =>
              match mapThrowing fileEntry fs with
              | Some files => Some {| name := name; files := files |}
              | None => None
              end
          | None =>
              let files :=
                match info_length inf with
                | Some len =>
                    if truthy len then [{| path := name; size := len |}]
                    else []
                | None => []
                end in
              Some {| name := name; files := files |}
          end
      end
  end.

Definition parseTorrent (torrentPath : str) : Outcome :=
  match readFile torrentPath with
  | None => Rejected ReadFailed
  | Some buffer =>
      match bdecode buffer with
      | None => Rejected DecodeFailed
      | Some decoded =>
          match parseDecoded decoded with
          | Some entry => Resolved entry
          | None => Rejected TypeError
          end
      end
  end.

End Platform.

(** The decoder on ASCII bytes, for concrete runs. *)
Definition asciiText (b : list Byte.byte) : str := map ascii_of_byte b.

End Torrent.

(* ------------------------------------------------------------------ *)
(** ** src/lib/utils/mediainfo-parser.ts *)

Module MediaInfo.

(** What [data[key]] can be besides a string or an array, because it
    also sees what [data] inherits: [Object.prototype] itself (under
    [__proto__]), one of its functions, a function of [Array.prototype],
    or the length of an array. *)
Inductive Foreign :=
| ObjectProto
| ObjectMember (name : str)
| ArrayMember (name : str)
| ArrayLength (n : nat).

(** The value of one field of a section: [string | string[]] as
    declared, a string or an array of strings; and, as [parseMediaInfo]
    may build it, an array whose first element is a foreign value. *)
Inductive FieldValue :=
| Single (v : str)
| Multi (vs : list str)
| Headed (h : Foreign) (vs : list str).

(** The object [data]: the properties of its own and its prototype.
    [protoArray] is [None] as long as the prototype is
    [Object.prototype]; assigning [data['__proto__']] makes an array
    [[Object.prototype, v1, ...]] the prototype, and [protoArray] then
    holds the strings [v1, ...]. *)
Record DataObject := {
  own : list (str * FieldValue);
  protoArray : option (list str)
}.

Record MediaInfoSection := {
  header : str;
  base : str;
  index : option JsNumber;
  data : DataObject
}.

Definition MediaInfoParsed := list (str * list MediaInfoSection).

Definition LF : ascii := ascii_of_nat 10.
Definition CR : ascii := ascii_of_nat 13.

(** [text.replace(/\\n/g, '\n')] *)
Fixpoint unescapeNewlines (s : str) : str :=
  match s with
  | [] => []
  | c :: s' =>
      if ascii_eqb c "\" then
        match s' with
        | d :: s'' =>
            if ascii_eqb d "n" then LF :: unescapeNewlines s''
            else c :: unescapeNewlines s'
        | [] => [c]
        end
      else c :: unescapeNewlines s'
  end.

(** [.replace(/\r\n?/g, '\n')] *)
Fixpoint normalizeLineEndings (s : str) : str :=
  match s with
  | [] => []
  | c :: s' =>
      if ascii_eqb c CR then
        LF :: match s' with
              | d :: s'' =>
                  if ascii_eqb d LF then normalizeLineEndings s''
                  else normalizeLineEndings s'
              | [] => []
              end
      else c :: normalizeLineEndings s'
  end.

(** [.replace(/\xc2\xa0/g, ' ')] *)
Fixpoint replaceNbspArtifacts (s : str) : str :=
  match s with
  | [] => []
  | c :: s' =>
      if ascii_eqb c (ascii_of_nat 194) then
        match s' with
        | d :: s'' =>
            if ascii_eqb d (ascii_of_nat 160)
            then " "%char :: replaceNbspArtifacts s''
            else c :: replaceNbspArtifacts s'
        | [] => [c]
        end
      else c :: replaceNbspArtifacts s'
  end.

(** For [s] the text after a line feed: the length of [\s*\n+] there,
    that is of the leading white space up to its last line feed. *)
Fixpoint separatorTail (s : str) : option nat :=
  match s with
  | [] => None
  | c :: s' =>
      if is_space c then
        match separatorTail s' with
        | Some n => Some (S n)
        | None => if ascii_eqb c LF then Some 1 else None
        end
      else None
  end.

(** [s.split(/\n\s*\n+/)]; [skip] counts the characters of a separator
    still to drop and [cur] holds the current piece, reversed. *)
Fixpoint splitBlocksFrom (skip : nat) (cur : str) (s : str) : list str :=
  match s with
  | [] => [rev cur]
  | c :: s' =>
      match skip with
      | S n => splitBlocksFrom n cur s'
      | 0 =>
          if ascii_eqb c LF then
            match separatorTail s' with
            | Some n => rev cur :: splitBlocksFrom n [] s'
            | None => splitBlocksFrom 0 (c :: cur) s'
            end
          else splitBlocksFrom 0 (c :: cur) s'
      end
  end.

Definition splitBlocks (s : str) : list str := splitBlocksFrom 0 [] s.

(** [block.split('\n').map((l) => l.trim()).filter(Boolean)] *)
Definition blockLines (block : str) : list str :=
  filter (fun l => negb (isEmpty l)) (map trim (splitChar LF block)).

(** A character [.] matches: anything but a line terminator. *)
Definition is_dot (c : ascii) : bool :=
  negb (ascii_eqb c LF || ascii_eqb c CR).

(** [\s*(?:#(\d+))?$] against the whole of [rest]: [Some None] when only
    white space is left, [Some (Some digits)] with a stream number. *)
Definition headerTail (rest : str) : option (option str) :=
  match trimStart rest with
  | [] => Some None
  | c :: ds =>
      if ascii_eqb c "#" && negb (isEmpty ds) && forallb is_digit ds
      then Some (Some ds) else None
  end.

(** The lazy group [(.+?)] grown one character at a time. *)
Fixpoint headerLazy (g1 rest : str) : option (str * option str) :=
  match headerTail rest with
  | Some g2 => Some (g1, g2)
  | None =>
      match rest with
      | [] => None
      | c :: rest' =>
          if is_dot c then headerLazy (g1 ++ [c]) rest' else None
      end
  end.

(** [header.match(/^(.+?)\s*(?:#(\d+))?$/)]: groups 1 and 2. *)
Definition headerMatch (header : str) : option (str * option str) :=
  match header with
  | [] => None
  | c :: rest => if is_dot c then headerLazy [c] rest else None
  end.

(** The key and value of a line, or [None] where the loop says
    [continue]: no colon, or an empty key. *)
Definition lineField (line : str) : option (str * str) :=
  if negb (includes line (lit ":")) then None
  else
    match splitChar ":" line with
    | [] => None
    | rawKey :: rest =>
        let key := trim rawKey in
        let value := trim (join (lit ":") rest) in
        if isEmpty key then None else Some (key, value)
    end.

(** What a key other than [__proto__] finds up the prototype chain of
    [data] when [data] has no such property itself; [None] when
    [key in data] is false.  With an array for prototype, the chain is
    the array (its elements and its length), [Array.prototype],
    [Object.prototype]. *)
Definition inheritedValue (proto : option (list str)) (key : str)
    : option (Foreign + str) :=
  match proto with
  | None => if inherited key then Some (inl (ObjectMember key)) else None
  | Some vs =>
      match arrayIndex key with
      | Some i =>
          if (i =? 0)%N then Some (inl ObjectProto)
          else option_map inr (nth_error vs (N.to_nat i - 1))
      | None =>
          if str_eqb key (lit "length")
          then Some (inl (ArrayLength (S (length vs))))
          else if arrayInherited key then Some (inl (ArrayMember key))
          else if inherited key then Some (inl (ObjectMember key))
          else None
      end
  end.

(** For a key other than [__proto__]:
    [Array.isArray(existing) ? [...existing, value] : [existing, value]]
    when [key in data], and [value] otherwise. *)
Definition merged (data : DataObject) (key value : str) : FieldValue :=
  match lookup key (own data) with
  | Some (Single v) => Multi [v; value]
  | Some (Multi vs) => Multi (vs ++ [value])
  | Some (Headed h vs) => Headed h (vs ++ [value])
  | None =>
      match inheritedValue (protoArray data) key with
      | Some (inl h) => Headed h [value]
      | Some (inr v) => Multi [v; value]
      | None => Single value
      end
  end.

(** [if (key in data) ... else data[key] = value].  [__proto__] is
    always in [data], as an accessor: reading it gives the prototype,
    and assigning an array to it makes that array the prototype, without
    adding a property. *)
Definition storeField (data : DataObject) (key value : str) : DataObject :=
  if str_eqb key (lit "__proto__") then
    {| own := own data;
       protoArray :=
         Some (match protoArray data with
               | Some vs => vs ++ [value]
               | None => [value]
               end) |}
  else
    {| own := assign key (merged data key value) (own data);
       protoArray := protoArray data |}.

(** One turn of the loop over the lines after the header. *)
Definition addLine (data : DataObject) (line : str) : DataObject :=
  match lineField line with
  | Some (key, value) => storeField data key value
  | None => data
  end.

(** [{}] *)
Definition emptyData : DataObject := {| own := []; protoArray := None |}.

(** [(result[base] ??= []).push(section)]; [None] when it throws:
    [result] is an object literal, so for a base name that it inherits
    [result[base]] is a function or an object, nothing is assigned, and
    there is no [push] to call. *)
Definition pushSection (result : MediaInfoParsed) (section : MediaInfoSection)
    : option MediaInfoParsed :=
  match read (base section) result with
  | Own sections => Some (assign (base section) (sections ++ [section]) result)
  | Inherited => None
  | Absent => Some (assign (base section) [section] result)
  end.

(** [match?.[1]?.trim() ?? header] *)
Definition headerBase (header : str) : str :=
  match headerMatch header with
  | Some (g1, _) => trim g1
  | None => header
  end.

(** [match?.[2] ? Number(match[2]) : undefined] *)
Definition headerIndex (header : str) : option JsNumber :=
  match headerMatch header with
  | Some (_, Some digits) => Some (numberOfDigits digits)
  | _ => None
  end.

(** The section of one block; [None] when the block has no line. *)
Definition parseBlock (block : str) : option MediaInfoSection :=
  match blockLines block with
  | [] => None
  | header :: fields =>
      Some {| header := header;
              base := headerBase header;
              index := headerIndex header;
              data := fold_left addLine fields emptyData |}
  end.

(** The blocks of a report, after normalisation. *)
Definition reportBlocks (text : str) : list str :=
  let looksEscaped := includes text (lit "\n") in
  let normalized :=
    trim (replaceNbspArtifacts (normalizeLineEndings
            (if looksEscaped then unescapeNewlines text else text))) in
  splitBlocks normalized.

(** The loop over the blocks; [None] once [push] has thrown. *)
Definition parseBlocks (blocks : list str) : option MediaInfoParsed :=
  fold_left (fun result block =>
               match result with
               | None => None
               | Some parsed =>
                   match parseBlock block with
                   | Some section => pushSection parsed section
                   | None => Some parsed
                   end
               end) blocks (Some []).

(** [parseMediaInfo(text)]; [None] when it throws a [TypeError]. *)
Definition parseMediaInfo (text : str) : option MediaInfoParsed :=
  if isEmpty text then Some [] else parseBlocks (reportBlocks text).

(** [getFirst(value)]: a string, or the foreign head of an array. *)
Definition getFirst (value : option FieldValue) : option (str + Foreign) :=
  match value with
  | None => None
  | Some (Single v) => if isEmpty v then None else Some (inl v)
  | Some (Multi vs) => option_map inl (nth_error vs 0)
  | Some (Headed h _) => Some (inr h)
  end.

Record GeneralInfo := {
  g_file_name : option str;
  g_format : option str;
  g_duration : option str;
  g_file_size : option str;
  g_bit_rate : option str
}.

Record VideoInfo := {
  v_format : option str;
  v_format_profile : option str;
  v_codec : option str;
  v_width : option str;
  v_height : option str;
  v_bit_depth : option str;
  v_hdr_format : option str;
  v_transfer_characteristics : option str;
  v_frame_rate : option str;
  v_bit_rate : option str
}.

Record AudioInfo := {
  a_format : option str;
  a_format_profile : option str;
  a_channels : option str;
  a_bit_rate : option str;
  a_title : option str;
  a_language : option str;
  a_commercial_name : option str
}.

Record TextInfo := {
  t_format : option str;
  t_title : option str;
  t_language : option str
}.

(** [MediaInfoStructured]; [None] is [null]. *)
Record MediaInfoStructured := {
  general : option GeneralInfo;
  video : option (list VideoInfo);
  audio : option (list AudioInfo);
  text : option (list TextInfo)
}.

(** [getFirst(s.data[name])] for the names that [toStructured] reads.
    [data] inherits none of them, whatever its prototype, so
    [s.data[name]] is the property of [data] itself; and what
    [parseMediaInfo] stores under such a name is a string or an array of
    strings, the declared type of a field, so that the first value is a
    string. *)
Definition field (s : MediaInfoSection) (name : string) : option str :=
  match getFirst (lookup (lit name) (own (data s))) with
  | Some (inl v) => Some v
  | _ => None
  end.

Definition toGeneral (g : MediaInfoSection) : GeneralInfo :=
  {| g_file_name := field g "Complete name";
     g_format := field g "Format";
     g_duration := field g "Duration";
     g_file_size := field g "File size";
     g_bit_rate := field g "Overall bit rate" |}.

Definition toVideo (v : MediaInfoSection) : VideoInfo :=
  {| v_format := field v "Format";
     v_format_profile := field v "Format profile";
     v_codec := field v "Codec ID";
     v_width := field v "Width";
     v_height := field v "Height";
     v_bit_depth := field v "Bit depth";
     v_hdr_format := field v "HDR format";
     v_transfer_characteristics := field v "Transfer characteristics";
     v_frame_rate := field v "Frame rate";
     v_bit_rate := field v "Bit rate" |}.

Definition toAudio (a : MediaInfoSection) : AudioInfo :=
  {| a_format := field a "Format";
     a_format_profile := field a "Format profile";
     a_channels := field a "Channel(s)";
     a_bit_rate := field a "Bit rate";
     a_title := field a "Title";
     a_language := field a "Language";
     a_commercial_name := field a "Commercial name" |}.

Definition toText (t : MediaInfoSection) : TextInfo :=
  {| t_format := field t "Format";
     t_title := field t "Title";
     t_language := field t "Language" |}.

(** [parsed[name] ?? []] for a name that [parsed] does not inherit. *)
Definition sectionsOf (parsed : MediaInfoParsed) (name : str)
    : list MediaInfoSection :=
  match lookup name parsed with Some l => l | None => [] end.

(** [(parsed[name] ?? []).concat(Object.keys(parsed)
       .filter((k) => k.startsWith(name + ' #')).flatMap((k) => parsed[k]))] *)
Definition withNumbered (parsed : MediaInfoParsed) (name : string)
    : list MediaInfoSection :=
  sectionsOf parsed (lit name)
  ++ flat_map (sectionsOf parsed)
       (filter (startsWith (lit name ++ lit " #")) (keys parsed)).

(** [xs.length ? xs.map(f) : null] *)
Definition mapOrNull (A B : Type) (f : A -> B) (xs : list A)
    : option (list B) :=
  match xs with [] => None | _ => Some (map f xs) end.

Definition toStructured (parsed : MediaInfoParsed) : MediaInfoStructured :=
  let general :=
    match lookup (lit "General") parsed with
    | Some l => nth_error l 0
    | None => None
    end in
  let videos := sectionsOf parsed (lit "Video") in
  let audios := withNumbered parsed "Audio" in
  let texts := withNumbered parsed "Text" in
  {| general := option_map toGeneral general;
     video := mapOrNull toVideo videos;
     audio := mapOrNull toAudio audios;
     text := mapOrNull toText texts |}.

(** [parseChannels(channelStr)] *)
Definition parseChannels (channelStr : option str) : str :=
  match channelStr with
  | None => []
  | Some [] => []
  | Some cs =>
      match parseDigits cs with
      | None => cs
      | Some num =>
          match num with
          | 1 => lit "1.0"
          | 2 => lit "2.0"
          | 6 => lit "5.1"
          | 7 => lit "6.1"
          | 8 => lit "7.1"
          | _ => ofNat num ++ lit "ch"
          end
      end
  end.

(** [getResolution(width, height)] *)
Definition getResolution (width height : option str) : str :=
  match height with
  | None => []
  | Some [] => []
  | Some hs =>
      match parseDigits hs with
      | None => []
      | Some h =>
          if 2160 <=? h then lit "4K"
          else if 1080 <=? h then lit "1080p"
          else if 720 <=? h then lit "720p"
          else if 576 <=? h then lit "576p"
          else if 480 <=? h then lit "480p"
          else ofNat h ++ lit "p"
      end
  end.

(** [getHDRInfo(video)] *)
Definition getHDRInfo (video : option (list VideoInfo)) : str :=
  match video with
  | None => []
  | Some [] => []
  | Some (v :: _) =>
      if truthyStr (v_hdr_format v) then
        let hdr := match v_hdr_format v with Some f => f | None => [] end in
        if includes (toLowerCase hdr) (lit "dolby vision") then lit "DV"
        else if includes (toLowerCase hdr) (lit "hdr10+") then lit "HDR10+"
        else if includes (toLowerCase hdr) (lit "hdr10") then lit "HDR10"
        else if includes (toLowerCase hdr) (lit "hlg") then lit "HLG"
        else lit "HDR"
      else
        let transfer :=
          match v_transfer_characteristics v with
          | Some t => toLowerCase t
          | None => []
          end in
        if includes transfer (lit "pq")
           || includes transfer (lit "smpte st 2084") then lit "HDR10"
        else if includes transfer (lit "hlg") then lit "HLG"
        else []
  end.

(** [set.add(x)] on a set kept in insertion order. *)
Definition setAdd (seen : list str) (x : str) : list str :=
  if existsb (str_eqb x) seen then seen else seen ++ [x].

(** [getSubtitleLanguages(texts)] *)
Definition getSubtitleLanguages (texts : option (list TextInfo)) : list str :=
  match texts with
  | None => []
  | Some ts =>
      fold_left (fun languages t =>
                   match t_language t with
                   | Some (c :: l) =>
                       setAdd languages
                         (trim (hd [] (splitChar "(" (c :: l))))
                   | _ => languages
                   end) ts []
  end.

(** [p?.toLowerCase().includes(w)] on an optional string. *)
Definition lowerIncludes (o : option str) (w : string) : bool :=
  match o with
  | Some s => includes (toLowerCase s) (lit w)
  | None => false
  end.

(** The descriptor of one audio stream, before deduplication. *)
Definition audioDescriptor (a : AudioInfo) : str :=
  let audioDesc :=
    if lowerIncludes (a_commercial_name a) "atmos" then lit "Atmos"
    else if lowerIncludes (a_commercial_name a) "truehd" then lit "TrueHD"
    else if lowerIncludes (a_commercial_name a) "dts" then
      match a_commercial_name a with
      | Some n => if includes n (lit "HD") then lit "DTS-HD MA" else lit "DTS"
      | None => lit "DTS"
      end
    else
      match a_format a with
      | Some (c :: f) =>
          let fmt := toUpperCase (c :: f) in
          if includes fmt (lit "E-AC-3") || includes fmt (lit "EAC3")
          then lit "DD+"
          else if includes fmt (lit "AC-3") || str_eqb fmt (lit "AC3")
          then lit "DD"
          else if includes fmt (lit "AAC") then lit "AAC"
          else if includes fmt (lit "FLAC") then lit "FLAC"
          else if includes fmt (lit "OPUS") then lit "Opus"
          else if includes fmt (lit "TRUEHD") then lit "TrueHD"
          else if includes fmt (lit "DTS") then lit "DTS"
          else c :: f
      | _ => []
      end in
  let ch := parseChannels (a_channels a) in
  if negb (isEmpty ch) && negb (isEmpty audioDesc)
  then audioDesc ++ lit " " ++ ch
  else audioDesc.

(** [generateSummary(structured)] *)
Definition generateSummary (structured : MediaInfoStructured) : str :=
  let parts0 : list str := [] in
  let parts1 :=
    match video structured with
    | Some (v :: _) =>
        let vp0 : list str := [] in
        let vp1 := if truthyStr (v_format v)
                   then vp0 ++ [match v_format v with Some f => f | None => [] end]
                   else vp0 in
        let vp2 :=
          match v_bit_depth v with
          | Some (c :: d) =>
              if negb (includes (c :: d) (lit "8"))
              then vp1 ++ [replaceFirst
                             (replaceFirst (c :: d) (lit " bits") (lit "-bit"))
                             (lit " bit") (lit "-bit")]
              else vp1
          | _ => vp1
          end in
        let res := getResolution (v_width v) (v_height v) in
        let vp3 := if isEmpty res then vp2 else vp2 ++ [res] in
        let hdr := getHDRInfo (video structured) in
        let vp4 := if isEmpty hdr then vp3 else vp3 ++ [hdr] in
        match vp4 with
        | [] => parts0
        | _ => parts0 ++ [join (lit " ") vp4]
        end
    | _ => parts0
    end in
  let parts2 :=
    match audio structured with
    | Some (a0 :: as') =>
        let audioFormats :=
          fold_left (fun formats a =>
                       let audioDesc := audioDescriptor a in
                       if negb (isEmpty audioDesc)
                          && negb (existsb (str_eqb audioDesc) formats)
                       then formats ++ [audioDesc] else formats)
                    (a0 :: as') [] in
        match audioFormats with
        | [] => parts1
        | _ => parts1 ++ [join (lit " + ") (firstn 2 audioFormats)]
        end
    | _ => parts1
    end in
  let parts3 :=
    match text structured with
    | Some (t0 :: ts) =>
        let count := length (t0 :: ts) in
        let langs := getSubtitleLanguages (text structured) in
        let subInfo :=
          ofNat count ++ lit " Sub" ++ (if count =? 1 then [] else lit "s") in
        let subInfo' :=
          if (0 <? length langs) && (length langs <=? 4)
          then subInfo ++ lit " (" ++ join (lit ", ") langs ++ lit ")"
          else if 4 <? length langs
          then subInfo ++ lit " (" ++ join (lit ", ") (firstn 3 langs)
                 ++ lit "...)"
          else subInfo in
        parts2 ++ [subInfo']
    | _ => parts2
    end in
  join (lit " | ") parts3.

(** [parseAndSummarize(rawText)]; [None] when [parseMediaInfo] throws. *)
Definition parseAndSummarize (rawText : str)
    : option (MediaInfoParsed * MediaInfoStructured * str) :=
  match parseMediaInfo rawText with
  | Some parsed =>
      let structured := toStructured parsed in
      let summary := generateSummary structured in
      Some (parsed, structured, summary)
  | None => None
  end.

End MediaInfo.

(* ------------------------------------------------------------------ *)
(** ** src/lib/utils/language-flags.ts *)

Module Lang.

(** A glyph: the code points of the string [String.fromCodePoint] builds. *)
Definition glyph := list N.

Record LanguageFlag := { language : str; flag : glyph }.

(** The white flag with its variation selector, and the globe. *)
Definition whiteFlag : glyph := [127987%N; 65039%N].
Definition globe : glyph := [127760%N].

Definition languageToCountry : list (str * str) :=
  [ (lit "afrikaans", lit "ZA"); (lit "af", lit "ZA");
    (lit "albanian", lit "AL"); (lit "sq", lit "AL");
    (lit "amharic", lit "ET"); (lit "am", lit "ET"); (lit "arabic", lit "SA");
    (lit "ar", lit "SA"); (lit "armenian", lit "AM"); (lit "hy", lit "AM");
    (lit "azerbaijani", lit "AZ"); (lit "az", lit "AZ");
    (lit "basque", lit "ES"); (lit "eu", lit "ES");
    (lit "belarusian", lit "BY"); (lit "be", lit "BY");
    (lit "bengali", lit "BD"); (lit "bn", lit "BD"); (lit "bosnian", lit "BA");
    (lit "bs", lit "BA"); (lit "bulgarian", lit "BG"); (lit "bg", lit "BG");
    (lit "burmese", lit "MM"); (lit "my", lit "MM");
    (lit "cambodian", lit "KH"); (lit "km", lit "KH");
    (lit "catalan", lit "ES"); (lit "ca", lit "ES"); (lit "cebuano", lit "PH");
    (lit "chinese", lit "CN"); (lit "zh", lit "CN");
    (lit "chinese (simplified)", lit "CN");
    (lit "chinese (traditional)", lit "CN"); (lit "cantonese", lit "HK");
    (lit "croatian", lit "HR"); (lit "hr", lit "HR"); (lit "czech", lit "CZ");
    (lit "cs", lit "CZ"); (lit "danish", lit "DK"); (lit "da", lit "DK");
    (lit "dutch", lit "NL"); (lit "nl", lit "NL"); (lit "english", lit "US");
    (lit "en", lit "US"); (lit "esperanto", lit "PL"); (lit "eo", lit "PL");
    (lit "estonian", lit "EE"); (lit "et", lit "EE");
    (lit "filipino", lit "PH"); (lit "fil", lit "PH");
    (lit "finnish", lit "FI"); (lit "fi", lit "FI"); (lit "french", lit "FR");
    (lit "fr", lit "FR"); (lit "galician", lit "ES"); (lit "gl", lit "ES");
    (lit "georgian", lit "GE"); (lit "ka", lit "GE"); (lit "german", lit "DE");
    (lit "de", lit "DE"); (lit "greek", lit "GR"); (lit "el", lit "GR");
    (lit "gujarati", lit "IN"); (lit "gu", lit "IN");
    (lit "haitian creole", lit "HT"); (lit "ht", lit "HT");
    (lit "hebrew", lit "IL"); (lit "he", lit "IL"); (lit "hindi", lit "IN");
    (lit "hi", lit "IN"); (lit "hungarian", lit "HU"); (lit "hu", lit "HU");
    (lit "icelandic", lit "IS"); (lit "is", lit "IS");
    (lit "indonesian", lit "ID"); (lit "id", lit "ID");
    (lit "irish", lit "IE"); (lit "ga", lit "IE"); (lit "italian", lit "IT");
    (lit "it", lit "IT"); (lit "japanese", lit "JP"); (lit "ja", lit "JP");
    (lit "javanese", lit "ID"); (lit "jv", lit "ID");
    (lit "kannada", lit "IN"); (lit "kn", lit "IN"); (lit "kazakh", lit "KZ");
    (lit "kk", lit "KZ"); (lit "khmer", lit "KH"); (lit "korean", lit "KR");
    (lit "ko", lit "KR"); (lit "kurdish", lit "TR"); (lit "ku", lit "TR");
    (lit "kyrgyz", lit "KG"); (lit "ky", lit "KG"); (lit "lao", lit "LA");
    (lit "lo", lit "LA"); (lit "latin", lit "VA"); (lit "la", lit "VA");
    (lit "latvian", lit "LV"); (lit "lv", lit "LV");
    (lit "lithuanian", lit "LT"); (lit "lt", lit "LT");
    (lit "luxembourgish", lit "LU"); (lit "lb", lit "LU");
    (lit "macedonian", lit "MK"); (lit "mk", lit "MK");
    (lit "malay", lit "MY"); (lit "ms", lit "MY"); (lit "malayalam", lit "IN");
    (lit "ml", lit "IN"); (lit "maltese", lit "MT"); (lit "mt", lit "MT");
    (lit "maori", lit "NZ"); (lit "mi", lit "NZ"); (lit "marathi", lit "IN");
    (lit "mr", lit "IN"); (lit "mongolian", lit "MN"); (lit "mn", lit "MN");
    (lit "nepali", lit "NP"); (lit "ne", lit "NP");
    (lit "norwegian", lit "NO"); (lit "no", lit "NO");
    (lit "pashto", lit "AF"); (lit "ps", lit "AF"); (lit "persian", lit "IR");
    (lit "fa", lit "IR"); (lit "polish", lit "PL"); (lit "pl", lit "PL");
    (lit "portuguese", lit "PT"); (lit "pt", lit "PT");
    (lit "portuguese (brazil)", lit "BR"); (lit "punjabi", lit "PK");
    (lit "pa", lit "PK"); (lit "romanian", lit "RO"); (lit "ro", lit "RO");
    (lit "russian", lit "RU"); (lit "ru", lit "RU"); (lit "serbian", lit "RS");
    (lit "sr", lit "RS"); (lit "sinhala", lit "LK"); (lit "si", lit "LK");
    (lit "slovak", lit "SK"); (lit "sk", lit "SK");
    (lit "slovenian", lit "SI"); (lit "sl", lit "SI");
    (lit "somali", lit "SO"); (lit "so", lit "SO"); (lit "spanish", lit "ES");
    (lit "es", lit "ES"); (lit "spanish (latin america)", lit "MX");
    (lit "sundanese", lit "ID"); (lit "su", lit "ID");
    (lit "swahili", lit "KE"); (lit "sw", lit "KE"); (lit "swedish", lit "SE");
    (lit "sv", lit "SE"); (lit "tagalog", lit "PH"); (lit "tl", lit "PH");
    (lit "tajik", lit "TJ"); (lit "tg", lit "TJ"); (lit "tamil", lit "IN");
    (lit "ta", lit "IN"); (lit "tatar", lit "RU"); (lit "tt", lit "RU");
    (lit "telugu", lit "IN"); (lit "te", lit "IN"); (lit "thai", lit "TH");
    (lit "th", lit "TH"); (lit "turkish", lit "TR"); (lit "tr", lit "TR");
    (lit "turkmen", lit "TM"); (lit "tk", lit "TM");
    (lit "ukrainian", lit "UA"); (lit "uk", lit "UA"); (lit "urdu", lit "PK");
    (lit "ur", lit "PK"); (lit "uyghur", lit "CN"); (lit "ug", lit "CN");
    (lit "uzbek", lit "UZ"); (lit "uz", lit "UZ");
    (lit "vietnamese", lit "VN"); (lit "vi", lit "VN");
    (lit "welsh", lit "GB-WLS"); (lit "cy", lit "GB-WLS");
    (lit "xhosa", lit "ZA"); (lit "xh", lit "ZA"); (lit "yiddish", lit "IL");
    (lit "yi", lit "IL"); (lit "yoruba", lit "NG"); (lit "yo", lit "NG");
    (lit "zulu", lit "ZA"); (lit "zu", lit "ZA") ].

(** [countryCodeToFlag(code)] *)
Definition countryCodeToFlag (code : str) : glyph :=
  map (fun char => (127397 + N_of_ascii char)%N) (toUpperCase code).

(** The first entry of the table, in its order, that the partial match
    of [getLanguageFlag] accepts. *)
Fixpoint partialMatch (normalized : str) (entries : list (str * str))
    : option str :=
  match entries with
  | [] => None
  | (key, country) :: rest =>
      if startsWith key normalized
         || startsWith (trim (hd [] (splitChar "(" normalized))) key
      then Some country
      else partialMatch normalized rest
  end.

(** [getLanguageFlag(language)]; [None] when it throws.  The table is an
    object literal: for a name it inherits, [languageToCountry[normalized]]
    is a function or an object, the test succeeds, and
    [countryCodeToFlag] calls a [toUpperCase] that is not there. *)
Definition getLanguageFlag (language : str) : option glyph :=
  if isEmpty language then Some whiteFlag
  else
    let normalized := trim (toLowerCase language) in
    match read normalized languageToCountry with
    | Own country => Some (countryCodeToFlag country)
    | Inherited => None
    | Absent =>
        match partialMatch normalized languageToCountry with
        | Some country => Some (countryCodeToFlag country)
        | None => Some globe
        end
    end.

(** The words of [/\s*(sdh|cc|forced|commentary|descriptive|hearing impaired)\s*/gi]. *)
Definition markers : list str :=
  [lit "sdh"; lit "cc"; lit "forced"; lit "commentary"; lit "descriptive";
   lit "hearing impaired"].

(** Length of the leading run of white space. *)
Fixpoint spaceRun (s : str) : nat :=
  match s with
  | c :: s' => if is_space c then S (spaceRun s') else 0
  | [] => 0
  end.

(** The first marker word at the head of [s], whatever its case. *)
Fixpoint markerAt (ws : list str) (s : str) : option nat :=
  match ws with
  | [] => None
  | w :: ws' =>
      if startsWith w (toLowerCase (firstn (length w) s))
      then Some (length w) else markerAt ws' s
  end.

(** Length of a match of the marker pattern anchored at the head of [s]. *)
Definition markerMatch (s : str) : option nat :=
  let before := spaceRun s in
  match markerAt markers (skipn before s) with
  | Some w => Some (before + w + spaceRun (skipn (before + w) s))
  | None => None
  end.

(** [.replace(/\s*(...)\s*/gi, '')]; [skip] counts the characters of a
    match still to drop. *)
Fixpoint stripMarkersFrom (skip : nat) (s : str) : str :=
  match s with
  | [] => []
  | c :: s' =>
      match skip with
      | S n => stripMarkersFrom n s'
      | 0 =>
          match markerMatch s with
          | Some len => stripMarkersFrom (len - 1) s'
          | None => c :: stripMarkersFrom 0 s'
          end
      end
  end.

Definition stripMarkers (s : str) : str := stripMarkersFrom 0 s.

Definition regionalMap : list (str * str) :=
  [ (lit "spanish (latin america)", lit "spanish (latin america)");
    (lit "portuguese (brazil)", lit "portuguese (brazil)") ].

(** The loop over [Object.entries(regionalMap)]. *)
Fixpoint regionalMatch (language : str) (entries : list (str * str))
    : option str :=
  match entries with
  | [] => None
  | (key, value) :: rest =>
      let pieces := splitChar "(" key in
      let first := hd [] pieces in
      let second :=
        match nth_error pieces 1 with
        | Some p =>
            let r := replaceFirst p (lit ")") [] in
            if isEmpty r then [] else r
        | None => []
        end in
      if includes (toLowerCase language) first
         && includes (toLowerCase language) second
      then Some value
      else regionalMatch language rest
  end.

(** [normalizeLanguage(language)] *)
Definition normalizeLanguage (language : str) : str :=
  if isEmpty language then []
  else
    let base :=
      trim (stripMarkers (hd [] (splitChar "(" (toLowerCase language)))) in
    if includes base (lit "chinese") then lit "chinese"
    else if includes base (lit "cantonese") then lit "cantonese"
    else
      match regionalMatch language regionalMap with
      | Some value => value
      | None => base
      end.

(** One turn of the loop of [getUniqueLanguageFlags] on [seen] and
    [result]; [None] once [getLanguageFlag] has thrown. *)
Definition visit (st : option (list str * list LanguageFlag)) (lang : str)
    : option (list str * list LanguageFlag) :=
  match st with
  | None => None
  | Some (seen, result) =>
      let normalized := normalizeLanguage lang in
      if negb (isEmpty normalized) && negb (existsb (str_eqb normalized) seen)
      then
        match getLanguageFlag normalized with
        | Some flag =>
            Some (seen ++ [normalized],
                  result ++ [{| language := normalized; flag := flag |}])
        | None => None
        end
      else Some (seen, result)
  end.

(** [getUniqueLanguageFlags(languages)]; [None] when it throws. *)
Definition getUniqueLanguageFlags (languages : list str)
    : option (list LanguageFlag) :=
  option_map snd (fold_left visit languages (Some ([], []))).

End Lang.

(* ------------------------------------------------------------------ *)
(** ** scripts/lib/torrent.ts: sizes *)

Module TorrentSize.

Import QArith_base Qround.
Local Close Scope Q_scope.

(** [formatSize] is applied to file sizes: integers below 2^53, on
    which dividing by 1024 is exact in floating point; [size] is
    therefore a rational number here. *)
Definition units : list str :=
  [lit "B"; lit "KiB"; lit "MiB"; lit "GiB"; lit "TiB"].

(** The loop [while (size >= 1024 && unitIndex < units.length - 1)]. *)
Fixpoint scale (fuel : nat) (size : Q) (unitIndex : nat)
    : option (Q * nat) :=
  if Qle_bool 1024%Q size && (unitIndex <? length units - 1) then
    match fuel with
    | 0 => None
    | S fuel' => scale fuel' (size / 1024)%Q (unitIndex + 1)
    end
  else Some (size, unitIndex).

(** The decimal digits of a non-negative integer. *)
Definition digits (n : Z) : str :=
  lit (NilZero.string_of_uint (N.to_uint (Z.to_N n))).

(** A number of hundredths written with two decimals. *)
Definition fixed2 (n : Z) : str :=
  digits (n / 100) ++ lit "."
  ++ digits ((n mod 100) / 10) ++ digits ((n mod 100) mod 10).

(** [x.toFixed(2)]: the nearest number of hundredths, the larger one
    in a tie, after the sign has been set apart. *)
Definition toFixed2 (x : Q) : str :=
  if Qle_bool 0%Q x then fixed2 (Qfloor (x * 100 + (1 # 2))%Q)
  else lit "-" ++ fixed2 (Qfloor (- x * 100 + (1 # 2))%Q).

(** [formatSize(bytes)]; [None] would mean that the loop ran out of
    fuel. *)
Definition formatSize (bytes : Z) : option str :=
  match scale (length units) (inject_Z bytes) 0 with
  | Some (size, unitIndex) =>
      Some (toFixed2 size ++ lit " " ++ nth unitIndex units [])
  | None => None
  end.

End TorrentSize.

(* ------------------------------------------------------------------ *)
(** ** scripts/lib/telegram.ts *)

Module Telegram.

Definition SUPPORTED_FORMATS : list str :=
  [lit "jpg"; lit "jpeg"; lit "png"; lit "gif"; lit "webp"].

(** [isSupportedFormat(filePath)]: [split('.')] is never empty, so
    [pop()] is its last element. *)
Definition isSupportedFormat (filePath : str) : bool :=
  let ext := toLowerCase (last (splitChar "." filePath) []) in
  existsb (str_eqb ext) SUPPORTED_FORMATS.

(** The class [[_*\[\]()~`>#+\-=|{}.!\\]]. *)
Definition markdownSpecial (c : ascii) : bool :=
  existsb (ascii_eqb c) (lit "_*[]()~`>#+-=|{}.!\").

(** [escapeMarkdown(text)]: each character of the class gets a
    backslash before it. *)
Definition escapeMarkdown (text : str) : str :=
  flat_map (fun c => if markdownSpecial c then ["\"%char; c] else [c]) text.

End Telegram.

(* ------------------------------------------------------------------ *)
(** ** scripts/lib/templates.ts *)

Module Templates.

Definition LF : ascii := ascii_of_nat 10.

(** [s.replace(/c/g, r)] for a pattern of one character. *)
Definition replaceChar (c : ascii) (r : str) (s : str) : str :=
  flat_map (fun x => if ascii_eqb x c then r else [x]) s.

(** [s.replace(/\${/g, r)] *)
Fixpoint replaceDollarBrace (r : str) (s : str) : str :=
  match s with
  | [] => []
  | c :: s' =>
      if ascii_eqb c "$" then
        match s' with
        | d :: s'' =>
            if ascii_eqb d "{" then r ++ replaceDollarBrace r s''
            else c :: replaceDollarBrace r s'
        | [] => [c]
        end
      else c :: replaceDollarBrace r s'
  end.

(** [escapeString(str)]; the argument is called [text] here, and [None]
    is [undefined] or [null]. *)
Definition escapeString (text : option str) : str :=
  match text with
  | Some (c :: s) =>
      replaceChar LF (lit "\n")
        (replaceChar "'" (lit "\'")
           (replaceChar "\" (lit "\\") (c :: s)))
  | _ => []
  end.

(** [escapeTemplateString(str)] *)
Definition escapeTemplateString (text : option str) : str :=
  match text with
  | Some (c :: s) =>
      replaceDollarBrace (lit "\${")
        (replaceChar "`" (lit "\`")
           (replaceChar "\" (lit "\\") (c :: s)))
  | _ => []
  end.

End Templates.

(* ------------------------------------------------------------------ *)
(** ** src/lib/content/schema.ts *)

Module Schema.

Inductive MediaType := Movie | Tv | Tva | Ova | Ona | Special.

Inductive SpecialType := SpecialTva | SpecialOva | SpecialOna | SpecialSpecial.

(** The fields of a release that the functions below read; the season
    is an integer. *)
Record Release := {
  slug : str;
  title : str;
  title_en : option str;
  title_zh : option str;
  media_type : MediaType;
  special_type : option SpecialType;
  season : option Z;
  badge_label : option str;
  is_complete : option bool
}.

(** The value of the enumeration as a string. *)
Definition specialName (t : SpecialType) : str :=
  match t with
  | SpecialTva => lit "tva"
  | SpecialOva => lit "ova"
  | SpecialOna => lit "ona"
  | SpecialSpecial => lit "special"
  end.

(** [n.toString()] for an integer. *)
Definition numberToString (n : Z) : str :=
  lit (NilZero.string_of_int (Z.to_int n)).

(** [s.padStart(2, '0')] *)
Definition padStart2 (s : str) : str :=
  repeat "0"%char (2 - length s) ++ s.

(** [`S${n.toString().padStart(2, '0')}`] *)
Definition seasonTag (n : Z) : str := lit "S" ++ padStart2 (numberToString n).

(** A number in a condition: zero is falsy, and so is a missing one. *)
Definition seasonSet (release : Release) : option Z :=
  match season release with
  | Some n => if (n =? 0)%Z then None else Some n
  | None => None
  end.

(** [getReleaseBadges(release)] *)
Definition getReleaseBadges (release : Release) : list str :=
  let baseBadge :=
    match special_type release with
    | Some SpecialTva =>
        match seasonSet release with
        | Some n => seasonTag n
        | None => lit "TVA"
        end
    | Some SpecialOva => lit "OVA"
    | Some SpecialOna => lit "ONA"
    | Some SpecialSpecial => lit "SP"
    | None =>
        match media_type release with
        | Movie => lit "Movie"
        | Tv =>
            match seasonSet release with
            | Some n => seasonTag n
            | None => lit "TV"
            end
        | _ => []
        end
    end in
  let baseBadge :=
    match seasonSet release with
    | Some n =>
        let seasonStr := seasonTag n in
        match special_type release with
        | Some SpecialTva | None => seasonStr
        | Some t =>
            let typeStr :=
              match t with
              | SpecialSpecial => lit "SP"
              | _ => toUpperCase (specialName t)
              end in
            typeStr ++ lit " " ++ seasonStr
        end
    | None => baseBadge
    end in
  let badges := [baseBadge] in
  let badges :=
    match badge_label release with
    | Some (c :: l) => [baseBadge ++ lit " " ++ (c :: l)]
    | _ => badges
    end in
  match is_complete release with
  | Some true => badges ++ [lit "Fin"]
  | _ => badges
  end.

End Schema.

(* ------------------------------------------------------------------ *)
(** ** src/lib/content/loader.ts *)

Module Loader.

Import Schema.

Section Releases.

(** What [getAllReleases()] returns: the releases bundled at build
    time, sorted by date. *)
Variable allReleases : list Release.

(** [t?.toLowerCase().includes(q) ?? false] *)
Definition optIncludes (t : option str) (q : str) : bool :=
  match t with
  | Some x => includes (toLowerCase x) q
  | None => false
  end.

(** The test of the filter in [searchReleases], for the query [q] in
    lower case. *)
Definition titleMatches (q : str) (r : Release) : bool :=
  includes (toLowerCase (title r)) q
  || optIncludes (title_en r) q
  || optIncludes (title_zh r) q.

(** [searchReleases(query)] *)
Definition searchReleases (query : str) : list Release :=
  let q := toLowerCase query in
  filter (titleMatches q) allReleases.

(** [getReleaseBySlug(slug)]; the argument is called [wanted] here. *)
Definition getReleaseBySlug (wanted : str) : option Release :=
  List.find (fun r => str_eqb (slug r) wanted) allReleases.

End Releases.

End Loader.

(* ================================================================== *)
(** * Part II: vocabulary of the statements *)
(* ================================================================== *)

(** ** Titles of inner blocks *)

Module BBCodeSpec.

Import BBCode Utf16.

(** A title: not empty, without brackets. *)
Definition titleOk (t : wstr) : bool :=
  match t with [] => false | _ :: _ => true end
  && forallb (fun c => negb (cu_eqb c (latin "["))
                       && negb (cu_eqb c (latin "]"))) t.

End BBCodeSpec.

(** ** Well-nested BBCode *)

Module BlocksSpec.

Import BBCode Utf16 BBCodeBlocks.

(** A text that lower-casing does not lengthen: it holds no U+0130. *)
Definition undotted (t : wstr) : bool :=
  forallb (fun c => negb (cu_eqb c dottedI)) t.

(** A text in which nothing can be taken for a quote or spoiler tag,
    and which lower-casing does not lengthen. *)
Definition tagFree (t : wstr) : bool :=
  undotted t
  && negb (includes (toLowerCase t) (wide (openTagStr Quote)))
  && negb (includes (toLowerCase t) (wide (closeTagStr Quote)))
  && negb (includes (toLowerCase t) (wide (openTagStr Spoiler)))
  && negb (includes (toLowerCase t) (wide (closeTagStr Spoiler))).

(** The title of a block: not empty, without brackets and without
    U+0130. *)
Definition titleOk (t : wstr) : bool := BBCodeSpec.titleOk t && undotted t.

(** A tag name as written, in any mix of cases. *)
Definition spelled (k : tagKind) (tag : wstr) : bool :=
  wstr_eqb (map foldUnit tag) (wide (tagName k)).

(** The text of the tags. *)
Definition openTag (otag ttl : wstr) : wstr :=
  lit "[" ++ otag ++ lit "=" ++ ttl ++ lit "]".
Definition closeTag (ctag : wstr) : wstr :=
  lit "[/" ++ ctag ++ lit "]".

(** A balanced text: plain text, or a text, a block with a balanced
    body, and a balanced remainder. *)
Inductive doc :=
| Text (t : wstr)
| Blk (pre : wstr) (k : tagKind) (otag ctag ttl : wstr) (body rest : doc).

Fixpoint render (d : doc) : wstr :=
  match d with
  | Text t => t
  | Blk pre k otag ctag ttl body rest =>
      pre ++ openTag otag ttl ++ render body ++ closeTag ctag ++ render rest
  end.

Fixpoint wf (d : doc) : bool :=
  match d with
  | Text t => tagFree t
  | Blk pre k otag ctag ttl body rest =>
      tagFree pre && spelled k otag && spelled k ctag && titleOk ttl
      && wf body && wf rest
  end.

(** The outermost blocks of a balanced text, from left to right. *)
Fixpoint outermost (d : doc) : list Block :=
  match d with
  | Text _ => []
  | Blk pre k otag ctag ttl body rest =>
      {| title := trim ttl; content := render body |} :: outermost rest
  end.

(** A text as the extractor may meet it at the top level: balanced
    blocks, and openers that are never closed. *)
Inductive top :=
| TEnd (t : wstr)
| TBlk (pre : wstr) (k : tagKind) (otag ctag ttl : wstr) (body : doc)
    (rest : top)
| TOpen (pre : wstr) (k : tagKind) (otag ttl : wstr) (rest : top).

Fixpoint renderTop (d : top) : wstr :=
  match d with
  | TEnd t => t
  | TBlk pre k otag ctag ttl body rest =>
      pre ++ openTag otag ttl ++ render body ++ closeTag ctag ++ renderTop rest
  | TOpen pre k otag ttl rest =>
      pre ++ openTag otag ttl ++ renderTop rest
  end.

Fixpoint wfTop (d : top) : bool :=
  match d with
  | TEnd t => tagFree t
  | TBlk pre k otag ctag ttl body rest =>
      tagFree pre && spelled k otag && spelled k ctag && titleOk ttl
      && wf body && wfTop rest
  | TOpen pre k otag ttl rest =>
      tagFree pre && spelled k otag && titleOk ttl && wfTop rest
  end.

Fixpoint outermostTop (d : top) : list Block :=
  match d with
  | TEnd _ => []
  | TBlk pre k otag ctag ttl body rest =>
      {| title := trim ttl; content := render body |} :: outermostTop rest
  | TOpen _ _ _ _ rest => outermostTop rest
  end.

Fixpoint topOfDoc (d : doc) : top :=
  match d with
  | Text t => TEnd t
  | Blk pre k otag ctag ttl body rest =>
      TBlk pre k otag ctag ttl body (topOfDoc rest)
  end.

(** What follows the tag name in the lower-case image of an opener. *)
Definition titleTail (ttl : wstr) : wstr :=
  lit "=" ++ toLowerCase ttl ++ lit "]".

(** The lower-case image of a balanced text, tags in canonical form. *)
Fixpoint lrender (d : doc) : wstr :=
  match d with
  | Text t => toLowerCase t
  | Blk pre k otag ctag ttl body rest =>
      toLowerCase pre ++ wide (openTagStr k) ++ titleTail ttl
      ++ lrender body ++ wide (closeTagStr k) ++ lrender rest
  end.

Fixpoint lrenderTop (d : top) : wstr :=
  match d with
  | TEnd t => toLowerCase t
  | TBlk pre k otag ctag ttl body rest =>
      toLowerCase pre ++ wide (openTagStr k) ++ titleTail ttl
      ++ lrender body ++ wide (closeTagStr k) ++ lrenderTop rest
  | TOpen pre k otag ttl rest =>
      toLowerCase pre ++ wide (openTagStr k) ++ titleTail ttl
      ++ lrenderTop rest
  end.

(** What the outer loop reads off the answer of [findClose]: the final
    position and the index of the closer, when one was found. *)
Definition outcome (r : nat * option nat) : option (nat * nat) :=
  match r with
  | (pos, Some e) => Some (pos, e)
  | (_, None) => None
  end.

(** [findClose], started at depth [d] after the prefix [p] of a text
    whose lower-case image is [p ++ s] and has the length of the text,
    ends with outcome [out]. *)
Definition scans (k : tagKind) (d : nat) (p s : wstr)
    (out : option (nat * nat)) : Prop :=
  forall remaining,
    toLowerCase remaining = p ++ s ->
    length remaining = length (p ++ s) ->
    exists fuel r,
      findClose fuel remaining k d (length p) None = Some r /\ outcome r = out.

(** The outer loop, given enough fuel, turns [s] into [out]. *)
Definition extracts (s : wstr) (out : list Block) : Prop :=
  exists fuel, extractLoop fuel s [] = Some out.

(** No occurrence of [needle] in [x ++ s] starts inside [x]. *)
Definition clean (needle x s : wstr) : Prop :=
  forall i, i < length x -> startsWith needle (skipn i (x ++ s)) = false.

(** [q] is empty or starts with an opening bracket. *)
Definition bracketed (q : wstr) : Prop :=
  q = [] \/ exists q', q = latin "[" :: q'.

(** A needle that opens with a bracket and has no other. *)
Definition tagLike (needle : wstr) : Prop :=
  exists n, needle = latin "[" :: n /\ ~ In (latin "[") n.



End BlocksSpec.

(** ** MediaInfo reports *)

Module MediaInfoSpec.

Import MediaInfo.

(** The fields of the lines of a block, in order. *)
Definition fieldsOf (lines : list str) : list (str * str) :=
  flat_map (fun line =>
              match lineField line with Some kv => [kv] | None => [] end)
           lines.

(** The values a key is given, in order of appearance. *)
Definition valuesOf (key : str) (fields : list (str * str)) : list str :=
  map snd (filter (fun kv => str_eqb key (fst kv)) fields).




(** Is [__proto__] among the keys of these fields? *)
Definition setsProto (fields : list (str * str)) : bool :=
  existsb (fun kv => str_eqb (fst kv) (lit "__proto__")) fields.

(** Filing a section under its base name, as [pushSection] does when it
    does not throw. *)
Definition fileSection (result : MediaInfoParsed) (section : MediaInfoSection)
    : MediaInfoParsed :=
  assign (base section) (sectionsOf result (base section) ++ [section])
    result.

(** A section that cannot be filed: the result inherits its base
    name. *)
Definition unfiled (section : MediaInfoSection) : bool :=
  inherited (base section).

(** The sections of a report, in document order. *)
Definition sections (blocks : list str) : list MediaInfoSection :=
  flat_map (fun block =>
              match parseBlock block with Some s => [s] | None => [] end)
           blocks.



(** A section that [toStructured] would count as an audio stream. *)
Definition audioRelated (s : MediaInfoSection) : bool :=
  str_eqb (lit "Audio") (base s) || startsWith (lit "Audio #") (base s).

(** The HDR marker as the specification words it: by the label ... *)
Definition hdrByLabel (label : str) : str :=
  let l := toLowerCase label in
  if includes l (lit "dolby vision") then lit "DV"
  else if includes l (lit "hdr10+") then lit "HDR10+"
  else if includes l (lit "hdr10") then lit "HDR10"
  else if includes l (lit "hlg") then lit "HLG"
  else lit "HDR".

(** ... and by the transfer characteristics. *)
Definition hdrByTransfer (transfer : option str) : str :=
  match transfer with
  | None => []
  | Some t =>
      let l := toLowerCase t in
      if includes l (lit "pq") || includes l (lit "smpte st 2084")
      then lit "HDR10"
      else if includes l (lit "hlg") then lit "HLG"
      else []
  end.

(** A video stream that reports these two fields and nothing else. *)
Definition videoWith (hdr transfer : option str) : VideoInfo :=
  {| v_format := None; v_format_profile := None; v_codec := None;
     v_width := None; v_height := None; v_bit_depth := None;
     v_hdr_format := hdr; v_transfer_characteristics := transfer;
     v_frame_rate := None; v_bit_rate := None |}.

End MediaInfoSpec.

(** ** Language lists *)

Module LangSpec.

Import Lang.

(** A list without its repetitions, first occurrences kept in place. *)
Fixpoint firstOccurrences (l : list str) : list str :=
  match l with
  | [] => []
  | x :: l' =>
      x :: filter (fun y => negb (str_eqb y x)) (firstOccurrences l')
  end.

(** The canonical languages of a list of labels, empty ones dropped. *)
Definition canonicals (languages : list str) : list str :=
  filter (fun x => negb (isEmpty x)) (map normalizeLanguage languages).

(** The entry of a canonical language, when its flag can be computed. *)
Definition flagOf (canonical : str) : option LanguageFlag :=
  option_map (fun f => {| language := canonical; flag := f |})
    (getLanguageFlag canonical).

(** The entries of a list of canonical languages, in order; nothing
    when one of the flags cannot be computed. *)
Definition flagsOf (canonicals : list str) : option (list LanguageFlag) :=
  mapThrowing flagOf canonicals.

End LangSpec.

(** ** Decoded torrents *)

Module TorrentSpec.

Import Torrent.

(** Texts of which [toStr] makes a string ... *)
Definition present (parts : list RawText) : bool :=
  forallb (fun p => match p with Other None => false | _ => true end) parts.

(** ... and the string it makes. *)
Definition textOf (utf8 bufferText : list Byte.byte -> str) (val : RawText)
    : str :=
  match toStr utf8 bufferText val with Some s => s | None => [] end.

(** The file a multi-file entry stands for, every component being there. *)
Definition fileOf (utf8 bufferText : list Byte.byte -> str)
    (file : BencodedFile) : TorrentFile :=
  {| path := join (lit "/") (map (textOf utf8 bufferText) (file_path file));
     size := file_length file |}.

(** An info dictionary that names the torrent and gives neither [files]
    nor [length] ... *)
Definition bareInfo : BencodedInfo :=
  {| info_name := JsString (lit "x");
     info_files := None; info_length := None |}.

Definition bareTorrent : BencodedTorrent := {| info := Some bareInfo |}.

(** ... and one that gives nothing at all (bencode [d4:infodee]). *)
Definition namelessInfo : BencodedInfo :=
  {| info_name := Undefined; info_files := None; info_length := None |}.

Definition namelessTorrent : BencodedTorrent :=
  {| info := Some namelessInfo |}.

(** A single-file torrent of an empty file. *)
Definition emptyFileInfo : BencodedInfo :=
  {| info_name := JsString (lit "empty.bin");
     info_files := None; info_length := Some 0%Z |}.

Definition emptyFileTorrent : BencodedTorrent :=
  {| info := Some emptyFileInfo |}.

(** The multi-file example of the specification. *)
Definition showTorrent : BencodedTorrent :=
  {| info :=
       Some
       {| info_name := JsString (lit "Show");
          info_files :=
            Some [ {| file_path := [JsString (lit "S01");
                                    JsString (lit "e1.mkv")];
                      file_length := 100%Z |};
                   {| file_path := [JsString (lit "S01");
                                    JsString (lit "e2.mkv")];
                      file_length := 200%Z |} ];
          info_length := None |} |}.

End TorrentSpec.

(** ** Reports as they are written *)

Module ReportSpec.

Import MediaInfo.

(** The same text with Windows line endings. *)
Definition crlf (s : str) : str :=
  flat_map (fun c => if ascii_eqb c LF then [CR; LF] else [c]) s.

(** The same text with every line feed spelled as a backslash and an
    [n], the way a report looks after being stored in a string literal. *)
Definition escapeNewlines (s : str) : str :=
  flat_map (fun c => if ascii_eqb c LF then lit "\n" else [c]) s.

(** A text without carriage return. *)
Definition noCR (s : str) : bool :=
  forallb (fun c => negb (ascii_eqb c CR)) s.




(** A block as reports write them: in it no line feed is followed by
    white space, and its last character is not white space (so it is
    not empty) ... *)
Fixpoint tightFrom (s : str) : bool :=
  match s with
  | [] => false
  | c :: s' =>
      match s' with
      | [] => negb (is_space c)
      | d :: _ =>
          (if ascii_eqb c LF then negb (is_space d) else true) && tightFrom s'
      end
  end.

(** ... no character is a carriage return, a backslash or the first
    byte of a no-break space in UTF-8 ... *)
Definition ordinary (c : ascii) : bool :=
  negb (ascii_eqb c CR) && negb (ascii_eqb c (ascii_of_nat 194))
  && negb (ascii_eqb c "\").

(** ... and the first character is not white space. *)
Definition wellFormedBlock (b : str) : bool :=
  match b with c :: _ => negb (is_space c) | [] => false end
  && tightFrom b && forallb ordinary b.

(** What separates two blocks: an empty line. *)
Definition blankLine : str := [LF; LF].

End ReportSpec.

(** ** Language labels *)

Module FlagSpec.

Import Lang.

(** What [getLanguageFlag] takes for the name of the language in a
    label: the text before the first parenthesis, in lower case and
    without surrounding white space. *)
Definition labelHead (label : str) : str :=
  trim (hd [] (splitChar "(" (trim (toLowerCase label)))).

(** Is a language already among the entries? *)
Definition listed (entries : list LanguageFlag) (f : LanguageFlag) : bool :=
  existsb (str_eqb (language f)) (map language entries).

End FlagSpec.

(** ** Inner markup *)

Module MarkupSpec.

Import BBCode Utf16 BBCodeBlocks BlocksSpec.

(** The block [b] is delimited in [s]: an opener matches at some index,
    a closer of the same kind, in any mix of cases, stands at or after
    the end of the opener, the title is the trimmed title of the opener
    and the content is the text between the two. *)
Definition delimits (s : wstr) (b : Block) : Prop :=
  exists i k g len e,
    matchOpenHere (skipn i s) = Some (k, g, len)
    /\ i + len <= e
    /\ startsWith (wide (closeTagStr k)) (skipn e (toLowerCase s)) = true
    /\ title b = trim g
    /\ content b = substring s (i + len) e.

(** A text without opening bracket. *)
Definition plain (s : wstr) : bool :=
  negb (existsb (cu_eqb (latin "[")) s).

(** A pattern that starts with a literal opening bracket. *)
Definition opensWithBracket (ps : list piece) : bool :=
  match ps with
  | Word (c :: _) :: _ => cu_eqb c (latin "[")
  | _ => false
  end.

(** A tag as written, in any mix of cases. *)
Definition written (tag text : wstr) : bool :=
  wstr_eqb (map foldUnit text) tag.

(** A balanced text whose top-level blocks have plain bodies. *)
Fixpoint plainBodies (d : doc) : bool :=
  match d with
  | Text _ => true
  | Blk _ _ _ _ _ body rest =>
      match body with
      | Text t => plain t
      | Blk _ _ _ _ _ _ _ => false
      end && plainBodies rest
  end.

End MarkupSpec.

(** ** Escaped text read back *)

Module EscapeSpec.

Import Telegram Templates.

(** How a reader of MarkdownV2 takes an escaped text: a backslash makes
    the next character stand for itself. *)
Fixpoint readMarkdown (s : str) : str :=
  match s with
  | [] => []
  | c :: s' =>
      if ascii_eqb c "\" then
        match s' with
        | d :: s'' => d :: readMarkdown s''
        | [] => [c]
        end
      else c :: readMarkdown s'
  end.

(** No character of the special class stands bare: each one follows a
    backslash that escapes it, and a backslash escapes nothing else. *)
Fixpoint wellEscaped (s : str) : bool :=
  match s with
  | [] => true
  | c :: s' =>
      if ascii_eqb c "\" then
        match s' with
        | d :: s'' => markdownSpecial d && wellEscaped s''
        | [] => false
        end
      else negb (markdownSpecial c) && wellEscaped s'
  end.

(** A name without dot. *)
Definition dotless (s : str) : bool :=
  forallb (fun c => negb (ascii_eqb c ".")) s.

(** The value of the body of a single-quoted JavaScript literal, for the
    escapes [\\], [\'] and [\n]; [None] where the body is not one (a bare
    quote or line terminator) or uses another escape. *)
Fixpoint readSingleQuoted (s : str) : option str :=
  match s with
  | [] => Some []
  | c :: s' =>
      if ascii_eqb c "\" then
        match s' with
        | d :: s'' =>
            if ascii_eqb d "n" then option_map (cons LF) (readSingleQuoted s'')
            else if ascii_eqb d "\" || ascii_eqb d "'"
            then option_map (cons d) (readSingleQuoted s'')
            else None
        | [] => None
        end
      else if ascii_eqb c "'" || ascii_eqb c LF
              || ascii_eqb c (ascii_of_nat 13)
      then None
      else option_map (cons c) (readSingleQuoted s')
  end.

(** The value of the body of a template literal without substitution,
    for the escapes of backslash, backquote and dollar; [None] where the
    body ends (a bare backquote), opens a substitution (a bare dollar
    before a brace), uses another escape or holds a carriage return
    (which the language would turn into a line feed). *)
Fixpoint readTemplate (s : str) : option str :=
  match s with
  | [] => Some []
  | c :: s' =>
      if ascii_eqb c "\" then
        match s' with
        | d :: s'' =>
            if ascii_eqb d "\" || ascii_eqb d "`" || ascii_eqb d "$"
            then option_map (cons d) (readTemplate s'')
            else None
        | [] => None
        end
      else if ascii_eqb c "`" || ascii_eqb c (ascii_of_nat 13) then None
      else if ascii_eqb c "$" && startsWith (lit "{") s' then None
      else option_map (cons c) (readTemplate s')
  end.

(** A text without carriage return. *)
Definition oneLineEnding (s : str) : bool :=
  forallb (fun c => negb (ascii_eqb c (ascii_of_nat 13))) s.

(** The three passes of [escapeTemplateString], in order. *)
Definition templatePasses (s : str) : str :=
  replaceDollarBrace (lit "\${")
    (replaceChar "`" (lit "\`") (replaceChar "\" (lit "\\") s)).

End EscapeSpec.

(** ** Badges *)

Module BadgeSpec.

Import Schema.

Definition withSeason (r : Release) (s : option Z) : Release :=
  {| slug := slug r; title := title r; title_en := title_en r;
     title_zh := title_zh r;
     media_type := media_type r; special_type := special_type r;
     season := s; badge_label := badge_label r;
     is_complete := is_complete r |}.

(** A release with these badge fields, and a title of no interest. *)
Definition badgeCase (m : MediaType) (t : option SpecialType)
    (s : option Z) (l : option str) (c : option bool) : Release :=
  {| slug := lit "x"; title := lit "x"; title_en := None; title_zh := None;
     media_type := m; special_type := t; season := s; badge_label := l;
     is_complete := c |}.

(** A release with these titles. *)
Definition titled (id t : str) (en zh : option str) : Release :=
  {| slug := id; title := t; title_en := en; title_zh := zh;
     media_type := Movie; special_type := None; season := None;
     badge_label := None; is_complete := None |}.


(** What a custom label adds to the first badge. *)
Definition labelSuffix (r : Release) : str :=
  match badge_label r with
  | Some (c :: l) => lit " " ++ c :: l
  | _ => []
  end.

(** The badge of a complete series. *)
Definition finBadge (r : Release) : list str :=
  match is_complete r with
  | Some true => [lit "Fin"]
  | _ => []
  end.

End BadgeSpec.

Unset Implicit Arguments.

(* ================================================================== *)
(** * Part III: properties *)
(* ================================================================== *)

(** ** Strings *)

Module StrFacts.

Lemma ascii_eqb_true (a b : ascii) : ascii_eqb a b = true <-> a = b.
Proof. apply Ascii.eqb_eq. Qed.

Lemma ascii_eqb_false (a b : ascii) : ascii_eqb a b = false <-> a <> b.
Proof. apply Ascii.eqb_neq. Qed.

Lemma ascii_eqb_refl (a : ascii) : ascii_eqb a a = true.
Proof. apply Ascii.eqb_refl. Qed.

Lemma str_eqb_true (a b : str) : str_eqb a b = true <-> a = b.
Proof.
  revert b; induction a as [|x a IH]; intros [|y b]; simpl;
    try (split; [discriminate | discriminate]); try tauto.
  rewrite andb_true_iff, ascii_eqb_true, IH.
  split; [intros [-> ->]; reflexivity | intros E; inversion E; auto].
Qed.

Lemma str_eqb_refl (a : str) : str_eqb a a = true.
Proof. apply str_eqb_true; reflexivity. Qed.

Lemma lower_char_bracket (c : ascii) :
  lower_char c = "["%char -> c = "["%char.
Proof.
  destruct c as [[] [] [] [] [] [] [] []]; vm_compute; intros E;
    solve [reflexivity | discriminate E].
Qed.

(** *** [startsWith] *)

Lemma str_startsWith_app (p s : str) : startsWith p (p ++ s) = true.
Proof.
  induction p as [|x p IH]; simpl; [reflexivity|].
  now rewrite ascii_eqb_refl.
Qed.

Lemma str_startsWith_iff (p s : str) :
  startsWith p s = true <-> exists r, s = p ++ r.
Proof.
  split.
  - revert s; induction p as [|x p IH]; intros s H.
    + exists s; reflexivity.
    + destruct s as [|y s]; [discriminate|]. simpl in H.
      apply andb_true_iff in H as [E H]. apply ascii_eqb_true in E; subst y.
      destruct (IH _ H) as [r ->]. exists r; reflexivity.
  - intros [r ->]; apply str_startsWith_app.
Qed.

(** *** [find] *)

Lemma str_find_here (p s : str) : startsWith p s = true -> find p s = Some 0.
Proof. intros H; destruct s; simpl; now rewrite H. Qed.

Lemma str_find_bound (p s : str) (i : nat) :
  find p s = Some i -> startsWith p (skipn i s) = true /\ i <= length s.
Proof.
  revert i; induction s as [|c s IH]; intros i H; simpl find in H.
  - destruct (startsWith p []) eqn:E; [|discriminate].
    inversion H; subst. split; [exact E | simpl; lia].
  - destruct (startsWith p (c :: s)) eqn:E.
    + inversion H; subst. split; [exact E | simpl; lia].
    + destruct (find p s) as [j|]; [|discriminate].
      inversion H; subst. destruct (IH j eq_refl). split; [assumption | simpl; lia].
Qed.

(** An occurrence anywhere makes [find] succeed. *)
Lemma str_find_occurs (p a b : str) : exists i, find p (a ++ p ++ b) = Some i.
Proof.
  induction a as [|c a [i IH]]; simpl app.
  - exists 0. apply str_find_here, str_startsWith_app.
  - simpl find. destruct (startsWith p (c :: a ++ p ++ b)); eauto.
    rewrite IH; simpl; eauto.
Qed.

End StrFacts.

(** ** Strings of 16-bit code units *)

Module WideFacts.

Import Utf16.

Lemma cu_eqb_true (a b : cu) : cu_eqb a b = true <-> a = b.
Proof.
  destruct a as [h l], b as [h' l']. cbn [cu_eqb].
  rewrite andb_true_iff, !StrFacts.ascii_eqb_true.
  split; [intros [-> ->]; reflexivity | intros E; inversion E; auto].
Qed.

Lemma cu_eqb_refl (a : cu) : cu_eqb a a = true.
Proof. now apply cu_eqb_true. Qed.

Lemma cu_eqb_false (a b : cu) : cu_eqb a b = false <-> a <> b.
Proof.
  split.
  - intros H E. subst b. rewrite cu_eqb_refl in H. discriminate H.
  - intros H. destruct (cu_eqb a b) eqn:E; [|reflexivity].
    apply cu_eqb_true in E. contradiction.
Qed.

Lemma wstr_eqb_true (a b : wstr) : wstr_eqb a b = true <-> a = b.
Proof.
  revert b; induction a as [|x a IH]; intros [|y b]; simpl;
    try (split; [discriminate | discriminate]); try tauto.
  rewrite andb_true_iff, cu_eqb_true, IH.
  split; [intros [-> ->]; reflexivity | intros E; inversion E; auto].
Qed.

Lemma wide_app (a b : Js.str) : wide (a ++ b) = wide a ++ wide b.
Proof. apply map_app. Qed.

Lemma wide_length (a : Js.str) : length (wide a) = length a.
Proof. apply length_map. Qed.

(** *** Lower case *)

Lemma toLowerCase_app (a b : wstr) :
  toLowerCase (a ++ b) = toLowerCase a ++ toLowerCase b.
Proof. apply flat_map_app. Qed.

Lemma toLowerCase_wide (a : Js.str) :
  toLowerCase (wide a) = wide (Js.toLowerCase a).
Proof.
  induction a as [|c a IH]; [reflexivity|].
  change (toLowerCase (wide (c :: a)))
    with (lowerUnit (latin c) ++ toLowerCase (wide a)).
  rewrite IH. reflexivity.
Qed.

(** The lower-case form of a unit other than U+0130 is one unit. *)
Lemma lowerUnit_single (u : cu) :
  cu_eqb u dottedI = false -> exists v, lowerUnit u = [v].
Proof.
  intros H. destruct u as [h l]. unfold lowerUnit.
  destruct (ascii_eqb h "000"); [eauto|]. rewrite H.
  destruct (cu_eqb (CU h l) kelvin); eauto.
Qed.

Lemma toLowerCase_length (a : wstr) :
  BlocksSpec.undotted a = true -> length (toLowerCase a) = length a.
Proof.
  induction a as [|u a IH]; intros H; [reflexivity|].
  cbn [BlocksSpec.undotted forallb] in H.
  apply andb_true_iff in H as [Hu H]. apply negb_true_iff in Hu.
  destruct (lowerUnit_single u Hu) as [v Ev].
  cbn [toLowerCase flat_map]. rewrite Ev. cbn [app length].
  f_equal. now apply IH.
Qed.

Lemma undotted_app (a b : wstr) :
  BlocksSpec.undotted (a ++ b)
  = BlocksSpec.undotted a && BlocksSpec.undotted b.
Proof. apply forallb_app. Qed.

Lemma undotted_wide (a : Js.str) : BlocksSpec.undotted (wide a) = true.
Proof. induction a as [|c a IH]; [reflexivity | exact IH]. Qed.

Lemma undotted_cons (u : cu) (a : wstr) :
  BlocksSpec.undotted (u :: a) = true ->
  (exists v, lowerUnit u = [v]) /\ BlocksSpec.undotted a = true.
Proof.
  intros H. cbn [BlocksSpec.undotted forallb] in H.
  apply andb_true_iff in H as [Hu H]. apply negb_true_iff in Hu.
  split; [now apply lowerUnit_single | exact H].
Qed.

Lemma undotted_skipn (n : nat) (a : wstr) :
  BlocksSpec.undotted a = true -> BlocksSpec.undotted (skipn n a) = true.
Proof.
  intros H. rewrite <- (firstn_skipn n a), undotted_app in H.
  now apply andb_true_iff in H.
Qed.

Lemma undotted_firstn (n : nat) (a : wstr) :
  BlocksSpec.undotted a = true -> BlocksSpec.undotted (firstn n a) = true.
Proof.
  intros H. rewrite <- (firstn_skipn n a), undotted_app in H.
  now apply andb_true_iff in H.
Qed.

(** In a text without U+0130 the places of the lower-case form are the
    places of the text. *)
Lemma toLowerCase_skipn (n : nat) (a : wstr) :
  BlocksSpec.undotted a = true ->
  toLowerCase (skipn n a) = skipn n (toLowerCase a).
Proof.
  revert a. induction n as [|n IH]; intros a H; [reflexivity|].
  destruct a as [|u a]; [reflexivity|].
  apply undotted_cons in H as [[v Ev] H].
  cbn [skipn toLowerCase flat_map]. rewrite Ev. cbn [app skipn].
  now apply IH.
Qed.

Lemma toLowerCase_firstn (n : nat) (a : wstr) :
  BlocksSpec.undotted a = true ->
  toLowerCase (firstn n a) = firstn n (toLowerCase a).
Proof.
  revert a. induction n as [|n IH]; intros a H; [reflexivity|].
  destruct a as [|u a]; [reflexivity|].
  apply undotted_cons in H as [[v Ev] H].
  cbn [firstn toLowerCase flat_map]. rewrite Ev. cbn [app firstn].
  f_equal. now apply IH.
Qed.



(** Only an opening bracket gives an opening bracket. *)
Lemma lowerUnit_bracket (u : cu) :
  In (latin "[") (lowerUnit u) -> u = latin "[".
Proof.
  destruct u as [h l]. unfold lowerUnit.
  destruct (ascii_eqb h "000") eqn:Eh.
  - apply StrFacts.ascii_eqb_true in Eh; subst h.
    intros [E | []]. unfold latin in E. inversion E as [El].
    apply StrFacts.lower_char_bracket in El. now subst l.
  - destruct (cu_eqb (CU h l) dottedI).
    + intros [E | [E | []]]; discriminate E.
    + destruct (cu_eqb (CU h l) kelvin).
      * intros [E | []]; discriminate E.
      * intros [E | []]. unfold latin in E. inversion E; subst.
        discriminate Eh.
Qed.

Lemma toLowerCase_bracket (t : wstr) :
  In (latin "[") (toLowerCase t) -> In (latin "[") t.
Proof.
  unfold toLowerCase. rewrite in_flat_map. intros (u & Hu & H).
  apply lowerUnit_bracket in H. now subst u.
Qed.

(** A unit that folds to an ASCII character is that character in one of
    its cases, and has it for lower-case form. *)
Lemma foldUnit_ascii (u : cu) (c : ascii) :
  foldUnit u = latin c -> (N_of_ascii c <? 128)%N = true ->
  lowerUnit u = [latin c].
Proof.
  destruct u as [h l]. unfold foldUnit, lowerUnit.
  destruct (ascii_eqb h "000") eqn:Eh; cbn [andb].
  - destruct (N_of_ascii l <? 128)%N eqn:El.
    + intros E _. now rewrite E.
    + intros E Hc. unfold latin in E. inversion E; subst.
      rewrite Hc in El. discriminate El.
  - intros E _. unfold latin in E. inversion E; subst. discriminate Eh.
Qed.

(** A text that matches an ASCII word whatever the case has that word
    for lower-case form. *)
Lemma fold_lower (a : wstr) (w : Js.str) :
  map foldUnit a = wide w ->
  forallb (fun c => (N_of_ascii c <? 128)%N) w = true ->
  toLowerCase a = wide w.
Proof.
  revert w. induction a as [|u a IH]; intros [|c w] E Hw;
    try discriminate E; [reflexivity|].
  cbn [map wide] in E. injection E as Eu Ea.
  cbn [forallb] in Hw. apply andb_true_iff in Hw as [Hc Hw].
  cbn [toLowerCase flat_map]. rewrite (foldUnit_ascii u c Eu Hc).
  cbn [app wide map]. f_equal. now apply IH.
Qed.

Lemma fold_undotted (a : wstr) (w : Js.str) :
  map foldUnit a = wide w -> BlocksSpec.undotted a = true.
Proof.
  revert w. induction a as [|u a IH]; intros [|c w] E;
    try discriminate E; [reflexivity|].
  cbn [map wide] in E. injection E as Eu Ea.
  cbn [BlocksSpec.undotted forallb]. apply andb_true_iff. split.
  - apply negb_true_iff, cu_eqb_false. intros ->. discriminate Eu.
  - exact (IH w Ea).
Qed.

Lemma foldUnit_bracket (u : cu) :
  foldUnit u = latin "[" -> u = latin "[".
Proof.
  destruct u as [h l]. unfold foldUnit.
  destruct (ascii_eqb h "000" && (N_of_ascii l <? 128)%N) eqn:E; [|auto].
  apply andb_true_iff in E as [Eh _].
  apply StrFacts.ascii_eqb_true in Eh; subst h.
  intros H. unfold latin in H. inversion H as [Hl].
  apply StrFacts.lower_char_bracket in Hl. now subst l.
Qed.

(** *** [startsWith] *)

Lemma startsWith_app (p s : wstr) : startsWith p (p ++ s) = true.
Proof.
  induction p as [|x p IH]; simpl; [reflexivity|].
  now rewrite cu_eqb_refl.
Qed.

Lemma startsWith_iff (p s : wstr) :
  startsWith p s = true <-> exists r, s = p ++ r.
Proof.
  split.
  - revert s; induction p as [|x p IH]; intros s H.
    + exists s; reflexivity.
    + destruct s as [|y s]; [discriminate|]. simpl in H.
      apply andb_true_iff in H as [E H]. apply cu_eqb_true in E; subst y.
      destruct (IH _ H) as [r ->]. exists r; reflexivity.
  - intros [r ->]; apply startsWith_app.
Qed.

Lemma startsWith_nil_r (p : wstr) : startsWith p [] = true -> p = [].
Proof. destruct p; [reflexivity | discriminate]. Qed.

Lemma startsWith_prefix (a b s : wstr) :
  startsWith (a ++ b) s = true -> startsWith a s = true.
Proof.
  rewrite !startsWith_iff. intros [r ->]. exists (b ++ r).
  now rewrite app_assoc.
Qed.

Lemma startsWith_firstn (p s : wstr) (n : nat) :
  startsWith p (firstn n s) = true -> startsWith p s = true.
Proof.
  rewrite !startsWith_iff. intros [r E]. exists (r ++ skipn n s).
  rewrite app_assoc, <- E. symmetry; apply firstn_skipn.
Qed.

(** An occurrence that starts in [u] within [u ++ s] lies in [u], or
    runs over the end of [u] into [s]. *)
Lemma startsWith_app_cases (p u s : wstr) :
  startsWith p (u ++ s) = true ->
  startsWith p u = true
  \/ exists c w, p = u ++ c :: w /\ startsWith (c :: w) s = true.
Proof.
  revert p; induction u as [|y u IH]; intros p H.
  - destruct p as [|c w]; [left; reflexivity|].
    right; exists c, w; split; [reflexivity | exact H].
  - destruct p as [|x p]; [left; reflexivity|]. simpl in H.
    apply andb_true_iff in H as [E H]. apply cu_eqb_true in E; subst y.
    destruct (IH _ H) as [H1 | (c & w & -> & H2)].
    + left; simpl. now rewrite cu_eqb_refl.
    + right; exists c, w; split; [reflexivity | exact H2].
Qed.

(** *** [find] *)

Lemma find_here (p s : wstr) : startsWith p s = true -> find p s = Some 0.
Proof. intros H; destruct s; simpl; now rewrite H. Qed.

Lemma find_cons (p : wstr) (c : cu) (s : wstr) :
  startsWith p (c :: s) = false ->
  find p (c :: s) = option_map S (find p s).
Proof. intros H; simpl find. now rewrite H. Qed.

Lemma find_none_skipn (p s : wstr) :
  find p s = None -> forall i, startsWith p (skipn i s) = false.
Proof.
  induction s as [|c s IH]; intros H i.
  - rewrite skipn_nil. simpl in H.
    destruct (startsWith p []); [discriminate | reflexivity].
  - simpl find in H.
    destruct (startsWith p (c :: s)) eqn:E; [discriminate|].
    destruct i as [|i]; [exact E|]. simpl. apply IH.
    destruct (find p s); [discriminate | reflexivity].
Qed.

Lemma find_nil (c : cu) (p : wstr) : find (c :: p) [] = None.
Proof. reflexivity. Qed.

Lemma find_bound (p s : wstr) (i : nat) :
  find p s = Some i -> startsWith p (skipn i s) = true /\ i <= length s.
Proof.
  revert i; induction s as [|c s IH]; intros i H; simpl find in H.
  - destruct (startsWith p []) eqn:E; [|discriminate].
    inversion H; subst. split; [exact E | simpl; lia].
  - destruct (startsWith p (c :: s)) eqn:E.
    + inversion H; subst. split; [exact E | simpl; lia].
    + destruct (find p s) as [j|]; [|discriminate].
      inversion H; subst. destruct (IH j eq_refl). split; [assumption | simpl; lia].
Qed.

(** An occurrence anywhere makes [find] succeed. *)
Lemma find_occurs (p a b : wstr) : exists i, find p (a ++ p ++ b) = Some i.
Proof.
  induction a as [|c a [i IH]]; simpl app.
  - exists 0. apply find_here, startsWith_app.
  - simpl find. destruct (startsWith p (c :: a ++ p ++ b)); eauto.
    rewrite IH; simpl; eauto.
Qed.


Lemma firstn_app_exact (A : Type) (a b : list A) :
  firstn (length a) (a ++ b) = a.
Proof.
  rewrite firstn_app, firstn_all, Nat.sub_diag. simpl. apply app_nil_r.
Qed.

Lemma skipn_app_exact (A : Type) (a b : list A) :
  skipn (length a) (a ++ b) = b.
Proof. rewrite skipn_app, skipn_all, Nat.sub_diag. reflexivity. Qed.

Lemma startsWith_refl (p : wstr) : startsWith p p = true.
Proof. rewrite <- (app_nil_r p) at 2. apply startsWith_app. Qed.

End WideFacts.

(** ** The extractor of bbcode.ts *)

Module BlocksFacts.

Import BBCode Utf16 BBCodeBlocks BlocksSpec WideFacts.

(** *** Occurrences of a tag in a concatenation *)

Lemma tagLike_open (k : tagKind) : tagLike (wide (openTagStr k)).
Proof.
  destruct k; eexists; (split; [reflexivity|]); simpl;
    intuition discriminate.
Qed.

Lemma tagLike_close (k : tagKind) : tagLike (wide (closeTagStr k)).
Proof.
  destruct k; eexists; (split; [reflexivity|]); simpl;
    intuition discriminate.
Qed.

Lemma find_clean (needle x s : wstr) :
  clean needle x s ->
  find needle (x ++ s) = option_map (Nat.add (length x)) (find needle s).
Proof.
  induction x as [|c x IH]; intros H.
  - simpl. destruct (find needle s); reflexivity.
  - simpl app. rewrite find_cons by (apply (H 0); simpl; lia).
    rewrite IH.
    + destruct (find needle s); reflexivity.
    + intros i Hi. apply (H (S i)). simpl; lia.
Qed.

Lemma clean_plain (needle x s : wstr) :
  tagLike needle -> ~ In (latin "["%char) x -> clean needle x s.
Proof.
  intros (n & -> & _) Hx i Hi.
  rewrite skipn_app. replace (i - length x) with 0 by lia. simpl skipn at 2.
  destruct (skipn i x) as [|c u] eqn:E.
  - apply (f_equal (@length _)) in E. rewrite length_skipn in E.
    simpl in E; lia.
  - cbn [startsWith app]. destruct (cu_eqb (latin "["%char) c) eqn:Ec; [|reflexivity].
    apply cu_eqb_true in Ec; subst c. exfalso; apply Hx.
    rewrite <- (firstn_skipn i x), E. apply in_or_app; right; left; reflexivity.
Qed.

Lemma clean_cons (needle : wstr) (c : cu) (y s : wstr) :
  startsWith needle (c :: y ++ s) = false ->
  clean needle y s -> clean needle (c :: y) s.
Proof.
  intros H0 Hy [|i] Hi; [exact H0|].
  simpl. apply Hy. simpl in Hi; lia.
Qed.

Lemma clean_text (needle x s : wstr) :
  tagLike needle -> find needle x = None -> bracketed s ->
  clean needle x s.
Proof.
  intros (n & -> & Hn) Hx Hs i Hi.
  rewrite skipn_app. replace (i - length x) with 0 by lia. simpl skipn at 2.
  destruct (startsWith (latin "["%char :: n) (skipn i x ++ s)) eqn:E; [|reflexivity].
  exfalso. apply startsWith_app_cases in E as [E | (c & w & E1 & E2)].
  - rewrite (find_none_skipn _ _ Hx i) in E; discriminate.
  - destruct Hs as [-> | [q' ->]]; [discriminate|].
    cbn [startsWith app] in E2. apply andb_true_iff in E2 as [E2 _].
    apply cu_eqb_true in E2; subst c.
    destruct (skipn i x) as [|y u] eqn:Eu.
    + apply (f_equal (@length _)) in Eu. rewrite length_skipn in Eu.
      simpl in Eu; lia.
    + inversion E1; subst. apply Hn. apply in_or_app; right; left; reflexivity.
Qed.

Lemma clean_app (needle x y s : wstr) :
  clean needle x (y ++ s) -> clean needle y s -> clean needle (x ++ y) s.
Proof.
  intros Hx Hy i Hi. rewrite length_app in Hi.
  destruct (Nat.lt_ge_cases i (length x)) as [L | G].
  - rewrite <- app_assoc. apply Hx, L.
  - rewrite <- app_assoc, skipn_app, skipn_all2 by lia. simpl.
    apply Hy. lia.
Qed.

(** *** [indexOf] after a prefix *)

Lemma indexOf_at (p s needle : wstr) :
  indexOf (p ++ s) needle (length p)
  = option_map (Nat.add (length p)) (find needle s).
Proof.
  unfold indexOf. now rewrite skipn_app, skipn_all, Nat.sub_diag.
Qed.

Lemma indexOf_ge (L needle : wstr) (pos i : nat) :
  indexOf L needle pos = Some i -> pos <= i.
Proof.
  unfold indexOf. destruct (find needle (skipn pos L)); simpl; intros E;
    inversion E; lia.
Qed.

Lemma indexOf_some_lt (L : wstr) (c : cu) (n : wstr) (pos i : nat) :
  indexOf L (c :: n) pos = Some i -> pos < length L.
Proof.
  unfold indexOf. intros E.
  destruct (Nat.lt_ge_cases pos (length L)) as [H | H]; [exact H|].
  rewrite skipn_all2 in E by exact H. discriminate E.
Qed.

Lemma indexOf_skip (needle p x s : wstr) :
  clean needle x s ->
  indexOf (p ++ x ++ s) needle (length p)
  = indexOf ((p ++ x) ++ s) needle (length (p ++ x)).
Proof.
  intros H. rewrite !indexOf_at, (find_clean _ _ _ H).
  destruct (find needle s); simpl; [|reflexivity].
  rewrite length_app. f_equal; lia.
Qed.

(** *** The inner loop *)

Lemma findClose_unfold (fuel : nat) (R : wstr) (k : tagKind)
    (d pos : nat) (e : option nat) :
  findClose (S fuel) R k d pos e =
  if (pos <? length R) && (0 <? d) then
    match indexOf (toLowerCase R) (wide (closeTagStr k)) pos with
    | None => Some (pos, e)
    | Some c =>
        match indexOf (toLowerCase R) (wide (openTagStr k)) pos with
        | Some o =>
            if o <? c
            then findClose fuel R k (d + 1) (o + length (wide (openTagStr k))) e
            else findClose fuel R k (d - 1) (c + length (wide (closeTagStr k)))
                   (if d - 1 =? 0 then Some c else e)
        | None =>
            findClose fuel R k (d - 1) (c + length (wide (closeTagStr k)))
              (if d - 1 =? 0 then Some c else e)
        end
    end
  else Some (pos, e).
Proof. reflexivity. Qed.

Lemma findClose_zero (R : wstr) (k : tagKind) (d pos : nat) (e : option nat) :
  findClose 0 R k d pos e =
  if (pos <? length R) && (0 <? d) then None else Some (pos, e).
Proof. reflexivity. Qed.

Lemma findClose_mono (f : nat) : forall R k d pos e r,
  findClose f R k d pos e = Some r ->
  findClose (S f) R k d pos e = Some r.
Proof.
  induction f as [|f IH]; intros R k d pos e r H.
  - rewrite findClose_zero in H. rewrite findClose_unfold.
    destruct ((pos <? length R) && (0 <? d)); [discriminate | exact H].
  - rewrite findClose_unfold in H. rewrite findClose_unfold.
    destruct ((pos <? length R) && (0 <? d)); [|exact H].
    destruct (indexOf (toLowerCase R) (wide (closeTagStr k)) pos) as [c|]; [|exact H].
    destruct (indexOf (toLowerCase R) (wide (openTagStr k)) pos) as [o|].
    + destruct (o <? c); apply IH, H.
    + apply IH, H.
Qed.

Lemma findClose_mono_le (f f' : nat) R k d pos e r :
  f <= f' ->
  findClose f R k d pos e = Some r -> findClose f' R k d pos e = Some r.
Proof.
  induction 1 as [|f' _ IH]; intros H; [exact H|].
  apply findClose_mono, IH, H.
Qed.

Lemma closeTag_length_pos (k : tagKind) : 0 < length (wide (closeTagStr k)).
Proof. destruct k; simpl; lia. Qed.

Lemma openTag_length_pos (k : tagKind) : 0 < length (wide (openTagStr k)).
Proof. destruct k; simpl; lia. Qed.

(** The loop ends: the position grows at every turn. *)
Lemma findClose_total (f : nat) : forall R k d pos e,
  length R - pos <= f -> exists r, findClose f R k d pos e = Some r.
Proof.
  induction f as [|f IH]; intros R k d pos e Hf.
  - rewrite findClose_zero.
    destruct (pos <? length R) eqn:E; [|simpl; eauto].
    apply Nat.ltb_lt in E; lia.
  - rewrite findClose_unfold.
    destruct ((pos <? length R) && (0 <? d)) eqn:G; [|eauto].
    apply andb_true_iff in G as [G _]. apply Nat.ltb_lt in G.
    destruct (indexOf (toLowerCase R) (wide (closeTagStr k)) pos) as [c|] eqn:Ec;
      [|eauto].
    apply indexOf_ge in Ec.
    pose proof (closeTag_length_pos k). pose proof (openTag_length_pos k).
    destruct (indexOf (toLowerCase R) (wide (openTagStr k)) pos) as [o|] eqn:Eo.
    + apply indexOf_ge in Eo. destruct (o <? c); apply IH; lia.
    + apply IH; lia.
Qed.

Lemma findClose_pos (f : nat) : forall R k d pos e pos' e',
  findClose f R k d pos e = Some (pos', e') -> pos <= pos'.
Proof.
  induction f as [|f IH]; intros R k d pos e pos' e' H.
  - rewrite findClose_zero in H.
    destruct ((pos <? length R) && (0 <? d)); inversion H; lia.
  - rewrite findClose_unfold in H.
    destruct ((pos <? length R) && (0 <? d)); [|inversion H; lia].
    destruct (indexOf (toLowerCase R) (wide (closeTagStr k)) pos) as [c|] eqn:Ec;
      [|inversion H; lia].
    apply indexOf_ge in Ec.
    destruct (indexOf (toLowerCase R) (wide (openTagStr k)) pos) as [o|] eqn:Eo.
    + apply indexOf_ge in Eo.
      destruct (o <? c); apply IH in H; lia.
    + apply IH in H; lia.
Qed.

(** Without a closer ahead the loop finds none. *)
Lemma findClose_no_close (f : nat) R k d pos r :
  indexOf (toLowerCase R) (wide (closeTagStr k)) pos = None ->
  findClose f R k d pos None = Some r -> outcome r = None.
Proof.
  intros Hc H. destruct f.
  - rewrite findClose_zero in H.
    destruct ((pos <? length R) && (0 <? d)); inversion H; reflexivity.
  - rewrite findClose_unfold, Hc in H.
    destruct ((pos <? length R) && (0 <? d)); inversion H; reflexivity.
Qed.



(** *** Steps of the inner loop, read on the text *)

Section Steps.

Variable k : tagKind.

Lemma scans_end (d : nat) (p s : wstr) :
  find (wide (closeTagStr k)) s = None -> scans k d p s None.
Proof.
  intros Hc R HR HL. exists 1.
  rewrite findClose_unfold, HR, indexOf_at, Hc. cbn [option_map].
  destruct ((length p <? length R) && (0 <? d)); eexists; split;
    reflexivity.
Qed.

Lemma scans_skip (d : nat) (p x s : wstr) (out : option (nat * nat)) :
  clean (wide (openTagStr k)) x s -> clean (wide (closeTagStr k)) x s -> 1 <= d ->
  scans k d (p ++ x) s out -> scans k d p (x ++ s) out.
Proof.
  intros Ho Hc Hd H R HR HL.
  assert (HR' : toLowerCase R = (p ++ x) ++ s) by now rewrite <- app_assoc.
  assert (HL' : length R = length ((p ++ x) ++ s))
    by now rewrite <- app_assoc.
  assert (EL : length (toLowerCase R) = length R) by now rewrite HR, HL.
  destruct (H R HR' HL') as (f & r & Hf & Hout).
  destruct (indexOf (toLowerCase R) (wide (closeTagStr k)) (length (p ++ x)))
    as [c|] eqn:Ec.
  - (* a closer lies ahead: both runs take the same turn *)
    assert (G : (length (p ++ x) <? length R) && (0 <? d) = true).
    { destruct (tagLike_close k) as (n & En & _). rewrite En in Ec.
      apply indexOf_some_lt in Ec. rewrite EL in Ec.
      apply andb_true_iff; split; [apply Nat.ltb_lt | apply Nat.ltb_lt]; lia. }
    assert (G' : (length p <? length R) && (0 <? d) = true).
    { apply andb_true_iff in G as [G1 G2]. apply Nat.ltb_lt in G1.
      rewrite length_app in G1.
      apply andb_true_iff; split; [apply Nat.ltb_lt; lia | exact G2]. }
    destruct f as [|f].
    { rewrite findClose_zero, G in Hf. discriminate. }
    exists (S f), r. split; [|exact Hout].
    rewrite findClose_unfold, G in Hf.
    rewrite findClose_unfold, G'.
    rewrite HR. rewrite !indexOf_skip by assumption.
    rewrite <- HR', Ec. rewrite Ec in Hf. exact Hf.
  - (* no closer ahead *)
    apply (findClose_no_close _ _ _ _ _ _ Ec) in Hf.
    rewrite Hf in Hout; subst out.
    refine (scans_end d p (x ++ s) _ R HR HL).
    rewrite HR', indexOf_at in Ec. rewrite (find_clean _ _ _ Hc).
    destruct (find (wide (closeTagStr k)) s); [discriminate | reflexivity].
Qed.

Lemma clean_close_open (s : wstr) : clean (wide (closeTagStr k)) (wide (openTagStr k)) s.
Proof.
  destruct k; intros i Hi; simpl in Hi;
    do 8 (destruct i as [|i]; [solve [reflexivity | lia]|]); lia.
Qed.

Lemma scans_open (d : nat) (p s : wstr) (out : option (nat * nat)) (c0 : nat) :
  1 <= d -> find (wide (closeTagStr k)) s = Some c0 ->
  scans k (S d) (p ++ wide (openTagStr k)) s out ->
  scans k d p (wide (openTagStr k) ++ s) out.
Proof.
  intros Hd Hc H R HR HL.
  assert (HR' : toLowerCase R = (p ++ wide (openTagStr k)) ++ s)
    by now rewrite <- app_assoc.
  assert (HL' : length R = length ((p ++ wide (openTagStr k)) ++ s))
    by now rewrite <- app_assoc.
  assert (EL : length (toLowerCase R) = length R) by now rewrite HR, HL.
  destruct (H R HR' HL') as (f & r & Hf & Hout).
  exists (S f), r. split; [|exact Hout].
  pose proof (openTag_length_pos k) as Ho.
  assert (G : (length p <? length R) && (0 <? d) = true).
  { rewrite <- EL, HR, !length_app.
    apply andb_true_iff; split; apply Nat.ltb_lt; lia. }
  rewrite findClose_unfold, G, HR, !indexOf_at.
  rewrite (find_clean _ _ _ (clean_close_open s)), Hc.
  rewrite (find_here _ _ (startsWith_app _ _)). cbn [option_map].
  rewrite length_app in Hf.
  replace (d + 1) with (S d) by lia.
  replace (length p + 0 + length (wide (openTagStr k)))
    with (length p + length (wide (openTagStr k))) by lia.
  match goal with
  | |- (if ?c then _ else _) = _ =>
      replace c with true by (symmetry; apply Nat.ltb_lt; lia)
  end.
  exact Hf.
Qed.

(** What a closer does to the loop, whatever lies before an opener. *)
Lemma close_turn (f : nat) (R p s : wstr) (d : nat) :
  toLowerCase R = p ++ wide (closeTagStr k) ++ s ->
  length R = length (p ++ wide (closeTagStr k) ++ s) ->
  findClose (S f) R k (S d) (length p) None
  = findClose f R k d (length p + length (wide (closeTagStr k)))
      (if d =? 0 then Some (length p) else None).
Proof.
  intros HR HL.
  pose proof (closeTag_length_pos k) as Hc.
  assert (G : (length p <? length R) && (0 <? S d) = true).
  { rewrite HL, !length_app.
    apply andb_true_iff; split; [apply Nat.ltb_lt; lia | reflexivity]. }
  rewrite findClose_unfold, G, HR.
  rewrite (indexOf_at p (wide (closeTagStr k) ++ s) (wide (closeTagStr k))).
  rewrite (find_here _ _ (startsWith_app _ _)). cbn [option_map].
  replace (S d - 1) with d by lia. rewrite Nat.add_0_r.
  destruct (indexOf (p ++ wide (closeTagStr k) ++ s) (wide (openTagStr k)) (length p))
    as [o|] eqn:Eo; [|reflexivity].
  apply indexOf_ge in Eo.
  replace (o <? length p) with false
    by (symmetry; apply Nat.ltb_ge; lia).
  reflexivity.
Qed.

Lemma scans_close_more (d : nat) (p s : wstr) (out : option (nat * nat)) :
  scans k (S d) (p ++ wide (closeTagStr k)) s out ->
  scans k (S (S d)) p (wide (closeTagStr k) ++ s) out.
Proof.
  intros H R HR HL.
  assert (HR' : toLowerCase R = (p ++ wide (closeTagStr k)) ++ s)
    by now rewrite <- app_assoc.
  assert (HL' : length R = length ((p ++ wide (closeTagStr k)) ++ s))
    by now rewrite <- app_assoc.
  destruct (H R HR' HL') as (f & r & Hf & Hout).
  exists (S f), r. split; [|exact Hout].
  rewrite (@close_turn f R p s (S d) HR HL). rewrite length_app in Hf.
  exact Hf.
Qed.

Lemma scans_close_final (p s : wstr) :
  scans k 1 p (wide (closeTagStr k) ++ s)
    (Some (length p + length (wide (closeTagStr k)), length p)).
Proof.
  intros R HR HL. exists 1.
  rewrite (@close_turn 0 R p s 0 HR HL). rewrite findClose_zero.
  rewrite andb_false_r. eexists; split; reflexivity.
Qed.

End Steps.

(** *** Facts on the vocabulary *)

Lemma tagFree_find (t : wstr) (k : tagKind) :
  tagFree t = true ->
  find (wide (openTagStr k)) (toLowerCase t) = None
  /\ find (wide (closeTagStr k)) (toLowerCase t) = None.
Proof.
  unfold tagFree, includes. intros H.
  repeat (apply andb_true_iff in H as [H ?]).
  destruct k.
  - destruct (find (wide (openTagStr Quote)) (toLowerCase t)); [discriminate|].
    destruct (find (wide (closeTagStr Quote)) (toLowerCase t)); [discriminate|].
    split; reflexivity.
  - destruct (find (wide (openTagStr Spoiler)) (toLowerCase t)); [discriminate|].
    destruct (find (wide (closeTagStr Spoiler)) (toLowerCase t)); [discriminate|].
    split; reflexivity.
Qed.

Lemma tagFree_undotted (t : wstr) : tagFree t = true -> undotted t = true.
Proof.
  unfold tagFree. intros H.
  repeat (apply andb_true_iff in H as [H ?]). exact H.
Qed.

Lemma titleOk_spec (t : wstr) :
  titleOk t = true ->
  t <> [] /\ ~ In (latin "["%char) t /\ ~ In (latin "]"%char) t
  /\ undotted t = true.
Proof.
  unfold titleOk, BBCodeSpec.titleOk. intros H.
  apply andb_true_iff in H as [H H3].
  apply andb_true_iff in H as [H1 H2].
  split; [destruct t; [discriminate | discriminate]|].
  rewrite forallb_forall in H2.
  repeat split; try exact H3;
    intros Hin; apply H2 in Hin; apply andb_true_iff in Hin as [A B];
    rewrite cu_eqb_refl in *; discriminate.
Qed.

Lemma titleTail_plain (t : wstr) :
  titleOk t = true -> ~ In (latin "["%char) (titleTail t).
Proof.
  intros H Hin. apply titleOk_spec in H as (_ & H & _).
  unfold titleTail in Hin. simpl in Hin.
  destruct Hin as [E | Hin]; [discriminate|].
  apply in_app_or in Hin as [Hin | Hin].
  - apply H. now apply toLowerCase_bracket.
  - simpl in Hin. destruct Hin as [E | []]; discriminate.
Qed.

Lemma tagName_ascii (k : tagKind) :
  forallb (fun c => (N_of_ascii c <? 128)%N) (tagName k) = true.
Proof. destruct k; reflexivity. Qed.

Lemma spelled_fold (k : tagKind) (tag : wstr) :
  spelled k tag = true -> map foldUnit tag = wide (tagName k).
Proof. apply wstr_eqb_true. Qed.

Lemma spelled_spec (k : tagKind) (tag : wstr) :
  spelled k tag = true -> toLowerCase tag = wide (tagName k).
Proof.
  intros H. apply fold_lower; [now apply spelled_fold | apply tagName_ascii].
Qed.

Lemma spelled_length (k : tagKind) (tag : wstr) :
  spelled k tag = true -> length tag = length (wide (tagName k)).
Proof.
  intros H. rewrite <- (spelled_fold k tag H). symmetry. apply length_map.
Qed.

Lemma spelled_undotted (k : tagKind) (tag : wstr) :
  spelled k tag = true -> undotted tag = true.
Proof. intros H. exact (fold_undotted _ _ (spelled_fold k tag H)). Qed.

Lemma bracketed_open (k : tagKind) (s : wstr) : bracketed (wide (openTagStr k) ++ s).
Proof. right; destruct k; eexists; reflexivity. Qed.

Lemma bracketed_close (k : tagKind) (s : wstr) : bracketed (wide (closeTagStr k) ++ s).
Proof. right; destruct k; eexists; reflexivity. Qed.

Lemma bracketed_nil : bracketed [].
Proof. left; reflexivity. Qed.

(** The tags of one kind hold no tag of the other. *)
Lemma clean_other_open (k k' : tagKind) (s : wstr) :
  k <> k' ->
  clean (wide (openTagStr k)) (wide (openTagStr k')) s
  /\ clean (wide (closeTagStr k)) (wide (openTagStr k')) s.
Proof.
  intros Hk.
  destruct k, k'; try congruence; split;
    (apply clean_cons;
     [reflexivity
     | apply clean_plain;
       [first [apply (tagLike_open Quote) | apply (tagLike_open Spoiler)
              | apply (tagLike_close Quote) | apply (tagLike_close Spoiler)]
       | simpl; intuition discriminate]]).
Qed.

Lemma clean_other_close (k k' : tagKind) (s : wstr) :
  k <> k' ->
  clean (wide (openTagStr k)) (wide (closeTagStr k')) s
  /\ clean (wide (closeTagStr k)) (wide (closeTagStr k')) s.
Proof.
  intros Hk.
  destruct k, k'; try congruence; split;
    (apply clean_cons;
     [reflexivity
     | apply clean_plain;
       [first [apply (tagLike_open Quote) | apply (tagLike_open Spoiler)
              | apply (tagLike_close Quote) | apply (tagLike_close Spoiler)]
       | simpl; intuition discriminate]]).
Qed.

Lemma tagKind_eq_dec (k k' : tagKind) : {k = k'} + {k <> k'}.
Proof. decide equality. Qed.

Lemma lower_openTag (k : tagKind) (otag ttl : wstr) :
  spelled k otag = true ->
  toLowerCase (openTag otag ttl) = wide (openTagStr k) ++ titleTail ttl.
Proof.
  intros H. unfold openTag, titleTail.
  rewrite !toLowerCase_app, (spelled_spec _ _ H). destruct k; reflexivity.
Qed.

Lemma lower_closeTag (k : tagKind) (ctag : wstr) :
  spelled k ctag = true -> toLowerCase (closeTag ctag) = wide (closeTagStr k).
Proof.
  intros H. unfold closeTag.
  rewrite !toLowerCase_app, (spelled_spec _ _ H). destruct k; reflexivity.
Qed.

Lemma wf_Blk pre k otag ctag ttl body rest :
  wf (Blk pre k otag ctag ttl body rest) = true ->
  tagFree pre = true /\ spelled k otag = true /\ spelled k ctag = true
  /\ titleOk ttl = true /\ wf body = true /\ wf rest = true.
Proof. cbn [wf]. rewrite !andb_true_iff. tauto. Qed.

Lemma wfTop_TBlk pre k otag ctag ttl body rest :
  wfTop (TBlk pre k otag ctag ttl body rest) = true ->
  tagFree pre = true /\ spelled k otag = true /\ spelled k ctag = true
  /\ titleOk ttl = true /\ wf body = true /\ wfTop rest = true.
Proof. cbn [wfTop]. rewrite !andb_true_iff. tauto. Qed.

Lemma wfTop_TOpen pre k otag ttl rest :
  wfTop (TOpen pre k otag ttl rest) = true ->
  tagFree pre = true /\ spelled k otag = true
  /\ titleOk ttl = true /\ wfTop rest = true.
Proof. cbn [wfTop]. rewrite !andb_true_iff. tauto. Qed.

Lemma lower_render (d : doc) :
  wf d = true -> toLowerCase (render d) = lrender d.
Proof.
  induction d as [t | pre k otag ctag ttl body IHb rest IHr]; intros H;
    [reflexivity|].
  apply wf_Blk in H as (Hpre & Ho & Hc & Ht & Hb & Hr).
  cbn [render lrender].
  rewrite !toLowerCase_app, (lower_openTag k otag ttl), (lower_closeTag k ctag),
    IHb, IHr, <- !app_assoc by assumption.
  reflexivity.
Qed.

Lemma lower_renderTop (d : top) :
  wfTop d = true -> toLowerCase (renderTop d) = lrenderTop d.
Proof.
  induction d as [t | pre k otag ctag ttl body rest IHr
                    | pre k otag ttl rest IHr]; intros H;
    [reflexivity| |].
  - apply wfTop_TBlk in H as (Hpre & Ho & Hc & Ht & Hb & Hr).
    cbn [renderTop lrenderTop].
    rewrite !toLowerCase_app, (lower_openTag k otag ttl), (lower_closeTag k ctag),
      lower_render, IHr, <- !app_assoc by assumption.
    reflexivity.
  - apply wfTop_TOpen in H as (Hpre & Ho & Ht & Hr).
    cbn [renderTop lrenderTop].
    rewrite !toLowerCase_app, (lower_openTag k otag ttl), IHr, <- !app_assoc
      by assumption.
    reflexivity.
Qed.

(** *** The inner loop across a balanced text *)

Lemma scans_doc (k : tagKind) (d : doc) :
  wf d = true ->
  forall dpt p q out, 1 <= dpt -> bracketed q ->
    scans k dpt (p ++ lrender d) q out -> scans k dpt p (lrender d ++ q) out.
Proof.
  induction d as [t | pre k' otag ctag ttl body IHb rest IHr];
    intros Hwf dpt p q out Hd Hq H; cbn [lrender] in *.
  - destruct (tagFree_find t k Hwf) as [Fo Fc].
    apply scans_skip; auto using clean_text, tagLike_open, tagLike_close.
  - apply wf_Blk in Hwf as (Hpre & Hot & Hct & Httl & Hb & Hr).
    destruct (tagFree_find pre k Hpre) as [Fo Fc].
    pose proof (titleTail_plain _ Httl) as Ht.
    rewrite <- !app_assoc. rewrite !app_assoc in H.
    apply scans_skip;
      auto using clean_text, tagLike_open, tagLike_close, bracketed_open.
    destruct (tagKind_eq_dec k k') as [<- | Hk].
    + destruct (find_occurs (wide (closeTagStr k)) (titleTail ttl ++ lrender body)
                  (lrender rest ++ q)) as [c0 Hc0].
      rewrite <- app_assoc in Hc0.
      apply (scans_open k dpt _ _ _ c0); [exact Hd | exact Hc0 |].
      apply scans_skip;
        auto using clean_plain, tagLike_open, tagLike_close.
      apply IHb; [assumption | lia | apply bracketed_close |].
      destruct dpt as [|dpt]; [lia|].
      apply scans_close_more.
      apply IHr; assumption.
    + destruct (clean_other_open k k'
                  (titleTail ttl ++ lrender body ++ wide (closeTagStr k')
                     ++ lrender rest ++ q) Hk) as [Co Cc].
      apply scans_skip; auto.
      apply scans_skip;
        auto using clean_plain, tagLike_open, tagLike_close.
      apply IHb; [assumption | lia | apply bracketed_close |].
      destruct (clean_other_close k k' (lrender rest ++ q) Hk) as [Co' Cc'].
      apply scans_skip; auto.
Qed.

(** At the top level no closer answers an opener met before: the loop,
    started at any depth, finds none. *)
Lemma scans_top (k : tagKind) (t : top) :
  wfTop t = true ->
  forall dpt p, 1 <= dpt -> scans k dpt p (lrenderTop t) None.
Proof.
  induction t as [txt | pre k' otag ctag ttl body rest IHr
                      | pre k' otag ttl rest IHr];
    intros Hwf dpt p Hd; cbn [lrenderTop].
  - apply scans_end. apply (tagFree_find txt k Hwf).
  - apply wfTop_TBlk in Hwf as (Hpre & Hot & Hct & Httl & Hb & Hr).
    destruct (tagFree_find pre k Hpre) as [Fo Fc].
    pose proof (titleTail_plain _ Httl) as Ht.
    apply scans_skip;
      auto using clean_text, tagLike_open, tagLike_close, bracketed_open.
    destruct (tagKind_eq_dec k k') as [<- | Hk].
    + destruct (find_occurs (wide (closeTagStr k)) (titleTail ttl ++ lrender body)
                  (lrenderTop rest)) as [c0 Hc0].
      rewrite <- app_assoc in Hc0.
      apply (scans_open k dpt _ _ _ c0); [exact Hd | exact Hc0 |].
      apply scans_skip;
        auto using clean_plain, tagLike_open, tagLike_close.
      apply scans_doc; [assumption | lia | apply bracketed_close |].
      destruct dpt as [|dpt]; [lia|].
      apply scans_close_more.
      apply IHr; assumption.
    + destruct (clean_other_open k k'
                  (titleTail ttl ++ lrender body ++ wide (closeTagStr k')
                     ++ lrenderTop rest) Hk) as [Co Cc].
      apply scans_skip; auto.
      apply scans_skip;
        auto using clean_plain, tagLike_open, tagLike_close.
      apply scans_doc; [assumption | lia | apply bracketed_close |].
      destruct (clean_other_close k k' (lrenderTop rest) Hk) as [Co' Cc'].
      apply scans_skip; auto.
  - apply wfTop_TOpen in Hwf as (Hpre & Hot & Httl & Hr).
    destruct (tagFree_find pre k Hpre) as [Fo Fc].
    pose proof (titleTail_plain _ Httl) as Ht.
    apply scans_skip;
      auto using clean_text, tagLike_open, tagLike_close, bracketed_open.
    destruct (tagKind_eq_dec k k') as [<- | Hk].
    + destruct (find (wide (closeTagStr k)) (titleTail ttl ++ lrenderTop rest))
        as [c0|] eqn:Hc0.
      * apply (scans_open k dpt _ _ _ c0); [exact Hd | exact Hc0 |].
        apply scans_skip;
          auto using clean_plain, tagLike_open, tagLike_close.
      * apply scans_end.
        rewrite (find_clean _ _ _ (clean_close_open k _)), Hc0. reflexivity.
    + destruct (clean_other_open k k' (titleTail ttl ++ lrenderTop rest) Hk)
        as [Co Cc].
      apply scans_skip; auto.
      apply scans_skip;
        auto using clean_plain, tagLike_open, tagLike_close.
Qed.

(** *** The opening pattern *)

Lemma matchOpen_unfold (s : wstr) :
  matchOpen s =
  match matchOpenHere s with
  | Some (k, t, len) => Some (0, k, t, len)
  | None =>
      match s with
      | [] => None
      | _ :: s' =>
          match matchOpen s' with
          | Some (i, k, t, len) => Some (S i, k, t, len)
          | None => None
          end
      end
  end.
Proof. destruct s; reflexivity. Qed.

Lemma folded_head (w : Js.str) (s : wstr) :
  forallb (fun c => (N_of_ascii c <? 128)%N) w = true ->
  startsWith (wide w) (map foldUnit (firstn (length (wide w)) s)) = true ->
  map foldUnit (firstn (length (wide w)) s) = wide w
  /\ startsWith (wide w) (toLowerCase s) = true.
Proof.
  intros Hw H. apply startsWith_iff in H as [r Hr].
  assert (Er : r = []).
  { apply (f_equal (@length _)) in Hr.
    rewrite length_map, length_firstn, length_app in Hr.
    destruct r; [reflexivity | simpl in Hr; lia]. }
  subst r. rewrite app_nil_r in Hr. split; [exact Hr|].
  rewrite <- (firstn_skipn (length (wide w)) s), toLowerCase_app,
    (fold_lower _ _ Hr Hw).
  apply startsWith_app.
Qed.

Lemma matchOpenHere_starts (s : wstr) k t len :
  matchOpenHere s = Some (k, t, len) ->
  startsWith (wide (openTagStr k)) (toLowerCase s) = true /\ 1 <= len.
Proof.
  unfold matchOpenHere. intros H.
  assert (Q : startsWith (wide (openTagStr Quote) ++ lit "=")
                (map foldUnit
                   (firstn (length (wide (openTagStr Quote) ++ lit "=")) s))
              = true ->
              startsWith (wide (openTagStr Quote)) (toLowerCase s) = true).
  { intros E.
    apply (folded_head (openTagStr Quote ++ Js.lit "=")) in E as [_ E];
      [|reflexivity].
    exact (startsWith_prefix (wide (openTagStr Quote)) (lit "=") _ E). }
  assert (S : startsWith (wide (openTagStr Spoiler) ++ lit "=")
                (map foldUnit
                   (firstn (length (wide (openTagStr Spoiler) ++ lit "=")) s))
              = true ->
              startsWith (wide (openTagStr Spoiler)) (toLowerCase s) = true).
  { intros E.
    apply (folded_head (openTagStr Spoiler ++ Js.lit "=")) in E as [_ E];
      [|reflexivity].
    exact (startsWith_prefix (wide (openTagStr Spoiler)) (lit "=") _ E). }
  destruct (startsWith (wide (openTagStr Quote) ++ lit "=")
              (map foldUnit
                 (firstn (length (wide (openTagStr Quote) ++ lit "=")) s)))
    eqn:EQ.
  - destruct (titleGroup
                (skipn (length (wide (openTagStr Quote) ++ lit "=")) s))
      as [t'|].
    + inversion H; subst. split; [now apply Q | simpl; lia].
    + destruct (startsWith (wide (openTagStr Spoiler) ++ lit "=")
                  (map foldUnit
                     (firstn (length (wide (openTagStr Spoiler) ++ lit "="))
                        s)))
        eqn:ES; [|discriminate].
      destruct (titleGroup
                  (skipn (length (wide (openTagStr Spoiler) ++ lit "=")) s));
        [|discriminate].
      inversion H; subst. split; [now apply S | simpl; lia].
  - destruct (startsWith (wide (openTagStr Spoiler) ++ lit "=")
                (map foldUnit
                   (firstn (length (wide (openTagStr Spoiler) ++ lit "="))
                      s)))
      eqn:ES; [|discriminate].
    destruct (titleGroup
                (skipn (length (wide (openTagStr Spoiler) ++ lit "=")) s));
      [|discriminate].
    inversion H; subst. split; [now apply S | simpl; lia].
Qed.

Lemma matchOpen_here (s : wstr) k t len :
  matchOpenHere s = Some (k, t, len) -> matchOpen s = Some (0, k, t, len).
Proof. intros H. rewrite matchOpen_unfold, H. reflexivity. Qed.

Lemma matchOpen_skip (x s : wstr) :
  (forall i, i < length x -> matchOpenHere (skipn i (x ++ s)) = None) ->
  matchOpen (x ++ s) =
  match matchOpen s with
  | Some (i, k, t, len) => Some (length x + i, k, t, len)
  | None => None
  end.
Proof.
  induction x as [|c x IH]; intros H.
  - simpl. destruct (matchOpen s) as [[[[i k] t] len]|]; reflexivity.
  - rewrite matchOpen_unfold.
    pose proof (H 0 ltac:(simpl; lia)) as H0. cbn [skipn] in H0. rewrite H0.
    cbn [app]. rewrite IH.
    + destruct (matchOpen s) as [[[[i k] t] len]|]; reflexivity.
    + intros i Hi. apply (H (S i)). simpl; lia.
Qed.

Lemma matchOpen_none (s : wstr) :
  (forall i, matchOpenHere (skipn i s) = None) -> matchOpen s = None.
Proof.
  intros H. rewrite <- (app_nil_r s), matchOpen_skip.
  - reflexivity.
  - intros i _. rewrite app_nil_r. apply H.
Qed.

Lemma matchOpen_len (s : wstr) i k t len :
  matchOpen s = Some (i, k, t, len) -> 1 <= len /\ 1 <= length s.
Proof.
  revert i; induction s as [|c s IH]; intros i H.
  - discriminate H.
  - rewrite matchOpen_unfold in H.
    destruct (matchOpenHere (c :: s)) as [[[k' t'] len']|] eqn:E.
    + inversion H; subst. apply matchOpenHere_starts in E.
      split; [tauto | simpl; lia].
    + destruct (matchOpen s) as [[[[i' k'] t'] len']|]; [|discriminate].
      inversion H; subst. destruct (IH _ eq_refl). split; [assumption | simpl; lia].
Qed.

(** No opener starts in a tag-free text, even one followed by a tag. *)
Lemma matchOpenHere_tagFree (x s : wstr) (i : nat) :
  tagFree x = true -> bracketed (toLowerCase s) -> i < length x ->
  matchOpenHere (skipn i (x ++ s)) = None.
Proof.
  intros Hx Hs Hi.
  destruct (matchOpenHere (skipn i (x ++ s))) as [[[k t] len]|] eqn:E;
    [|reflexivity].
  apply matchOpenHere_starts in E as [E _].
  pose proof (tagFree_undotted x Hx) as Hu.
  pose proof (toLowerCase_length x Hu) as Hl.
  rewrite skipn_app in E. replace (i - length x) with 0 in E by lia.
  change (skipn 0 s) with s in E.
  rewrite toLowerCase_app, (toLowerCase_skipn i x Hu) in E.
  destruct (tagFree_find x k Hx) as [Fo _].
  pose proof (clean_text _ _ _ (tagLike_open k) Fo Hs i) as C.
  rewrite skipn_app in C.
  replace (i - length (toLowerCase x)) with 0 in C by lia.
  change (skipn 0 (toLowerCase s)) with (toLowerCase s) in C.
  rewrite C in E; [discriminate | lia].
Qed.

Lemma upToBracket_title (t s : wstr) :
  ~ In (latin "]"%char) t -> upToBracket (t ++ latin "]"%char :: s) = Some t.
Proof.
  induction t as [|c t IH]; intros H.
  - reflexivity.
  - cbn [app upToBracket].
    destruct (cu_eqb c (latin "]"%char)) eqn:E.
    + apply cu_eqb_true in E; subst c. exfalso; apply H; left; reflexivity.
    + rewrite IH; [reflexivity|]. intros Hin; apply H; right; exact Hin.
Qed.

Lemma titleGroup_title (t s : wstr) :
  titleOk t = true -> titleGroup (t ++ lit "]" ++ s) = Some t.
Proof.
  intros H. apply titleOk_spec in H as (Hne & _ & Hb & _).
  unfold titleGroup. change (lit "]" ++ s) with (latin "]"%char :: s).
  rewrite upToBracket_title by exact Hb.
  destruct t; [contradiction | reflexivity].
Qed.

Lemma matchOpenHere_tag (k : tagKind) (otag ttl s : wstr) :
  spelled k otag = true -> titleOk ttl = true ->
  matchOpenHere (openTag otag ttl ++ s)
  = Some (k, ttl, length (openTag otag ttl)).
Proof.
  intros Ho Ht. pose proof (spelled_fold k otag Ho) as Hf.
  set (a := lit "[" ++ otag ++ lit "=").
  assert (Ea : openTag otag ttl ++ s = a ++ ttl ++ lit "]" ++ s).
  { unfold openTag, a. now rewrite <- !app_assoc. }
  assert (La : map foldUnit a = wide (openTagStr k) ++ lit "=").
  { unfold a. rewrite !map_app, Hf. destruct k; reflexivity. }
  assert (Len : length (wide (openTagStr k) ++ lit "=") = length a).
  { rewrite <- La. apply length_map. }
  assert (Lt : length (openTag otag ttl) = length a + length ttl + 1).
  { unfold openTag, a. rewrite !length_app. simpl. lia. }
  rewrite Ea, Lt. unfold matchOpenHere.
  destruct k.
  - rewrite Len, firstn_app_exact, La, startsWith_refl.
    rewrite skipn_app_exact, titleGroup_title by exact Ht. reflexivity.
  - replace (startsWith (wide (openTagStr Quote) ++ lit "=")
               (map foldUnit
                  (firstn (length (wide (openTagStr Quote) ++ lit "="))
                     (a ++ ttl ++ lit "]" ++ s)))) with false.
    + rewrite Len, firstn_app_exact, La, startsWith_refl.
      rewrite skipn_app_exact, titleGroup_title by exact Ht. reflexivity.
    + rewrite <- firstn_map, map_app, La. reflexivity.
Qed.

Lemma matchOpen_block (pre : wstr) (k : tagKind) (otag ttl s : wstr) :
  tagFree pre = true -> spelled k otag = true -> titleOk ttl = true ->
  matchOpen (pre ++ openTag otag ttl ++ s)
  = Some (length pre + 0, k, ttl, length (openTag otag ttl)).
Proof.
  intros Hp Ho Ht. rewrite matchOpen_skip.
  - rewrite (matchOpen_here _ _ _ _ (matchOpenHere_tag k otag ttl s Ho Ht)).
    reflexivity.
  - intros i Hi. apply matchOpenHere_tagFree; [exact Hp | | exact Hi].
    right. unfold openTag. rewrite <- !app_assoc.
    eexists; reflexivity.
Qed.

Lemma matchOpen_tagFree (t : wstr) : tagFree t = true -> matchOpen t = None.
Proof.
  intros H. apply matchOpen_none. intros i.
  destruct (Nat.lt_ge_cases i (length t)) as [L | G].
  - rewrite <- (app_nil_r t).
    apply matchOpenHere_tagFree; [exact H | left; reflexivity | exact L].
  - rewrite skipn_all2 by exact G. reflexivity.
Qed.

(** *** The outer loop *)

Lemma extractLoop_unfold (fuel : nat) (s : wstr) (acc : list Block) :
  extractLoop (S fuel) s acc =
  match matchOpen s with
  | None => Some acc
  | Some (index, k, g2, len) =>
      match findClose (length s) s k 1 (index + len) None with
      | None => None
      | Some (pos, Some e) =>
          extractLoop fuel (skipn pos s)
            (acc ++ [{| title := trim g2;
                        content := substring s (index + len) e |}])
      | Some (pos, None) => extractLoop fuel (skipn (index + len) s) acc
      end
  end.
Proof. reflexivity. Qed.

Lemma extractLoop_acc (fuel : nat) : forall s acc,
  extractLoop fuel s acc = option_map (app acc) (extractLoop fuel s []).
Proof.
  induction fuel as [|fuel IH]; intros s acc; [reflexivity|].
  rewrite !extractLoop_unfold.
  destruct (matchOpen s) as [[[[i k] g] len]|];
    [|simpl; now rewrite app_nil_r].
  destruct (findClose (length s) s k 1 (i + len) None) as [[pos [e|]]|];
    [| apply IH | reflexivity].
  rewrite IH. rewrite (IH _ ([] ++ _)).
  destruct (extractLoop fuel (skipn pos s) []) as [r|]; simpl;
    [now rewrite <- app_assoc | reflexivity].
Qed.

Lemma extractLoop_mono (fuel : nat) : forall s acc r,
  extractLoop fuel s acc = Some r -> extractLoop (S fuel) s acc = Some r.
Proof.
  induction fuel as [|fuel IH]; intros s acc r H; [discriminate|].
  rewrite extractLoop_unfold in H. rewrite extractLoop_unfold.
  destruct (matchOpen s) as [[[[i k] g] len]|]; [|exact H].
  destruct (findClose (length s) s k 1 (i + len) None) as [[pos [e|]]|];
    [apply IH, H | apply IH, H | discriminate].
Qed.

Lemma extractLoop_mono_le (f f' : nat) s acc r :
  f <= f' ->
  extractLoop f s acc = Some r -> extractLoop f' s acc = Some r.
Proof.
  induction 1 as [|f' _ IH]; intros H; [exact H|].
  apply extractLoop_mono, IH, H.
Qed.

(** The outer loop ends: every turn shortens [remaining]. *)
Lemma extractLoop_total (fuel : nat) : forall s acc,
  length s < fuel -> exists r, extractLoop fuel s acc = Some r.
Proof.
  induction fuel as [|fuel IH]; intros s acc Hf; [lia|].
  rewrite extractLoop_unfold.
  destruct (matchOpen s) as [[[[i k] g] len]|] eqn:Em; [|eauto].
  apply matchOpen_len in Em as [Hlen Hs].
  destruct (findClose_total (length s) s k 1 (i + len) None) as [[pos e] Hr];
    [lia|].
  rewrite Hr. pose proof (findClose_pos _ _ _ _ _ _ _ _ Hr) as Hpos.
  destruct e as [e|]; apply IH; rewrite length_skipn; lia.
Qed.

(** The outcome read on the text is the one the loop computes. *)
Lemma findClose_scans (k : tagKind) (d : nat) (p s : wstr) out (R : wstr) :
  scans k d p s out -> toLowerCase R = p ++ s ->
  length R = length (p ++ s) ->
  exists r, findClose (length R) R k d (length p) None = Some r
            /\ outcome r = out.
Proof.
  intros H HR HL. destruct (H R HR HL) as (f & r & Hf & Hout).
  destruct (findClose_total (length R) R k d (length p) None) as [r' Hr'];
    [lia|].
  exists r'. split; [exact Hr'|].
  apply (findClose_mono_le _ (Nat.max f (length R))) in Hf; [|lia].
  apply (findClose_mono_le _ (Nat.max f (length R))) in Hr'; [|lia].
  congruence.
Qed.

Lemma extracts_none (s : wstr) : matchOpen s = None -> extracts s [].
Proof. intros H. exists 1. now rewrite extractLoop_unfold, H. Qed.

Lemma extracts_found (s P Q : wstr) i k g2 len pos e out :
  matchOpen s = Some (i, k, g2, len) ->
  toLowerCase s = P ++ Q -> length s = length (P ++ Q) ->
  length P = i + len ->
  scans k 1 P Q (Some (pos, e)) ->
  extracts (skipn pos s) out ->
  extracts s ({| title := trim g2; content := substring s (i + len) e |}
              :: out).
Proof.
  intros Hm HR HL HP Hs [f Hf].
  destruct (findClose_scans _ _ _ _ _ _ Hs HR HL)
    as ([pos' e'] & Hr & Hout).
  destruct e' as [e'|]; [|discriminate]. inversion Hout; subst pos' e'.
  rewrite HP in Hr.
  exists (S f). rewrite extractLoop_unfold, Hm, Hr.
  rewrite extractLoop_acc, Hf. reflexivity.
Qed.

Lemma extracts_unmatched (s P Q : wstr) i k g2 len out :
  matchOpen s = Some (i, k, g2, len) ->
  toLowerCase s = P ++ Q -> length s = length (P ++ Q) ->
  length P = i + len ->
  scans k 1 P Q None ->
  extracts (skipn (i + len) s) out ->
  extracts s out.
Proof.
  intros Hm HR HL HP Hs [f Hf].
  destruct (findClose_scans _ _ _ _ _ _ Hs HR HL)
    as ([pos' e'] & Hr & Hout).
  destruct e' as [e'|]; [discriminate|].
  rewrite HP in Hr.
  exists (S f). rewrite extractLoop_unfold, Hm, Hr. exact Hf.
Qed.

Lemma extracts_run (s : wstr) (out : list Block) :
  extracts s out -> extractOutermostQuotes s = Some out.
Proof.
  intros [f Hf]. unfold extractOutermostQuotes.
  destruct (extractLoop_total (S (length s)) s []) as [r Hr]; [lia|].
  apply (extractLoop_mono_le _ (Nat.max f (S (length s)))) in Hf; [|lia].
  rewrite Hr.
  apply (extractLoop_mono_le _ (Nat.max f (S (length s)))) in Hr; [|lia].
  congruence.
Qed.

Lemma extracts_of_run (s : wstr) (out : list Block) :
  extractOutermostQuotes s = Some out -> extracts s out.
Proof. intros H. exists (S (length s)). exact H. Qed.

(** *** Blocks *)

Lemma substring_app (u v w : wstr) :
  substring (u ++ v ++ w) (length u) (length u + length v) = v.
Proof.
  unfold substring.
  rewrite Nat.min_l, Nat.max_r by lia.
  rewrite skipn_app_exact.
  replace (length u + length v - length u) with (length v) by lia.
  apply firstn_app_exact.
Qed.

Lemma undotted_lit (s : string) : undotted (lit s) = true.
Proof. apply undotted_wide. Qed.

Lemma undotted_openTag (k : tagKind) (otag ttl : wstr) :
  spelled k otag = true -> titleOk ttl = true ->
  undotted (openTag otag ttl) = true.
Proof.
  intros Ho Ht. apply titleOk_spec in Ht as (_ & _ & _ & Ht).
  unfold openTag.
  rewrite !undotted_app, (spelled_undotted k otag Ho), Ht, !undotted_lit.
  reflexivity.
Qed.

Lemma undotted_closeTag (k : tagKind) (ctag : wstr) :
  spelled k ctag = true -> undotted (closeTag ctag) = true.
Proof.
  intros Hc. unfold closeTag.
  rewrite !undotted_app, (spelled_undotted k ctag Hc), !undotted_lit.
  reflexivity.
Qed.

Lemma wf_undotted (d : doc) : wf d = true -> undotted (render d) = true.
Proof.
  induction d as [t | pre k otag ctag ttl body IHb rest IHr]; intros H.
  - now apply tagFree_undotted.
  - apply wf_Blk in H as (Hpre & Ho & Hc & Ht & Hb & Hr).
    cbn [render].
    rewrite !undotted_app, (tagFree_undotted pre Hpre),
      (undotted_openTag k otag ttl Ho Ht), (IHb Hb),
      (undotted_closeTag k ctag Hc), (IHr Hr).
    reflexivity.
Qed.

Lemma wfTop_undotted (t : top) :
  wfTop t = true -> undotted (renderTop t) = true.
Proof.
  induction t as [txt | pre k otag ctag ttl body rest IHr
                      | pre k otag ttl rest IHr]; intros H.
  - now apply tagFree_undotted.
  - apply wfTop_TBlk in H as (Hpre & Ho & Hc & Ht & Hb & Hr).
    cbn [renderTop].
    rewrite !undotted_app, (tagFree_undotted pre Hpre),
      (undotted_openTag k otag ttl Ho Ht), (wf_undotted body Hb),
      (undotted_closeTag k ctag Hc), (IHr Hr).
    reflexivity.
  - apply wfTop_TOpen in H as (Hpre & Ho & Ht & Hr).
    cbn [renderTop].
    rewrite !undotted_app, (tagFree_undotted pre Hpre),
      (undotted_openTag k otag ttl Ho Ht), (IHr Hr).
    reflexivity.
Qed.

Lemma openTag_lower_length (k : tagKind) (otag ttl : wstr) :
  spelled k otag = true -> titleOk ttl = true ->
  length (wide (openTagStr k) ++ titleTail ttl) = length (openTag otag ttl).
Proof.
  intros H Ht. rewrite <- (lower_openTag k otag ttl H).
  apply toLowerCase_length, (undotted_openTag k); assumption.
Qed.

Lemma closeTag_lower_length (k : tagKind) (ctag : wstr) :
  spelled k ctag = true ->
  length (wide (closeTagStr k)) = length (closeTag ctag).
Proof.
  intros H. rewrite <- (lower_closeTag k ctag H).
  apply toLowerCase_length, (undotted_closeTag k), H.
Qed.

(** A block whose body the inner loop crosses at depth one is
    extracted whole, and extraction goes on after its closer. *)
Lemma extracts_block (pre : wstr) (k : tagKind)
    (otag ctag ttl body rest : wstr) (out : list Block) :
  tagFree pre = true -> spelled k otag = true -> spelled k ctag = true ->
  titleOk ttl = true -> undotted body = true -> undotted rest = true ->
  (forall p q o, bracketed q ->
     scans k 1 (p ++ toLowerCase body) q o ->
     scans k 1 p (toLowerCase body ++ q) o) ->
  extracts rest out ->
  extracts (pre ++ openTag otag ttl ++ body ++ closeTag ctag ++ rest)
    ({| title := trim ttl; content := body |} :: out).
Proof.
  intros Hpre Ho Hc Ht Ub Ur Hbody Hrest.
  pose proof (tagFree_undotted pre Hpre) as Up.
  set (s := pre ++ openTag otag ttl ++ body ++ closeTag ctag ++ rest).
  set (P := toLowerCase pre ++ wide (openTagStr k) ++ titleTail ttl).
  set (Q := toLowerCase body ++ wide (closeTagStr k) ++ toLowerCase rest).
  assert (HR : toLowerCase s = P ++ Q).
  { unfold s, P, Q.
    rewrite !toLowerCase_app, (lower_openTag k otag ttl Ho),
      (lower_closeTag k ctag Hc), <- !app_assoc. reflexivity. }
  assert (Us : undotted s = true).
  { unfold s.
    rewrite !undotted_app, Up, (undotted_openTag k otag ttl Ho Ht), Ub,
      (undotted_closeTag k ctag Hc), Ur.
    reflexivity. }
  assert (HL : length s = length (P ++ Q)).
  { rewrite <- HR. symmetry. apply toLowerCase_length, Us. }
  assert (HP : length P = length pre + 0 + length (openTag otag ttl)).
  { unfold P. rewrite length_app, (toLowerCase_length pre Up),
      (openTag_lower_length k otag ttl Ho Ht). lia. }
  assert (HPb : length (P ++ toLowerCase body)
                = length (pre ++ openTag otag ttl) + length body).
  { rewrite !length_app, (toLowerCase_length body Ub), HP. lia. }
  assert (Hsub : substring s (length pre + 0 + length (openTag otag ttl))
                   (length (P ++ toLowerCase body)) = body).
  { rewrite HPb. unfold s.
    replace (length pre + 0 + length (openTag otag ttl))
      with (length (pre ++ openTag otag ttl)) by (rewrite length_app; lia).
    rewrite (app_assoc pre). apply substring_app. }
  rewrite <- Hsub.
  apply (extracts_found s P Q _ k ttl _
           (length (P ++ toLowerCase body) + length (wide (closeTagStr k)))
           (length (P ++ toLowerCase body)) out).
  - apply matchOpen_block; assumption.
  - exact HR.
  - exact HL.
  - exact HP.
  - apply Hbody; [apply bracketed_close | apply scans_close_final].
  - replace (skipn (length (P ++ toLowerCase body)
                    + length (wide (closeTagStr k))) s)
      with rest; [exact Hrest|].
    rewrite HPb, (closeTag_lower_length k ctag Hc). unfold s.
    replace (length (pre ++ openTag otag ttl) + length body
             + length (closeTag ctag))
      with (length (pre ++ openTag otag ttl ++ body ++ closeTag ctag))
      by (rewrite !length_app; lia).
    replace (pre ++ openTag otag ttl ++ body ++ closeTag ctag ++ rest)
      with ((pre ++ openTag otag ttl ++ body ++ closeTag ctag) ++ rest)
      by (now rewrite <- !app_assoc).
    symmetry; apply skipn_app_exact.
Qed.

(** An opener that no closer answers is stepped over. *)
Lemma extracts_open (pre : wstr) (k : tagKind) (otag ttl rest : wstr)
    (out : list Block) :
  tagFree pre = true -> spelled k otag = true -> titleOk ttl = true ->
  undotted rest = true ->
  (forall p, scans k 1 p (toLowerCase rest) None) ->
  extracts rest out ->
  extracts (pre ++ openTag otag ttl ++ rest) out.
Proof.
  intros Hpre Ho Ht Ur Hscan Hrest.
  pose proof (tagFree_undotted pre Hpre) as Up.
  set (s := pre ++ openTag otag ttl ++ rest).
  set (P := toLowerCase pre ++ wide (openTagStr k) ++ titleTail ttl).
  assert (HR : toLowerCase s = P ++ toLowerCase rest).
  { unfold s, P.
    rewrite !toLowerCase_app, (lower_openTag k otag ttl Ho), <- !app_assoc.
    reflexivity. }
  assert (Us : undotted s = true).
  { unfold s.
    rewrite !undotted_app, Up, (undotted_openTag k otag ttl Ho Ht), Ur.
    reflexivity. }
  assert (HL : length s = length (P ++ toLowerCase rest)).
  { rewrite <- HR. symmetry. apply toLowerCase_length, Us. }
  assert (HP : length P = length pre + 0 + length (openTag otag ttl)).
  { unfold P. rewrite length_app, (toLowerCase_length pre Up),
      (openTag_lower_length k otag ttl Ho Ht). lia. }
  apply (extracts_unmatched s P (toLowerCase rest) _ k ttl _ out
           (matchOpen_block pre k otag ttl rest Hpre Ho Ht) HR HL HP
           (Hscan P)).
  replace (skipn (length pre + 0 + length (openTag otag ttl)) s) with rest;
    [exact Hrest|].
  unfold s. rewrite app_assoc.
  replace (length pre + 0 + length (openTag otag ttl))
    with (length (pre ++ openTag otag ttl)) by (rewrite length_app; lia).
  symmetry; apply skipn_app_exact.
Qed.

(** The extractor on a text of balanced blocks and unanswered openers. *)
Lemma extracts_top (t : top) :
  wfTop t = true -> extracts (renderTop t) (outermostTop t).
Proof.
  induction t as [txt | pre k otag ctag ttl body rest IHr
                      | pre k otag ttl rest IHr];
    intros Hwf; cbn [renderTop outermostTop].
  - apply extracts_none, matchOpen_tagFree, Hwf.
  - apply wfTop_TBlk in Hwf as (Hpre & Hot & Hct & Httl & Hb & Hr).
    apply (extracts_block pre k);
      auto using wf_undotted, wfTop_undotted.
    intros p q o Hq. rewrite (lower_render body Hb).
    apply scans_doc; auto.
  - apply wfTop_TOpen in Hwf as (Hpre & Hot & Httl & Hr).
    apply (extracts_open pre k); auto using wfTop_undotted.
    intros p. rewrite (lower_renderTop rest Hr).
    apply scans_top; auto.
Qed.

Lemma wfTop_topOfDoc (d : doc) : wfTop (topOfDoc d) = wf d.
Proof.
  induction d as [t | pre k otag ctag ttl body _ rest IHr]; cbn;
    [reflexivity | now rewrite IHr].
Qed.

Lemma renderTop_topOfDoc (d : doc) : renderTop (topOfDoc d) = render d.
Proof.
  induction d as [t | pre k otag ctag ttl body _ rest IHr]; cbn [topOfDoc renderTop render];
    [reflexivity | now rewrite IHr].
Qed.

Lemma outermostTop_topOfDoc (d : doc) :
  outermostTop (topOfDoc d) = outermost d.
Proof.
  induction d as [t | pre k otag ctag ttl body _ rest IHr];
    cbn [topOfDoc outermostTop outermost];
    [reflexivity | now rewrite IHr].
Qed.

(** A body without a tag of the block's own kind is crossed at once. *)
Lemma scans_plain (k : tagKind) (body : wstr) :
  includes (toLowerCase body) (wide (openTagStr k)) = false ->
  includes (toLowerCase body) (wide (closeTagStr k)) = false ->
  forall p q o, bracketed q ->
    scans k 1 (p ++ toLowerCase body) q o ->
    scans k 1 p (toLowerCase body ++ q) o.
Proof.
  unfold includes. intros Ho Hc p q o Hq H.
  destruct (find (wide (openTagStr k)) (toLowerCase body)) eqn:Fo; [discriminate|].
  destruct (find (wide (closeTagStr k)) (toLowerCase body)) eqn:Fc; [discriminate|].
  apply scans_skip;
    auto using clean_text, tagLike_open, tagLike_close.
Qed.



(** *** Every extracted block is a span of the input *)

Lemma matchOpen_sound (s : wstr) : forall i k g len,
  matchOpen s = Some (i, k, g, len) ->
  matchOpenHere (skipn i s) = Some (k, g, len).
Proof.
  induction s as [|c s IH]; intros i k g len H.
  - discriminate H.
  - rewrite matchOpen_unfold in H.
    destruct (matchOpenHere (c :: s)) as [[[k' g'] len']|] eqn:E.
    + inversion H; subst. exact E.
    + destruct (matchOpen s) as [[[[i' k'] g'] len']|] eqn:Em; [|discriminate].
      inversion H; subst. apply (IH _ _ _ _ eq_refl).
Qed.

Lemma indexOf_occurs (L needle : wstr) (pos c : nat) :
  indexOf L needle pos = Some c ->
  pos <= c /\ startsWith needle (skipn c L) = true.
Proof.
  unfold indexOf. intros H.
  destruct (find needle (skipn pos L)) as [j|] eqn:E; [|discriminate].
  inversion H; subst. apply find_bound in E as [E _].
  rewrite skipn_skipn in E. rewrite Nat.add_comm. split; [lia | exact E].
Qed.

Lemma findClose_found (f : nat) : forall R k d pos e0 pos' e,
  findClose f R k d pos e0 = Some (pos', Some e) ->
  e0 = Some e
  \/ (pos <= e /\ startsWith (wide (closeTagStr k)) (skipn e (toLowerCase R)) = true).
Proof.
  induction f as [|f IH]; intros R k d pos e0 pos' e H.
  - rewrite findClose_zero in H.
    destruct ((pos <? length R) && (0 <? d)); inversion H; auto.
  - rewrite findClose_unfold in H.
    destruct ((pos <? length R) && (0 <? d)); [|inversion H; auto].
    destruct (indexOf (toLowerCase R) (wide (closeTagStr k)) pos) as [c|] eqn:Ec;
      [|inversion H; auto].
    apply indexOf_occurs in Ec as [Hc Sc].
    assert (Closing :
              findClose f R k (d - 1) (c + length (wide (closeTagStr k)))
                (if d - 1 =? 0 then Some c else e0) = Some (pos', Some e) ->
              e0 = Some e
              \/ (pos <= e
                  /\ startsWith (wide (closeTagStr k)) (skipn e (toLowerCase R))
                     = true)).
    { intros H'. apply IH in H' as [H' | [H1 H2]].
      - destruct (d - 1 =? 0); [|auto].
        inversion H'; subst. right; split; [exact Hc | exact Sc].
      - right; split; [lia | exact H2]. }
    destruct (indexOf (toLowerCase R) (wide (openTagStr k)) pos) as [o|] eqn:Eo;
      [|exact (Closing H)].
    apply indexOf_ge in Eo.
    destruct (o <? c); [|exact (Closing H)].
    apply IH in H as [H | [H1 H2]]; [auto | right; split; [lia | exact H2]].
Qed.




(** *** An opener without a closer of its kind ahead *)




(** *** The copy that knows quote tags only *)














(** *** The statements of the specification *)

(** The extractor always returns: neither loop runs out of fuel. *)
Lemma extractOutermostQuotes_total (input : wstr) :
  exists blocks, extractOutermostQuotes input = Some blocks.
Proof. apply extractLoop_total. lia. Qed.

(** On a text without U+0130 whose quote and spoiler blocks are
    balanced -- built from tag-free text and well-nested blocks, tag
    names in any case -- the extractor returns exactly the outermost
    blocks from left to right. *)
Lemma extract_balanced (d : doc) :
  wf d = true ->
  extractOutermostQuotes (render d) = Some (outermost d).
Proof.
  intros H. apply extracts_run.
  rewrite <- renderTop_topOfDoc, <- outermostTop_topOfDoc.
  apply extracts_top. now rewrite wfTop_topOfDoc.
Qed.

(** C2. The extractor does not return the outermost blocks of every
    balanced text.  The balanced text [[quote=A]the [quoted]
    text[/quote]] holds one block, titled A; the extractor returns no
    block, because the depth counter looks for the prefix [[quote] and
    takes [[quoted]] for an opener.  The balanced text [[quote=A]],
    U+0130, [x[/quote]] gives a block titled A whose content runs one
    code unit into the closer, because the place of the closer is found
    in the lower-case form, where U+0130 takes two code units, and the
    cut is made in the text itself.  The three-level nesting
    [[quote=A][quote=B][quote=C]...[/quote][/quote][/quote]] does yield
    the one block titled A, with both inner quotes left in its
    content. *)
Theorem extract_quoted_word :
  extractOutermostQuotes (lit "[quote=A]the [quoted] text[/quote]")
  = Some []
  /\ extractOutermostQuotes (lit "[quote=A]" ++ [dottedI] ++ lit "x[/quote]")
     = Some [{| title := lit "A"; content := [dottedI] ++ lit "x[" |}]
  /\ extractOutermostQuotes
       (lit "[quote=A][quote=B][quote=C]...[/quote][/quote][/quote]")
     = Some [{| title := lit "A";
                content := lit "[quote=B][quote=C]...[/quote][/quote]" |}].
Proof. repeat split; vm_compute; reflexivity. Qed.

(** The inner loop for one kind reads nothing of the text but its
    length and the places, in its lower-case form, of what starts like
    a tag of that kind. *)
Lemma findClose_own_tags (k : tagKind) (R R' : wstr) :
  length R = length R' ->
  (forall pos, indexOf (toLowerCase R) (wide (openTagStr k)) pos
               = indexOf (toLowerCase R') (wide (openTagStr k)) pos) ->
  (forall pos, indexOf (toLowerCase R) (wide (closeTagStr k)) pos
               = indexOf (toLowerCase R') (wide (closeTagStr k)) pos) ->
  forall fuel d pos e,
    findClose fuel R k d pos e = findClose fuel R' k d pos e.
Proof.
  intros Hlen Ho Hc. induction fuel as [|fuel IH]; intros d pos e.
  - now rewrite !findClose_zero, Hlen.
  - rewrite !findClose_unfold, Hlen, Ho, Hc.
    destruct ((pos <? length R') && (0 <? d)); [|reflexivity].
    destruct (indexOf (toLowerCase R') (wide (closeTagStr k)) pos) as [c|];
      [|reflexivity].
    destruct (indexOf (toLowerCase R') (wide (openTagStr k)) pos) as [o|];
      [destruct (o <? c)|]; apply IH.
Qed.

(** A block whose body holds no U+0130 and nothing that starts like a
    tag of its own kind is extracted whole, whatever tags of the other
    kind the body holds, and extraction goes on after its closer. *)
Lemma extract_other_kind (k : tagKind)
    (pre otag ctag ttl body rest : wstr) (out : list Block) :
  tagFree pre = true -> spelled k otag = true ->
  spelled k ctag = true -> titleOk ttl = true ->
  undotted body = true -> undotted rest = true ->
  includes (toLowerCase body) (wide (openTagStr k)) = false ->
  includes (toLowerCase body) (wide (closeTagStr k)) = false ->
  extractOutermostQuotes rest = Some out ->
  extractOutermostQuotes
    (pre ++ openTag otag ttl ++ body ++ closeTag ctag ++ rest)
  = Some ({| title := trim ttl; content := body |} :: out).
Proof.
  intros Hpre Ho Hc Ht Ub Ur Hbo Hbc Hrest.
  apply extracts_run.
  apply (extracts_block pre k); auto using scans_plain, extracts_of_run.
Qed.

(** C3. A lone [[spoiler=X]] inside a quote block does not always leave
    the quote's closer alone: on [[quote=A]], U+0130,
    [[spoiler=X]y[/quote]z] the extractor returns the block titled A
    with a content that ends in the opening bracket of [[/quote]],
    where the same text with [x] for U+0130 gives the content up to the
    closer.  Nor do quote tags alone change the depth kept for a quote:
    in [[quote=A][spoiler=B][quoted][/spoiler][/quote]] the word
    [[quoted]] counts as an opener, the quote is given up and the one
    block returned is the spoiler, titled B.  The text
    [[quote=A][spoiler=B]...[/spoiler][/quote]] yields the one block
    titled A. *)
Theorem extract_dotted_spoiler :
  extractOutermostQuotes
    (lit "[quote=A]" ++ [dottedI] ++ lit "[spoiler=X]y[/quote]z")
  = Some [{| title := lit "A";
             content := [dottedI] ++ lit "[spoiler=X]y[" |}]
  /\ extractOutermostQuotes (lit "[quote=A]x[spoiler=X]y[/quote]z")
     = Some [{| title := lit "A"; content := lit "x[spoiler=X]y" |}]
  /\ extractOutermostQuotes
       (lit "[quote=A][spoiler=B][quoted][/spoiler][/quote]")
     = Some [{| title := lit "B"; content := lit "[quoted]" |}]
  /\ extractOutermostQuotes (lit "[quote=A][spoiler=B]...[/spoiler][/quote]")
     = Some [{| title := lit "A";
                content := lit "[spoiler=B]...[/spoiler]" |}].
Proof. repeat split; vm_compute; reflexivity. Qed.


(** With U+0130 in the text the first copy may miss a later block too:
    the places it finds in the lower-case form lie further on than
    those of the text. *)
Example extract_dotted_unresumed :
  extractOutermostQuotes
    (lit "[quote=A]" ++ repeat dottedI 10 ++ lit "[quote=B]y[/quote]")
  = Some [].
Proof. vm_compute. reflexivity. Qed.



End BlocksFacts.

(** ** Objects used as dictionaries *)

Module ObjFacts.

Import StrFacts.

Lemma lookup_assign_same (A : Type) (k : str) (v : A) (o : list (str * A)) :
  lookup k (assign k v o) = Some v.
Proof.
  induction o as [|[k' v'] o IH]; simpl.
  - now rewrite str_eqb_refl.
  - destruct (str_eqb k k') eqn:E; simpl; rewrite E; [reflexivity | exact IH].
Qed.

Lemma lookup_assign_other (A : Type) (k k' : str) (v : A) (o : list (str * A)) :
  str_eqb k k' = false -> lookup k (assign k' v o) = lookup k o.
Proof.
  intros Hk. induction o as [|[k'' v''] o IH]; simpl.
  - now rewrite Hk.
  - destruct (str_eqb k' k'') eqn:E; simpl.
    + apply str_eqb_true in E; subst k''. now rewrite Hk.
    + now rewrite IH.
Qed.

Lemma names_assign (A : Type) (k : str) (v : A) (o : list (str * A)) (x : str) :
  In x (names (assign k v o)) -> x = k \/ In x (names o).
Proof.
  unfold names. induction o as [|[k' v'] o IH]; simpl.
  - intros [E | []]; left; now symmetry.
  - destruct (str_eqb k k') eqn:E; simpl.
    + intros [E' | H]; [right; left; exact E' | right; right; exact H].
    + intros [E' | H]; [right; left; exact E'|].
      destruct (IH H) as [-> | H']; [left; reflexivity | right; right; exact H'].
Qed.

(** *** The order of [Object.keys] *)

Lemma insertIndexed_perm (n : N) (k : str) (l : list (N * str)) :
  Permutation (insertIndexed n k l) ((n, k) :: l).
Proof.
  induction l as [|[m k'] l IH]; cbn [insertIndexed]; [reflexivity|].
  destruct (n <? m)%N; [reflexivity|].
  rewrite IH. apply perm_swap.
Qed.

Lemma indexed_perm (l : list str) : forall acc : list (N * str),
  Permutation
    (map snd
       (fold_left (fun l k =>
                     match arrayIndex k with
                     | Some n => insertIndexed n k l
                     | None => l
                     end) l acc))
    (map snd acc
     ++ filter (fun k => match arrayIndex k with
                         | Some _ => true
                         | None => false
                         end) l).
Proof.
  induction l as [|k l IH]; intros acc; cbn [fold_left filter].
  - now rewrite app_nil_r.
  - rewrite IH. destruct (arrayIndex k) as [n|]; [|reflexivity].
    rewrite (Permutation_map snd (insertIndexed_perm n k acc)).
    cbn [map snd app]. apply Permutation_middle.
Qed.

Lemma filter_partition (A : Type) (f : A -> bool) (l : list A) :
  Permutation (filter f l ++ filter (fun x => negb (f x)) l) l.
Proof.
  induction l as [|x l IH]; [reflexivity|].
  cbn [filter]. destruct (f x); cbn [negb app].
  - now constructor.
  - symmetry. apply Permutation_cons_app. now symmetry.
Qed.

(** [Object.keys] lists the names of the properties, each once. *)
Lemma keys_perm (A : Type) (o : list (str * A)) :
  Permutation (keys o) (names o).
Proof.
  unfold keys. rewrite indexed_perm. cbn [map app].
  set (isIdx := fun k => match arrayIndex k with
                         | Some _ => true
                         | None => false
                         end).
  assert (E : filter (fun k => match arrayIndex k with
                               | Some _ => false
                               | None => true
                               end) (names o)
              = filter (fun k => negb (isIdx k)) (names o)).
  { apply filter_ext. intros k. unfold isIdx. now destruct (arrayIndex k). }
  rewrite E. apply filter_partition.
Qed.

Lemma keys_In (A : Type) (o : list (str * A)) (k : str) :
  In k (keys o) <-> In k (names o).
Proof.
  split; apply Permutation_in; [|symmetry]; apply keys_perm.
Qed.


End ObjFacts.

(** ** The torrent decoder *)

Module TorrentFacts.

Import Torrent TorrentSpec.

Section Decoded.

Variable utf8 bufferText : list Byte.byte -> str.

Lemma toStr_present (parts : list RawText) :
  present parts = true ->
  mapThrowing (toStr utf8 bufferText) parts = Some (map (textOf utf8 bufferText) parts).
Proof.
  induction parts as [|p parts IH]; intros H; [reflexivity|].
  apply andb_true_iff in H as [Hp H]. cbn [mapThrowing map].
  rewrite (IH H). unfold textOf.
  destruct p as [s | b | [b|]]; [reflexivity.. | discriminate].
Qed.

Lemma fileEntry_present (file : BencodedFile) :
  present (file_path file) = true ->
  fileEntry utf8 bufferText file = Some (fileOf utf8 bufferText file).
Proof. intros H. unfold fileEntry. now rewrite (toStr_present _ H). Qed.

(** A multi-file torrent: one file per entry, in order, the path
    components joined with a slash and paired with the declared length. *)
Lemma parseDecoded_multi (decoded : BencodedTorrent) (inf : BencodedInfo)
    (n : str) (fs : list BencodedFile) :
  info decoded = Some inf -> toStr utf8 bufferText (info_name inf) = Some n ->
  info_files inf = Some fs ->
  forallb (fun file => present (file_path file)) fs = true ->
  parseDecoded utf8 bufferText decoded
  = Some {| name := n; files := map (fileOf utf8 bufferText) fs |}.
Proof.
  unfold parseDecoded. intros -> -> -> H.
  assert (E : mapThrowing (fileEntry utf8 bufferText) fs = Some (map (fileOf utf8 bufferText) fs)).
  { induction fs as [|f fs IH]; [reflexivity|].
    apply andb_true_iff in H as [Hf H]. cbn [mapThrowing map].
    now rewrite (fileEntry_present _ Hf), (IH H). }
  now rewrite E.
Qed.

(** A single-file torrent of non-zero length: the one file, named as the
    torrent. *)
Lemma parseDecoded_single (decoded : BencodedTorrent) (inf : BencodedInfo)
    (n : str) (len : Z) :
  info decoded = Some inf -> toStr utf8 bufferText (info_name inf) = Some n ->
  info_files inf = None -> info_length inf = Some len -> len <> 0%Z ->
  parseDecoded utf8 bufferText decoded
  = Some {| name := n; files := [{| path := n; size := len |}] |}.
Proof.
  unfold parseDecoded, truthy. intros -> -> -> -> Hlen.
  destruct (Z.eqb_spec len 0); [contradiction | reflexivity].
Qed.

(** Without a name nothing is returned, whatever else the dictionary
    holds. *)
Lemma parseDecoded_nameless (decoded : BencodedTorrent) :
  (forall inf, info decoded = Some inf -> info_name inf = Undefined) ->
  parseDecoded utf8 bufferText decoded = None.
Proof.
  unfold parseDecoded. intros H. destruct (info decoded) as [inf|];
    [|reflexivity].
  now rewrite (H inf eq_refl).
Qed.

End Decoded.

(** The multi-file example of the specification. *)
Example parseDecoded_show :
  parseDecoded asciiText asciiText showTorrent
  = Some {| name := lit "Show";
            files := [ {| path := lit "S01/e1.mkv"; size := 100%Z |};
                       {| path := lit "S01/e2.mkv"; size := 200%Z |} ] |}.
Proof. reflexivity. Qed.

(** C1, as the specification has it, fails: a file that decodes to a
    torrent with neither [files] nor [length] yields an entry with an
    empty file list, not a rejection. *)
Lemma parseTorrent_bare_resolves :
  info bareTorrent = Some bareInfo
  /\ info_files bareInfo = None
  /\ info_length bareInfo = None
  /\ parseTorrent asciiText asciiText (fun _ => Some []) (fun _ => Some bareTorrent)
       (lit "x.torrent")
     = Resolved {| name := lit "x"; files := [] |}
  /\ forall why,
       parseTorrent asciiText asciiText (fun _ => Some []) (fun _ => Some bareTorrent)
         (lit "x.torrent")
       <> Rejected why.
Proof. repeat split; discriminate. Qed.

(** C1, amended.  For every file that reads and decodes to a torrent
    whose info dictionary holds neither [files] nor [length],
    [parseTorrent] reports no decode error.  When [toStr] makes a string
    of the name -- the name is a string, a byte string, or a value of
    which [Buffer.from] makes a buffer -- the promise resolves to the
    entry with that name and an empty file list.  Otherwise -- the name
    is missing, or is a number or another value that [Buffer.from]
    refuses -- [toStr] throws and the promise is rejected with a
    [TypeError]. *)
Theorem parseTorrent_neither (utf8 bufferText : list Byte.byte -> str)
    (readFile : str -> option (list Byte.byte))
    (bdecode : list Byte.byte -> option BencodedTorrent)
    (torrentPath : str) (buffer : list Byte.byte)
    (decoded : BencodedTorrent) (inf : BencodedInfo) :
  readFile torrentPath = Some buffer -> bdecode buffer = Some decoded ->
  info decoded = Some inf ->
  info_files inf = None -> info_length inf = None ->
  parseTorrent utf8 bufferText readFile bdecode torrentPath
  = match toStr utf8 bufferText (info_name inf) with
    | Some n => Resolved {| name := n; files := [] |}
    | None => Rejected TypeError
    end
  /\ (toStr utf8 bufferText (info_name inf) = None
      <-> info_name inf = Other None).
Proof.
  unfold parseTorrent, parseDecoded. intros -> -> -> -> ->. split.
  - destruct (toStr utf8 bufferText (info_name inf)); reflexivity.
  - destruct (info_name inf) as [s | b | [b|]]; cbn [toStr]; split;
      intros H; solve [reflexivity | discriminate H].
Qed.

Lemma parseTorrent_neither_witness :
  parseTorrent asciiText asciiText (fun _ => Some []) (fun _ => Some bareTorrent)
    (lit "x.torrent")
  = Resolved {| name := lit "x"; files := [] |}
  /\ parseTorrent asciiText asciiText (fun _ => Some []) (fun _ => Some namelessTorrent)
       (lit "x.torrent")
     = Rejected TypeError.
Proof.
  split.
  - exact (proj1 (parseTorrent_neither asciiText asciiText (fun _ => Some [])
                    (fun _ => Some bareTorrent) (lit "x.torrent") []
                    bareTorrent bareInfo eq_refl eq_refl eq_refl eq_refl
                    eq_refl)).
  - exact (proj1 (parseTorrent_neither asciiText asciiText (fun _ => Some [])
                    (fun _ => Some namelessTorrent) (lit "x.torrent") []
                    namelessTorrent namelessInfo eq_refl eq_refl eq_refl
                    eq_refl eq_refl)).
Defined.

(** C8 at a single-file torrent of an empty file: [length] is present,
    and zero, so the test [else if (decoded.info.length)] fails and no
    file is emitted where the claim has exactly one, of size zero. *)
Theorem parseDecoded_zero_length :
  info emptyFileTorrent = Some emptyFileInfo
  /\ info_files emptyFileInfo = None
  /\ info_length emptyFileInfo = Some 0%Z
  /\ parseDecoded asciiText asciiText emptyFileTorrent
     = Some {| name := lit "empty.bin"; files := [] |}.
Proof. repeat split. Qed.

End TorrentFacts.
(** ** The MediaInfo parser *)

Module MediaInfoFacts.

Import MediaInfo MediaInfoSpec StrFacts ObjFacts.

(** *** Repeated keys *)


Lemma inherited_proto : inherited (lit "__proto__") = true.
Proof. reflexivity. Qed.





(** As long as no field is named [__proto__] the prototype stays. *)
Lemma protoArray_fold (lines : list str) : forall data,
  setsProto (fieldsOf lines) = false ->
  protoArray (fold_left addLine lines data) = protoArray data.
Proof.
  induction lines as [|line lines IH]; intros data H; [reflexivity|].
  cbn [fold_left]. unfold setsProto in H. cbn [fieldsOf flat_map] in H.
  fold (fieldsOf lines) in H. rewrite existsb_app in H.
  apply orb_false_iff in H as [H1 H2].
  rewrite (IH _ H2). unfold addLine.
  destruct (lineField line) as [[k v]|]; [|reflexivity].
  cbn [existsb fst] in H1. rewrite orb_false_r in H1.
  unfold storeField. now rewrite H1.
Qed.



(** C5 at a key that every object inherits: the section has no property
    [constructor] of its own when the line is read, yet [key in data]
    holds, and the one value is stored behind the inherited function, in
    an array, where the claim has it stored as a single value.  A key
    that is not inherited is stored as the claim says. *)
Theorem section_inherited_key :
  exists section,
    parseBlock
      (unescapeNewlines (lit "General\nconstructor : x\nFormat : Matroska"))
    = Some section
    /\ valuesOf (lit "constructor")
         (fieldsOf
            (tl (blockLines
                   (unescapeNewlines
                      (lit "General\nconstructor : x\nFormat : Matroska")))))
       = [lit "x"]
    /\ lookup (lit "constructor") (own (data section))
       = Some (Headed (ObjectMember (lit "constructor")) [lit "x"])
    /\ lookup (lit "Format") (own (data section))
       = Some (Single (lit "Matroska")).
Proof.
  eexists. split; [vm_compute; reflexivity|].
  repeat split; vm_compute; reflexivity.
Qed.


(** *** Sections and their headers *)

Lemma parseBlock_header (block : str) (s : MediaInfoSection) :
  parseBlock block = Some s ->
  base s = headerBase (header s) /\ index s = headerIndex (header s).
Proof.
  unfold parseBlock. destruct (blockLines block); [discriminate|].
  intros H; inversion H; subst; split; reflexivity.
Qed.

Lemma sections_header (blocks : list str) (s : MediaInfoSection) :
  In s (sections blocks) ->
  base s = headerBase (header s) /\ index s = headerIndex (header s).
Proof.
  unfold sections. rewrite in_flat_map. intros (b & _ & H).
  destruct (parseBlock b) as [s'|] eqn:E; [|contradiction].
  destruct H as [<- | []]. exact (parseBlock_header _ _ E).
Qed.


Lemma filter_within (A : Type) (f g : A -> bool) (l : list A) :
  (forall x, f x = true -> g x = true) ->
  filter f l = filter f (filter g l).
Proof.
  intros H. induction l as [|a l IH]; [reflexivity|].
  cbn [filter]. destruct (f a) eqn:Ef.
  - rewrite (H a Ef). cbn [filter]. now rewrite Ef, IH.
  - destruct (g a); cbn [filter]; [now rewrite Ef|]; exact IH.
Qed.

Lemma reportBlocks_empty : sections (reportBlocks []) = [].
Proof. reflexivity. Qed.

(** *** Headers with a stream number *)







(** *** Grouping by base name *)

Lemma parseBlocks_thrown (blocks : list str) :
  fold_left (fun result block =>
               match result with
               | None => None
               | Some parsed =>
                   match parseBlock block with
                   | Some section => pushSection parsed section
                   | None => Some parsed
                   end
               end) blocks None = None.
Proof. induction blocks as [|b blocks IH]; [reflexivity | exact IH]. Qed.

(** Filing throws for an inherited base name and for no other. *)
Lemma pushSection_files (r : MediaInfoParsed) (s : MediaInfoSection) :
  (forall k, In k (names r) -> inherited k = false) ->
  pushSection r s = if unfiled s then None else Some (fileSection r s).
Proof.
  intros Hr. unfold pushSection, read, unfiled, fileSection, sectionsOf.
  destruct (lookup (base s) r) as [l|] eqn:E.
  - assert (Hin : In (base s) (names r)).
    { clear - E. induction r as [|[k v] r IH]; [discriminate E|].
      cbn [lookup] in E. cbn [names map fst].
      destruct (str_eqb (base s) k) eqn:Ek.
      - left. symmetry. now apply str_eqb_true.
      - right. now apply IH. }
    now rewrite (Hr _ Hin).
  - destruct (inherited (base s)); reflexivity.
Qed.

Lemma names_fileSection (r : MediaInfoParsed) (s : MediaInfoSection) (k : str) :
  In k (names (fileSection r s)) -> k = base s \/ In k (names r).
Proof. apply names_assign. Qed.

Lemma parseBlocks_fold (blocks : list str) : forall acc,
  (forall k, In k (names acc) -> inherited k = false) ->
  fold_left (fun result block =>
               match result with
               | None => None
               | Some parsed =>
                   match parseBlock block with
                   | Some section => pushSection parsed section
                   | None => Some parsed
                   end
               end) blocks (Some acc)
  = if existsb unfiled (sections blocks) then None
    else Some (fold_left fileSection (sections blocks) acc).
Proof.
  induction blocks as [|b blocks IH]; intros acc Hacc; [reflexivity|].
  cbn [fold_left sections flat_map]. fold (sections blocks).
  destruct (parseBlock b) as [s|]; cbn [app].
  - rewrite (pushSection_files acc s Hacc). cbn [existsb fold_left].
    destruct (unfiled s) eqn:Eu; cbn [orb]; [apply parseBlocks_thrown|].
    apply IH. intros k Hk. apply names_fileSection in Hk as [-> | Hk];
      [exact Eu | now apply Hacc].
  - now apply IH.
Qed.

(** A report is filed section by section, unless the base name of one
    of its sections is inherited: then the parser throws. *)
Lemma parseBlocks_sections (blocks : list str) :
  parseBlocks blocks
  = if existsb unfiled (sections blocks) then None
    else Some (fold_left fileSection (sections blocks) []).
Proof. apply parseBlocks_fold. intros k []. Qed.

Lemma sectionsOf_fileSection (name : str) (r : MediaInfoParsed)
    (s : MediaInfoSection) :
  sectionsOf (fileSection r s) name
  = sectionsOf r name ++ (if str_eqb name (base s) then [s] else []).
Proof.
  unfold fileSection. unfold sectionsOf at 1.
  destruct (str_eqb name (base s)) eqn:E.
  - apply str_eqb_true in E; subst name. now rewrite lookup_assign_same.
  - rewrite app_nil_r, lookup_assign_other by exact E. reflexivity.
Qed.

(** The sections filed under a name are those of that base name, in
    document order. *)
Lemma sectionsOf_fold (name : str) (secs : list MediaInfoSection) :
  forall r,
    sectionsOf (fold_left fileSection secs r) name
    = sectionsOf r name ++ filter (fun s => str_eqb name (base s)) secs.
Proof.
  induction secs as [|s secs IH]; intros r; cbn [fold_left filter].
  - now rewrite app_nil_r.
  - rewrite IH, sectionsOf_fileSection, <- app_assoc.
    destruct (str_eqb name (base s)); reflexivity.
Qed.

(** Every name of the mapping is the base name of a section. *)
Lemma names_fold (secs : list MediaInfoSection) : forall r k,
  In k (names (fold_left fileSection secs r)) ->
  In k (names r) \/ exists s, In s secs /\ base s = k.
Proof.
  induction secs as [|s secs IH]; intros r k H; cbn [fold_left] in H.
  - left; exact H.
  - destruct (IH _ _ H) as [H' | (s' & Hin & E)].
    + apply names_fileSection in H' as [-> | H'].
      * right; exists s; split; [left; reflexivity | reflexivity].
      * left; exact H'.
    + right; exists s'; split; [right; exact Hin | exact E].
Qed.

(** C6 at a report that holds, after the block headed [Audio] and the
    block headed [Audio #2], a block headed [constructor]: filing that
    block under its base name throws, so parsing yields no audio
    sequence at all where the claim has the two streams.  Without the
    third block the two streams are returned in document order, both
    filed under [Audio], the second with the index 2. *)
Theorem audio_pair_inherited_header :
  let pair := lit "Audio\nFormat : AC-3\n\nAudio #2\nFormat : FLAC" in
  parseMediaInfo (pair ++ lit "\n\nconstructor\nFormat : x") = None
  /\ map header (sections (reportBlocks (pair ++ lit "\n\nconstructor\nFormat : x")))
     = [lit "Audio"; lit "Audio #2"; lit "constructor"]
  /\ option_map (fun parsed => option_map (map a_format)
                                 (audio (toStructured parsed)))
       (parseMediaInfo pair)
     = Some (Some [Some (lit "AC-3"); Some (lit "FLAC")])
  /\ option_map (fun parsed => map (fun s => (header s, base s, index s))
                                 (sectionsOf parsed (lit "Audio")))
       (parseMediaInfo pair)
     = Some [(lit "Audio", lit "Audio", None);
             (lit "Audio #2", lit "Audio", Some (Finite 2))].
Proof. cbv zeta. repeat split; vm_compute; reflexivity. Qed.


(** *** The HDR marker *)

Lemma getHDRInfo_by_label (v : VideoInfo) (rest : list VideoInfo)
    (label : str) :
  v_hdr_format v = Some label -> label <> [] ->
  getHDRInfo (Some (v :: rest)) = hdrByLabel label.
Proof.
  intros E Hne. unfold getHDRInfo. rewrite E.
  destruct label as [|c label]; [contradiction | reflexivity].
Qed.

Lemma getHDRInfo_by_transfer (v : VideoInfo) (rest : list VideoInfo) :
  v_hdr_format v = None \/ v_hdr_format v = Some [] ->
  getHDRInfo (Some (v :: rest)) = hdrByTransfer (v_transfer_characteristics v).
Proof.
  unfold getHDRInfo, hdrByTransfer. intros [-> | ->]; cbn [truthyStr];
    destruct (v_transfer_characteristics v); reflexivity.
Qed.

(** C7. The HDR marker of the first video stream: an explicit HDR-format
    label is matched against the keywords in the order dolby vision,
    hdr10+, hdr10, hlg, with HDR for any other label; the transfer
    characteristics are consulted only when there is no label (the
    field is undefined, or empty, which the condition takes for false),
    and then pq or smpte st 2084 give HDR10 and hlg gives HLG.  With no
    label and the transfer characteristics [SMPTE ST 2084] the marker is
    HDR10. *)
Theorem getHDRInfo_classifies (v : VideoInfo) (rest : list VideoInfo) :
  (forall label, v_hdr_format v = Some label -> label <> [] ->
     getHDRInfo (Some (v :: rest)) = hdrByLabel label)
  /\ (v_hdr_format v = None \/ v_hdr_format v = Some [] ->
        getHDRInfo (Some (v :: rest))
        = hdrByTransfer (v_transfer_characteristics v))
  /\ (v_hdr_format v = None ->
      v_transfer_characteristics v = Some (lit "SMPTE ST 2084") ->
        getHDRInfo (Some (v :: rest)) = lit "HDR10").
Proof.
  split; [|split].
  - apply getHDRInfo_by_label.
  - apply getHDRInfo_by_transfer.
  - intros E Et.
    rewrite (getHDRInfo_by_transfer v rest (or_introl E)), Et. reflexivity.
Qed.

Lemma getHDRInfo_classifies_witness :
  getHDRInfo (Some [videoWith None (Some (lit "SMPTE ST 2084"))]) = lit "HDR10"
  /\ getHDRInfo (Some [videoWith (Some (lit "Dolby Vision, HDR10+"))
                         (Some (lit "HLG"))]) = lit "DV"
  /\ getHDRInfo (Some [videoWith (Some (lit "SMPTE ST 2094 App 4, HDR10+ Profile B"))
                         None]) = lit "HDR10+"
  /\ getHDRInfo (Some [videoWith (Some []) (Some (lit "PQ"))]) = lit "HDR10".
Proof.
  split; [|split; [|split]].
  - apply (proj2 (proj2 (getHDRInfo_classifies
                           (videoWith None (Some (lit "SMPTE ST 2084"))) [])));
      reflexivity.
  - apply (proj1 (getHDRInfo_classifies
                    (videoWith (Some (lit "Dolby Vision, HDR10+"))
                       (Some (lit "HLG"))) [])
             (lit "Dolby Vision, HDR10+") eq_refl).
    discriminate.
  - apply (proj1 (getHDRInfo_classifies
                    (videoWith (Some (lit "SMPTE ST 2094 App 4, HDR10+ Profile B"))
                       None) [])
             (lit "SMPTE ST 2094 App 4, HDR10+ Profile B") eq_refl).
    discriminate.
  - apply (proj1 (proj2 (getHDRInfo_classifies
                           (videoWith (Some []) (Some (lit "PQ"))) []))).
    right; reflexivity.
Defined.

(** With a label present the transfer characteristics play no part. *)
Lemma getHDRInfo_label_first (v v' : VideoInfo) (rest rest' : list VideoInfo)
    (label : str) :
  v_hdr_format v = Some label -> v_hdr_format v' = Some label ->
  label <> [] ->
  getHDRInfo (Some (v :: rest)) = getHDRInfo (Some (v' :: rest')).
Proof.
  intros E E' Hne.
  rewrite (getHDRInfo_by_label v rest label E Hne).
  now rewrite (getHDRInfo_by_label v' rest' label E' Hne).
Qed.

(** The summary line of a report whose video stream gives no HDR format
    and the transfer characteristics [SMPTE ST 2084]. *)
Example summary_hdr10_fallback :
  option_map (fun parsed => generateSummary (toStructured parsed))
    (parseMediaInfo
       (lit "Video\nFormat : HEVC\nHeight : 2 160 pixels\nBit depth : 10 bits\nTransfer characteristics : SMPTE ST 2084"))
  = Some (lit "HEVC 10-bit 4K HDR10").
Proof. vm_compute. reflexivity. Qed.

(** *** The empty report *)

(** C10. On the empty string the pipeline gives empty results and no
    error: the empty mapping, the record of four nulls, and the empty
    summary. *)
Theorem empty_report :
  parseMediaInfo [] = Some []
  /\ toStructured []
     = {| general := None; video := None; audio := None; text := None |}
  /\ generateSummary
       {| general := None; video := None; audio := None; text := None |}
     = []
  /\ parseAndSummarize []
     = Some ([],
             {| general := None; video := None; audio := None; text := None |},
             []).
Proof. repeat split. Qed.

End MediaInfoFacts.

(** ** Language flags *)

Module LangFacts.

Import Lang LangSpec StrFacts.

Lemma filter_comm (A : Type) (f g : A -> bool) (l : list A) :
  filter f (filter g l) = filter g (filter f l).
Proof.
  induction l as [|a l IH]; [reflexivity|]. cbn [filter].
  destruct (f a) eqn:Ef, (g a) eqn:Eg; cbn [filter];
    rewrite ?Ef, ?Eg, IH; reflexivity.
Qed.

Lemma filter_absorb (A : Type) (f g : A -> bool) (l : list A) :
  (forall x, f x = true -> g x = true) ->
  filter f (filter g l) = filter f l.
Proof.
  intros H. induction l as [|a l IH]; [reflexivity|]. cbn [filter].
  destruct (g a) eqn:Eg; cbn [filter].
  - now rewrite IH.
  - destruct (f a) eqn:Ef; [|exact IH].
    rewrite (H a Ef) in Eg. discriminate.
Qed.

Lemma filter_and (A : Type) (f g : A -> bool) (l : list A) :
  filter f (filter g l) = filter (fun x => g x && f x) l.
Proof.
  induction l as [|a l IH]; [reflexivity|]. cbn [filter].
  destruct (g a); cbn [filter andb]; [destruct (f a)|]; now rewrite IH.
Qed.

Lemma filter_all (A : Type) (l : list A) : filter (fun _ => true) l = l.
Proof. induction l as [|a l IH]; [reflexivity|]. cbn [filter]. now rewrite IH. Qed.


(** *** First occurrences *)

Lemma firstOccurrences_filter (P : str -> bool) (l : list str) :
  firstOccurrences (filter P l) = filter P (firstOccurrences l).
Proof.
  induction l as [|a l IH]; [reflexivity|].
  cbn [filter firstOccurrences]. destruct (P a) eqn:Ea.
  - cbn [firstOccurrences filter]. rewrite IH. f_equal. apply filter_comm.
  - rewrite IH. symmetry. apply filter_absorb.
    intros x Hx. destruct (str_eqb x a) eqn:E; [|reflexivity].
    apply str_eqb_true in E; subst. congruence.
Qed.

Lemma firstOccurrences_In (x : str) (l : list str) :
  In x (firstOccurrences l) <-> In x l.
Proof.
  induction l as [|a l IH]; [reflexivity|]. cbn [firstOccurrences In].
  rewrite filter_In, IH. split.
  - intros [E | [H _]]; auto.
  - intros [E | H]; [left; exact E|].
    destruct (str_eqb x a) eqn:Ex.
    + apply str_eqb_true in Ex. left; now symmetry.
    + right; split; [exact H | reflexivity].
Qed.

Lemma firstOccurrences_NoDup (l : list str) : NoDup (firstOccurrences l).
Proof.
  induction l as [|a l IH]; cbn [firstOccurrences]; constructor.
  - rewrite filter_In. intros [_ H]. now rewrite str_eqb_refl in H.
  - now apply NoDup_filter.
Qed.

(** *** The loop of [getUniqueLanguageFlags] *)

Lemma canonicals_cons (l : str) (ls : list str) :
  canonicals (l :: ls)
  = if isEmpty (normalizeLanguage l) then canonicals ls
    else normalizeLanguage l :: canonicals ls.
Proof.
  unfold canonicals. cbn [map filter].
  destruct (isEmpty (normalizeLanguage l)); reflexivity.
Qed.

Lemma visit_thrown (ls : list str) : fold_left visit ls None = None.
Proof. induction ls as [|l ls IH]; [reflexivity | exact IH]. Qed.

Lemma visit_fold (ls : list str) : forall seen res,
  fold_left visit ls (Some (seen, res))
  = let fresh :=
      firstOccurrences
        (filter (fun x => negb (existsb (str_eqb x) seen)) (canonicals ls)) in
    match flagsOf fresh with
    | Some entries => Some (seen ++ fresh, res ++ entries)
    | None => None
    end.
Proof.
  induction ls as [|l ls IH]; intros seen res.
  - cbn. now rewrite !app_nil_r.
  - cbn [fold_left]. unfold visit at 2. rewrite canonicals_cons.
    destruct (isEmpty (normalizeLanguage l)) eqn:Ee; cbn [negb andb].
    + apply IH.
    + cbn [filter].
      destruct (existsb (str_eqb (normalizeLanguage l)) seen) eqn:Es;
        cbn [negb].
      * apply IH.
      * cbv zeta. cbn [firstOccurrences]. unfold flagsOf.
        cbn [mapThrowing]. unfold flagOf at 1.
        destruct (getLanguageFlag (normalizeLanguage l)) as [f|];
          cbn [option_map]; [|apply visit_thrown].
        rewrite IH. cbv zeta.
        rewrite <- firstOccurrences_filter, filter_and.
        assert (E : forall C,
                  filter (fun x => negb (existsb (str_eqb x)
                                           (seen ++ [normalizeLanguage l]))) C
                  = filter (fun x => negb (existsb (str_eqb x) seen)
                                     && negb (str_eqb x (normalizeLanguage l)))
                      C).
        { intros C. apply filter_ext. intros x.
          rewrite existsb_app. cbn [existsb]. rewrite orb_false_r.
          apply negb_orb. }
        rewrite E. unfold flagsOf.
        destruct (mapThrowing flagOf _) as [entries|]; [|reflexivity].
        now rewrite <- !app_assoc.
Qed.

(** The loop as a whole: the entries of the canonical languages of the
    labels, first occurrences only. *)
Lemma flags_canonical (languages : list str) :
  getUniqueLanguageFlags languages
  = flagsOf (firstOccurrences (canonicals languages)).
Proof.
  unfold getUniqueLanguageFlags. rewrite visit_fold. cbv zeta.
  rewrite filter_all.
  destruct (flagsOf (firstOccurrences (canonicals languages)));
    reflexivity.
Qed.

(** C9 at a list with the label [constructor]: the canonical language
    is [constructor], which the language table inherits as a member of
    every object, so the flag cannot be computed and the call throws
    where the claim has the two entries english and constructor.  On
    the example of the claim the two entries english and japanese are
    returned. *)
Theorem unique_flags_inherited_name :
  normalizeLanguage (lit "constructor") = lit "constructor"
  /\ getLanguageFlag (lit "constructor") = None
  /\ getUniqueLanguageFlags [lit "English"; lit "constructor"] = None
  /\ getUniqueLanguageFlags
       [lit "English"; lit "English (SDH)"; lit "Japanese"]
     = Some [ {| language := lit "english"; flag := [127482%N; 127480%N] |};
              {| language := lit "japanese";
                 flag := [127471%N; 127477%N] |} ].
Proof. repeat split; vm_compute; reflexivity. Qed.

(** The qualifier of a label is dropped: both spellings are english. *)
Example normalize_sdh :
  normalizeLanguage (lit "English (SDH)") = lit "english"
  /\ normalizeLanguage (lit "English SDH") = lit "english"
  /\ normalizeLanguage (lit "Chinese (Traditional)") = lit "chinese"
  /\ normalizeLanguage (lit "Cantonese") = lit "cantonese".
Proof. repeat split. Qed.

End LangFacts.

(** ** Reports: line endings, sections and grouping *)

Module ReportFacts.

Import MediaInfo MediaInfoSpec ReportSpec StrFacts ObjFacts MediaInfoFacts.

(** *** Unfolding the replacements *)

Lemma normalize_cons (c : ascii) (s : str) :
  normalizeLineEndings (c :: s) =
  if ascii_eqb c CR then
    LF :: match s with
          | d :: s'' =>
              if ascii_eqb d LF then normalizeLineEndings s''
              else normalizeLineEndings s
          | [] => []
          end
  else c :: normalizeLineEndings s.
Proof. destruct s; reflexivity. Qed.

Lemma unescape_cons (c : ascii) (s : str) :
  unescapeNewlines (c :: s) =
  if ascii_eqb c "\" then
    match s with
    | d :: s'' =>
        if ascii_eqb d "n" then LF :: unescapeNewlines s''
        else c :: unescapeNewlines s
    | [] => [c]
    end
  else c :: unescapeNewlines s.
Proof. destruct s; reflexivity. Qed.

Lemma list_ind2 (A : Type) (P : list A -> Prop) :
  P [] -> (forall a, P [a]) ->
  (forall a b l, P l -> P (b :: l) -> P (a :: b :: l)) ->
  forall l, P l.
Proof.
  intros H0 H1 H2 l.
  assert (H : P l /\ forall a, P (a :: l)).
  { induction l as [|b l [IH1 IH2]].
    - split; [exact H0 | exact H1].
    - split; [apply IH2 | intros a; apply H2; [exact IH1 | apply IH2]]. }
  exact (proj1 H).
Qed.

Lemma noCR_spec (s : str) : noCR s = true <-> ~ In CR s.
Proof.
  unfold noCR. rewrite forallb_forall. split.
  - intros H Hin. apply H in Hin. now rewrite ascii_eqb_refl in Hin.
  - intros H c Hc. destruct (ascii_eqb c CR) eqn:E; [|reflexivity].
    apply ascii_eqb_true in E; subst c. contradiction.
Qed.

Lemma noCR_cons (c : ascii) (s : str) :
  noCR (c :: s) = true -> ascii_eqb c CR = false /\ noCR s = true.
Proof.
  unfold noCR. cbn [forallb]. intros H. apply andb_true_iff in H as [H1 H2].
  split; [now apply negb_true_iff in H1 | exact H2].
Qed.

(** *** Line endings *)

Lemma normalize_no_CR (s : str) : ~ In CR (normalizeLineEndings s).
Proof.
  induction s as [|a|a b l IH1 IH2] using list_ind2.
  - intros [].
  - rewrite normalize_cons. destruct (ascii_eqb a CR) eqn:E.
    + intros [H | []]. discriminate H.
    + intros [H | []]. subst a. now rewrite ascii_eqb_refl in E.
  - rewrite normalize_cons. destruct (ascii_eqb a CR) eqn:E.
    + intros [H | H]; [discriminate H|].
      destruct (ascii_eqb b LF); [now apply IH1 | now apply IH2].
    + intros [H | H]; [subst a; now rewrite ascii_eqb_refl in E|].
      now apply IH2.
Qed.

Lemma normalize_id (s : str) : noCR s = true -> normalizeLineEndings s = s.
Proof.
  induction s as [|c s IH]; intros H; [reflexivity|].
  apply noCR_cons in H as [H1 H2].
  rewrite normalize_cons, H1. now rewrite IH.
Qed.

Lemma unescape_noCR (s : str) :
  noCR s = true -> noCR (unescapeNewlines s) = true.
Proof.
  induction s as [|a|a b l IH1 IH2] using list_ind2; intros H.
  - reflexivity.
  - rewrite unescape_cons. now destruct (ascii_eqb a "\").
  - rewrite unescape_cons.
    destruct (noCR_cons _ _ H) as [Ha Hb].
    destruct (noCR_cons _ _ Hb) as [Hb' Hl].
    assert (Hc : noCR (a :: unescapeNewlines (b :: l)) = true).
    { unfold noCR in *. cbn [forallb]. rewrite Ha. cbn [negb andb].
      now apply IH2. }
    destruct (ascii_eqb a "\"); [|exact Hc].
    destruct (ascii_eqb b "n"); [|exact Hc].
    unfold noCR in *. cbn [forallb]. now apply IH1.
Qed.

Lemma crlf_cons (c : ascii) (s : str) :
  crlf (c :: s) = (if ascii_eqb c LF then [CR; LF] else [c]) ++ crlf s.
Proof. reflexivity. Qed.

Lemma unescape_crlf_backslash (b : ascii) (l : str) :
  ascii_eqb b "n" = false ->
  unescapeNewlines ("\"%char :: crlf (b :: l))
  = "\"%char :: unescapeNewlines (crlf (b :: l)).
Proof.
  intros Hb. rewrite unescape_cons. cbn [ascii_eqb Ascii.eqb].
  change (ascii_eqb "\" "\") with true. cbv iota.
  rewrite crlf_cons. destruct (ascii_eqb b LF) eqn:E.
  - reflexivity.
  - cbn [app]. now rewrite Hb.
Qed.

Lemma normalize_unescape_crlf (t : str) :
  noCR t = true ->
  normalizeLineEndings (unescapeNewlines (crlf t)) = unescapeNewlines t.
Proof.
  induction t as [|a|a b l IH1 IH2] using list_ind2; intros H.
  - reflexivity.
  - apply noCR_cons in H as [Ha _]. rewrite crlf_cons.
    destruct (ascii_eqb a LF) eqn:E.
    + apply ascii_eqb_true in E; subst a. reflexivity.
    + cbn [app crlf flat_map]. rewrite unescape_cons.
      assert (Hn : normalizeLineEndings [a] = [a])
        by (rewrite normalize_cons, Ha; reflexivity).
      now destruct (ascii_eqb a "\").
  - destruct (noCR_cons _ _ H) as [Ha Hbl].
    destruct (noCR_cons _ _ Hbl) as [Hb Hl].
    destruct (ascii_eqb a LF) eqn:Ea.
    { apply ascii_eqb_true in Ea; subst a.
      rewrite crlf_cons, ascii_eqb_refl. cbn [app].
      rewrite (unescape_cons CR). change (ascii_eqb CR "\") with false.
      cbv iota. rewrite (unescape_cons LF (crlf (b :: l))).
      change (ascii_eqb LF "\") with false. cbv iota.
      rewrite normalize_cons, ascii_eqb_refl, ascii_eqb_refl.
      rewrite (unescape_cons LF (b :: l)).
      change (ascii_eqb LF "\") with false. cbv iota.
      now rewrite IH2. }
    rewrite crlf_cons, Ea. cbn [app].
    destruct (ascii_eqb a "\") eqn:Es.
    + apply ascii_eqb_true in Es; subst a.
      destruct (ascii_eqb b "n") eqn:Eb.
      * apply ascii_eqb_true in Eb; subst b.
        rewrite crlf_cons. change (ascii_eqb "n" LF) with false.
        cbv iota. cbn [app].
        rewrite unescape_cons, ascii_eqb_refl, ascii_eqb_refl.
        rewrite normalize_cons. change (ascii_eqb LF CR) with false.
        cbv iota.
        rewrite (unescape_cons "\" ("n"%char :: l)), ascii_eqb_refl,
          ascii_eqb_refl.
        now rewrite IH1.
      * rewrite (unescape_crlf_backslash b l Eb).
        rewrite normalize_cons, Ha.
        rewrite (unescape_cons "\" (b :: l)), ascii_eqb_refl, Eb.
        now rewrite IH2.
    + rewrite unescape_cons, Es, normalize_cons, Ha.
      rewrite (unescape_cons a (b :: l)), Es. now rewrite IH2.
Qed.

Lemma includes_cons (p : str) (c : ascii) (s : str) :
  includes (c :: s) p = startsWith p (c :: s) || includes s p.
Proof.
  unfold includes. cbn [find].
  destruct (startsWith p (c :: s)); [reflexivity|].
  now destruct (find p s).
Qed.

Lemma includes_nil (c : ascii) (p : str) : includes [] (c :: p) = false.
Proof. reflexivity. Qed.

Lemma startsWith_n_crlf (t : str) :
  startsWith (lit "n") (crlf t) = startsWith (lit "n") t.
Proof.
  destruct t as [|d t]; [reflexivity|].
  rewrite crlf_cons. destruct (ascii_eqb d LF) eqn:E.
  - apply ascii_eqb_true in E; subst d. reflexivity.
  - reflexivity.
Qed.

Lemma startsWith_pair (c : ascii) (s : str) :
  startsWith (lit "\n") (c :: s) = ascii_eqb "\" c && startsWith (lit "n") s.
Proof. reflexivity. Qed.

Lemma includes_crlf (t : str) :
  includes (crlf t) (lit "\n") = includes t (lit "\n").
Proof.
  induction t as [|c t IH]; [reflexivity|].
  rewrite crlf_cons, (includes_cons _ c t).
  destruct (ascii_eqb c LF) eqn:E.
  - apply ascii_eqb_true in E; subst c. cbn [app].
    rewrite !includes_cons, IH. reflexivity.
  - cbn [app]. rewrite includes_cons, IH.
    now rewrite !startsWith_pair, startsWith_n_crlf.
Qed.

Lemma isEmpty_crlf (t : str) : isEmpty (crlf t) = isEmpty t.
Proof.
  destruct t as [|c t]; [reflexivity|].
  rewrite crlf_cons. now destruct (ascii_eqb c LF).
Qed.

Lemma crlf_noCR_normalize (t : str) :
  noCR t = true -> normalizeLineEndings (crlf t) = t.
Proof.
  induction t as [|c t IH]; intros H; [reflexivity|].
  apply noCR_cons in H as [Hc Ht].
  rewrite crlf_cons. destruct (ascii_eqb c LF) eqn:E.
  - apply ascii_eqb_true in E; subst c. cbn [app].
    rewrite normalize_cons, !ascii_eqb_refl. now rewrite IH.
  - cbn [app]. rewrite normalize_cons, Hc. now rewrite IH.
Qed.

(** X1. A report saved with Windows line endings parses to the same
    result as the report with plain line feeds: for every text without
    carriage return, putting one before each line feed leaves
    [parseMediaInfo] unchanged. *)
Theorem parse_ignores_crlf (text : str) :
  noCR text = true ->
  parseMediaInfo (crlf text) = parseMediaInfo text.
Proof.
  intros H. unfold parseMediaInfo. rewrite isEmpty_crlf.
  destruct (isEmpty text); [reflexivity|].
  unfold reportBlocks. rewrite includes_crlf.
  destruct (includes text (lit "\n")).
  - now rewrite (normalize_unescape_crlf text H),
      (normalize_id _ (unescape_noCR _ H)).
  - now rewrite (crlf_noCR_normalize text H), (normalize_id text H).
Qed.

Lemma parse_ignores_crlf_witness :
  let text := unescapeNewlines (lit "Video\nFormat : HEVC\n\nAudio\nFormat : FLAC") in
  noCR text = true
  /\ crlf text <> text
  /\ parseMediaInfo (crlf text) = parseMediaInfo text.
Proof.
  cbv zeta. split; [reflexivity|]. split.
  - intros E. vm_compute in E. discriminate E.
  - apply parse_ignores_crlf. reflexivity.
Defined.

(** *** Escaped line feeds *)

Lemma escape_cons (c : ascii) (s : str) :
  escapeNewlines (c :: s)
  = (if ascii_eqb c LF then lit "\n" else [c]) ++ escapeNewlines s.
Proof. reflexivity. Qed.

Lemma unescape_id (x : str) :
  includes x (lit "\n") = false -> unescapeNewlines x = x.
Proof.
  induction x as [|a x IH]; intros H; [reflexivity|].
  rewrite includes_cons in H. apply orb_false_iff in H as [H1 H2].
  rewrite unescape_cons, (IH H2).
  destruct (ascii_eqb a "\") eqn:Ea; [|reflexivity].
  destruct x as [|d x]; [reflexivity|].
  apply ascii_eqb_true in Ea; subst a.
  rewrite startsWith_pair, ascii_eqb_refl in H1. cbn [andb] in H1.
  change (startsWith (lit "n") (d :: x)) with (ascii_eqb "n" d && true) in H1.
  rewrite andb_true_r in H1.
  destruct (ascii_eqb d "n") eqn:Ed; [|reflexivity].
  apply ascii_eqb_true in Ed; subst d. discriminate H1.
Qed.

Lemma unescape_escape (t : str) :
  includes t (lit "\n") = false ->
  unescapeNewlines (escapeNewlines t) = t.
Proof.
  induction t as [|a t IH]; intros H; [reflexivity|].
  rewrite includes_cons in H. apply orb_false_iff in H as [H1 H2].
  specialize (IH H2). rewrite escape_cons.
  destruct (ascii_eqb a LF) eqn:Ea.
  - apply ascii_eqb_true in Ea; subst a. cbn [lit list_ascii_of_string app].
    rewrite unescape_cons, !ascii_eqb_refl. now rewrite IH.
  - cbn [app]. rewrite unescape_cons.
    destruct (ascii_eqb a "\") eqn:Es; [|now rewrite IH].
    apply ascii_eqb_true in Es; subst a.
    destruct t as [|b t]; [reflexivity|].
    rewrite startsWith_pair, ascii_eqb_refl in H1. cbn [andb] in H1.
    change (startsWith (lit "n") (b :: t)) with (ascii_eqb "n" b && true) in H1.
    rewrite andb_true_r in H1.
    rewrite escape_cons in IH |- *. destruct (ascii_eqb b LF) eqn:Eb.
    + cbn [lit list_ascii_of_string app] in IH |- *.
      change (ascii_eqb "\" "n") with false. cbv iota. now rewrite IH.
    + cbn [app] in IH |- *.
      destruct (ascii_eqb b "n") eqn:Ebn.
      * apply ascii_eqb_true in Ebn; subst b. discriminate H1.
      * now rewrite IH.
Qed.

Lemma isEmpty_escape (t : str) : isEmpty (escapeNewlines t) = isEmpty t.
Proof.
  destruct t as [|c t]; [reflexivity|].
  rewrite escape_cons. now destruct (ascii_eqb c LF).
Qed.

(** X2. A report whose line feeds arrive spelled as backslash-n parses
    like the report itself: for every text that holds no backslash
    followed by [n], spelling each line feed as these two characters
    leaves [parseMediaInfo] unchanged. *)
Theorem parse_reads_escaped (text : str) :
  includes text (lit "\n") = false ->
  parseMediaInfo (escapeNewlines text) = parseMediaInfo text.
Proof.
  intros H. unfold parseMediaInfo. rewrite isEmpty_escape.
  destruct (isEmpty text); [reflexivity|].
  unfold reportBlocks. rewrite H.
  assert (E : (if includes (escapeNewlines text) (lit "\n")
               then unescapeNewlines (escapeNewlines text)
               else escapeNewlines text) = text).
  { destruct (includes (escapeNewlines text) (lit "\n")) eqn:Ei.
    - apply unescape_escape, H.
    - rewrite <- (unescape_id _ Ei). apply unescape_escape, H. }
  now rewrite E.
Qed.

Lemma parse_reads_escaped_witness :
  let text := unescapeNewlines (lit "Video\nFormat : HEVC\n\nText\nLanguage : English") in
  includes text (lit "\n") = false
  /\ escapeNewlines text = lit "Video\nFormat : HEVC\n\nText\nLanguage : English"
  /\ parseMediaInfo (escapeNewlines text) = parseMediaInfo text.
Proof.
  cbv zeta. split; [reflexivity|]. split; [reflexivity|].
  apply parse_reads_escaped. reflexivity.
Defined.

(** *** What every section holds *)

Lemma splitChar_no_sep (c : ascii) (s : str) :
  forall x, In x (splitChar c s) -> ~ In c x.
Proof.
  induction s as [|a s IH]; intros x Hx.
  - destruct Hx as [<- | []]. intros [].
  - cbn [splitChar] in Hx. destruct (ascii_eqb a c) eqn:E.
    + destruct Hx as [<- | Hx]; [intros [] | now apply IH].
    + destruct (splitChar c s) as [|p ps] eqn:Es.
      * destruct Hx as [<- | []]. intros [H | []]. subst a.
        now rewrite ascii_eqb_refl in E.
      * destruct Hx as [<- | Hx].
        -- intros [H | H]; [subst a; now rewrite ascii_eqb_refl in E|].
           exact (IH p (or_introl eq_refl) H).
        -- apply IH. now right.
Qed.

Lemma trimStart_suffix (s : str) :
  exists pre, s = pre ++ trimStart s.
Proof.
  induction s as [|c s [pre IH]].
  - now exists [].
  - cbn [trimStart]. destruct (is_space c).
    + exists (c :: pre). cbn [app]. now rewrite <- IH.
    + now exists [].
Qed.

Lemma trimStart_head (s : str) (c : ascii) (r : str) :
  trimStart s = c :: r -> is_space c = false.
Proof.
  induction s as [|a s IH]; [discriminate|].
  cbn [trimStart]. destruct (is_space a) eqn:E; [exact IH|].
  intros H. now inversion H; subst.
Qed.

Lemma trimStart_incl (s : str) (c : ascii) :
  In c (trimStart s) -> In c s.
Proof.
  destruct (trimStart_suffix s) as [pre E]. intros H.
  rewrite E. apply in_or_app. now right.
Qed.

Lemma trim_incl (s : str) (c : ascii) : In c (trim s) -> In c s.
Proof.
  unfold trim, trimEnd. intros H. apply in_rev in H.
  apply trimStart_incl in H. apply in_rev in H.
  now apply trimStart_incl in H.
Qed.

Lemma trimStart_keeps_last (l : str) (h : ascii) :
  is_space h = false -> exists w, trimStart (l ++ [h]) = w ++ [h].
Proof.
  intros Hh. induction l as [|a l [w IH]].
  - cbn [app trimStart]. rewrite Hh. now exists [].
  - cbn [app trimStart]. destruct (is_space a).
    + now exists w.
    + now exists (a :: l).
Qed.

(** After trimming, a text that starts with a visible character still
    does, and a trimmed text never starts with white space. *)
Lemma trim_visible_head (c : ascii) (x : str) :
  is_space c = false -> exists r, trim (c :: x) = c :: r.
Proof.
  intros Hc. unfold trim, trimEnd. cbn [trimStart]. rewrite Hc.
  cbn [rev]. destruct (trimStart_suffix (rev x ++ [c])) as [pre E].
  destruct (trimStart_keeps_last (rev x) c Hc) as [w Ew].
  rewrite Ew, rev_app_distr. cbn [rev app]. eauto.
Qed.

Lemma trim_head (s : str) (c : ascii) (r : str) :
  trim s = c :: r -> is_space c = false.
Proof.
  unfold trim, trimEnd. intros H.
  destruct (trimStart s) as [|h u] eqn:Eu; [discriminate H|].
  pose proof (trimStart_head _ _ _ Eu) as Hh.
  cbn [rev] in H.
  destruct (trimStart_keeps_last (rev u) h Hh) as [w Ew].
  rewrite Ew, rev_app_distr in H. cbn [rev app] in H.
  inversion H; now subst.
Qed.

Lemma headerLazy_prefix (rest : str) : forall g1 g o,
  headerLazy g1 rest = Some (g, o) -> exists x, g = g1 ++ x.
Proof.
  induction rest as [|c rest IH]; intros g1 g o H.
  - cbn [headerLazy] in H. destruct (headerTail []); [|discriminate H].
    inversion H; subst. exists []. now rewrite app_nil_r.
  - cbn [headerLazy] in H. destruct (headerTail (c :: rest)).
    + inversion H; subst. exists []. now rewrite app_nil_r.
    + destruct (is_dot c); [|discriminate H].
      apply IH in H as [x ->]. exists (c :: x).
      now rewrite <- app_assoc.
Qed.

Lemma headerBase_nonempty (c : ascii) (h : str) :
  is_space c = false -> headerBase (c :: h) <> [].
Proof.
  intros Hc. unfold headerBase, headerMatch.
  destruct (is_dot c); [|discriminate].
  destruct (headerLazy [c] h) as [[g o]|] eqn:E; [|discriminate].
  apply headerLazy_prefix in E as [x ->]. cbn [app].
  destruct (trim_visible_head c x Hc) as [r ->]. discriminate.
Qed.

Lemma lineField_key (line key value : str) :
  lineField line = Some (key, value) -> key <> [].
Proof.
  unfold lineField. destruct (negb (includes line (lit ":"))); [discriminate|].
  destruct (splitChar ":" line) as [|rawKey rest]; [discriminate|].
  destruct (trim rawKey) as [|k ks]; [discriminate|].
  cbn [isEmpty]. intros H. inversion H. discriminate.
Qed.

Lemma names_storeField (data : DataObject) (key value k : str) :
  In k (names (own (storeField data key value))) ->
  k = key \/ In k (names (own data)).
Proof.
  unfold storeField. destruct (str_eqb key (lit "__proto__")); cbn [own].
  - now right.
  - apply names_assign.
Qed.

Lemma names_addLine (lines : list str) : forall data,
  (forall k, In k (names (own data)) -> k <> []) ->
  forall k, In k (names (own (fold_left addLine lines data))) -> k <> [].
Proof.
  induction lines as [|line lines IH]; intros data Hd; [exact Hd|].
  cbn [fold_left]. apply IH. intros k Hk. unfold addLine in Hk.
  destruct (lineField line) as [[key value]|] eqn:E; [|now apply Hd].
  apply names_storeField in Hk as [-> | Hk]; [|now apply Hd].
  exact (lineField_key _ _ _ E).
Qed.

(** X3. Every section the parser builds has a non-empty header that
    holds no line feed and starts with a visible character, a non-empty
    base name, and only non-empty field names. *)
Theorem section_wellformed (block : str) (s : MediaInfoSection) :
  parseBlock block = Some s ->
  header s <> [] /\ ~ In LF (header s)
  /\ (forall c r, header s = c :: r -> is_space c = false)
  /\ base s <> []
  /\ (forall k, In k (keys (own (data s))) -> k <> []).
Proof.
  unfold parseBlock. destruct (blockLines block) as [|h fields] eqn:E;
    [discriminate|].
  intros H. inversion H; subst s; clear H. cbn [header base data].
  assert (Hin : In h (blockLines block)) by (rewrite E; now left).
  unfold blockLines in Hin. apply filter_In in Hin as [Hin Hne].
  apply in_map_iff in Hin as (x & Hx & Hsplit).
  assert (Hh : h <> []) by (intros ->; discriminate Hne).
  assert (Hv : forall c r, h = c :: r -> is_space c = false).
  { intros c r Ec. rewrite <- Hx in Ec. exact (trim_head _ _ _ Ec). }
  repeat split.
  - exact Hh.
  - intros Hlf. rewrite <- Hx in Hlf. apply trim_incl in Hlf.
    exact (splitChar_no_sep _ _ _ Hsplit Hlf).
  - exact Hv.
  - destruct h as [|c r]; [now elim Hh|].
    apply headerBase_nonempty. exact (Hv c r eq_refl).
  - intros k Hk. apply keys_In in Hk. revert k Hk.
    apply names_addLine. intros k [].
Qed.

Lemma section_wellformed_witness :
  exists s,
    parseBlock (unescapeNewlines (lit "  Audio #2 \n Format : AC-3\n: stray\nno colon here")) = Some s
    /\ header s = lit "Audio #2" /\ base s = lit "Audio"
    /\ keys (own (data s)) = [lit "Format"]
    /\ header s <> [] /\ ~ In LF (header s) /\ base s <> [].
Proof.
  destruct (parseBlock (unescapeNewlines (lit "  Audio #2 \n Format : AC-3\n: stray\nno colon here")))
    as [s|] eqn:E; [|discriminate E].
  exists s. destruct (section_wellformed _ s E) as (H1 & H2 & _ & H4 & _).
  vm_compute in E. inversion E; subst s.
  do 4 (split; [reflexivity|]). split; [exact H1|]. split; [exact H2|exact H4].
Defined.

(** *** How the sections are filed *)

Lemma parse_fold (text : str) :
  parseMediaInfo text
  = if existsb unfiled (sections (reportBlocks text)) then None
    else Some (fold_left fileSection (sections (reportBlocks text)) []).
Proof.
  unfold parseMediaInfo. destruct text as [|c text].
  - now rewrite reportBlocks_empty.
  - cbn [isEmpty]. apply parseBlocks_sections.
Qed.

(** The parser throws exactly on the reports with a section whose base
    name is inherited. *)
Lemma parse_throws (text : str) :
  parseMediaInfo text = None
  <-> exists s, In s (sections (reportBlocks text))
                /\ inherited (base s) = true.
Proof.
  rewrite parse_fold.
  destruct (existsb unfiled (sections (reportBlocks text))) eqn:E.
  - apply existsb_exists in E. split; [intros _; exact E | reflexivity].
  - split; [discriminate|]. intros H. apply existsb_exists in H.
    unfold unfiled in E at 1. rewrite H in E. discriminate E.
Qed.

Lemma parse_returns (text : str) (parsed : MediaInfoParsed) :
  parseMediaInfo text = Some parsed ->
  parsed = fold_left fileSection (sections (reportBlocks text)) [].
Proof.
  rewrite parse_fold.
  destruct (existsb unfiled (sections (reportBlocks text)));
    [discriminate|].
  intros E. now inversion E.
Qed.


Lemma lookup_names (A : Type) (k : str) (o : list (str * A)) :
  (exists v, lookup k o = Some v) <-> In k (names o).
Proof.
  induction o as [|[k' v'] o IH]; cbn [lookup names map fst].
  - split; [intros [v H]; discriminate H | intros []].
  - destruct (str_eqb k k') eqn:E.
    + apply str_eqb_true in E; subst k'. split; [now left | eauto].
    + rewrite IH. split; [now right|].
      intros [H | H]; [|exact H]. subst k'. now rewrite str_eqb_refl in E.
Qed.

Lemma names_assign_old (A : Type) (k : str) (v : A) (o : list (str * A)) :
  In k (names o) -> names (assign k v o) = names o.
Proof.
  induction o as [|[k' v'] o IH]; intros H; [destruct H|].
  cbn [assign]. destruct (str_eqb k k') eqn:E; [reflexivity|].
  cbn [names map fst] in *. f_equal. apply IH.
  destruct H as [H | H]; [|exact H].
  subst k'. now rewrite str_eqb_refl in E.
Qed.

Lemma names_assign_new (A : Type) (k : str) (v : A) (o : list (str * A)) :
  ~ In k (names o) -> names (assign k v o) = names o ++ [k].
Proof.
  induction o as [|[k' v'] o IH]; intros H; [reflexivity|].
  cbn [assign]. destruct (str_eqb k k') eqn:E.
  - apply str_eqb_true in E; subst k'. elim H. now left.
  - cbn [names map fst app] in *. f_equal. apply IH.
    intros Hk. apply H. right. exact Hk.
Qed.

Lemma names_push (r : MediaInfoParsed) (s : MediaInfoSection) :
  names (fileSection r s)
  = if existsb (str_eqb (base s)) (names r) then names r
    else names r ++ [base s].
Proof.
  unfold fileSection.
  destruct (existsb (str_eqb (base s)) (names r)) eqn:E.
  - apply existsb_exists in E as (k & Hk & Ek).
    apply str_eqb_true in Ek; subst k.
    now apply names_assign_old.
  - assert (Hn : ~ In (base s) (names r)).
    { intros Hk. assert (X : existsb (str_eqb (base s)) (names r) = true).
      { apply existsb_exists. exists (base s). split; [exact Hk|].
        apply str_eqb_refl. }
      rewrite X in E. discriminate E. }
    now apply names_assign_new.
Qed.

Lemma names_fold_NoDup (secs : list MediaInfoSection) : forall r,
  NoDup (names r) -> NoDup (names (fold_left fileSection secs r)).
Proof.
  induction secs as [|s secs IH]; intros r H; [exact H|].
  cbn [fold_left]. apply IH. rewrite names_push.
  destruct (existsb (str_eqb (base s)) (names r)) eqn:E; [exact H|].
  apply NoDup_app_remove_l with (l := []). cbn [app].
  rewrite <- (rev_involutive (names r ++ [base s])).
  apply NoDup_rev. rewrite rev_app_distr. cbn [rev app].
  constructor.
  - rewrite <- in_rev. intros Hk.
    assert (X : existsb (str_eqb (base s)) (names r) = true).
    { apply existsb_exists. exists (base s). split; [exact Hk|].
      apply str_eqb_refl. }
    rewrite X in E. discriminate E.
  - now apply NoDup_rev.
Qed.

Lemma names_fold_covers (secs : list MediaInfoSection) : forall r s,
  In s secs -> In (base s) (names (fold_left fileSection secs r)).
Proof.
  assert (Hkeep : forall secs r k,
             In k (names r) -> In k (names (fold_left fileSection secs r))).
  { clear. induction secs as [|s secs IH]; intros r k H; [exact H|].
    cbn [fold_left]. apply IH. rewrite names_push.
    destruct (existsb (str_eqb (base s)) (names r)); [exact H|].
    apply in_or_app. now left. }
  induction secs as [|s0 secs IH]; intros r s Hs; [destruct Hs|].
  cbn [fold_left]. destruct Hs as [<- | Hs]; [|now apply IH].
  apply Hkeep. rewrite names_push.
  destruct (existsb (str_eqb (base s0)) (names r)) eqn:E.
  - apply existsb_exists in E as (k & Hk & Ek).
    apply str_eqb_true in Ek. now subst k.
  - apply in_or_app. right. now left.
Qed.

(** X4. The parser throws exactly on the reports with a section whose
    base name is a member of [Object.prototype].  On every other report
    it returns the grouping of the sections by base name: the names it
    files them under are pairwise distinct and are exactly the base
    names of the sections; under each name stand the sections with that
    base name, in the order of the report, and at least one of them. *)
Theorem parsed_object (text : str) :
  match parseMediaInfo text with
  | None =>
      exists s, In s (sections (reportBlocks text))
                /\ inherited (base s) = true
  | Some parsed =>
      (forall s, In s (sections (reportBlocks text)) ->
                 inherited (base s) = false)
      /\ NoDup (keys parsed)
      /\ (forall k, In k (keys parsed)
                    <-> exists s, In s (sections (reportBlocks text))
                                  /\ base s = k)
      /\ (forall name,
            sectionsOf parsed name
            = filter (fun s => str_eqb name (base s))
                (sections (reportBlocks text)))
      /\ (forall k l, lookup k parsed = Some l -> l <> [])
  end.
Proof.
  destruct (parseMediaInfo text) as [parsed|] eqn:E;
    [|now apply parse_throws].
  pose proof (parse_returns _ _ E) as Ep.
  assert (Hk : forall k, In k (keys parsed)
                <-> exists s, In s (sections (reportBlocks text)) /\ base s = k).
  { intros k. rewrite keys_In, Ep. split.
    - intros H. apply names_fold in H as [[] | H]. exact H.
    - intros (s & Hs & <-). now apply names_fold_covers. }
  assert (Hg : forall name,
             sectionsOf parsed name
             = filter (fun s => str_eqb name (base s))
                 (sections (reportBlocks text))).
  { intros name. rewrite Ep, sectionsOf_fold. reflexivity. }
  split; [|split; [|split; [|split]]].
  - intros s Hs. destruct (inherited (base s)) eqn:Ei; [|reflexivity].
    assert (X : parseMediaInfo text = None) by (apply parse_throws; eauto).
    rewrite X in E. discriminate E.
  - apply (Permutation_NoDup (Permutation_sym (keys_perm _ parsed))).
    rewrite Ep. apply names_fold_NoDup. constructor.
  - exact Hk.
  - exact Hg.
  - intros k l Hl.
    assert (Hin : In k (keys parsed))
      by (apply keys_In, lookup_names; eauto).
    apply Hk in Hin as (s & Hs & Hb).
    pose proof (Hg k) as Eg.
    unfold sectionsOf in Eg. rewrite Hl in Eg. rewrite Eg.
    intros En.
    assert (X : In s (filter (fun s => str_eqb k (base s))
                        (sections (reportBlocks text)))).
    { apply filter_In. split; [exact Hs|]. rewrite Hb. apply str_eqb_refl. }
    rewrite En in X. destruct X.
Qed.

(** *** Reading a field *)



(** *** The streams of a structured report *)










(** *** Subtitle languages *)

Lemma setAdd_NoDup (seen : list str) (x : str) :
  NoDup seen -> NoDup (setAdd seen x).
Proof.
  intros H. unfold setAdd.
  destruct (existsb (str_eqb x) seen) eqn:E; [exact H|].
  rewrite <- (rev_involutive (seen ++ [x])).
  apply NoDup_rev. rewrite rev_app_distr. cbn [rev app].
  constructor; [|now apply NoDup_rev].
  rewrite <- in_rev. intros Hin.
  assert (X : existsb (str_eqb x) seen = true).
  { apply existsb_exists. exists x. split; [exact Hin | apply str_eqb_refl]. }
  rewrite X in E. discriminate E.
Qed.

Lemma setAdd_In (seen : list str) (x y : str) :
  In y (setAdd seen x) -> y = x \/ In y seen.
Proof.
  unfold setAdd. destruct (existsb (str_eqb x) seen); [now right|].
  intros H. apply in_app_or in H as [H | [H | []]]; [now right | now left].
Qed.

(** X27. The subtitle languages of a list of streams come without
    repetition, and each of them is the text before the first
    parenthesis of the language of one of the streams, trimmed. *)
Theorem subtitle_languages_distinct (texts : option (list TextInfo)) :
  NoDup (getSubtitleLanguages texts)
  /\ forall x, In x (getSubtitleLanguages texts) ->
       exists ts t l, texts = Some ts /\ In t ts /\ t_language t = Some l
                      /\ l <> [] /\ x = trim (hd [] (splitChar "(" l)).
Proof.
  destruct texts as [ts|]; [|split; [constructor | intros x []]].
  cbn [getSubtitleLanguages].
  set (step := fun (languages : list str) (t : TextInfo) =>
                 match t_language t with
                 | Some (c :: l) =>
                     setAdd languages (trim (hd [] (splitChar "(" (c :: l))))
                 | _ => languages
                 end).
  assert (G : forall ts0 acc,
             NoDup acc ->
             NoDup (fold_left step ts0 acc)
             /\ forall x, In x (fold_left step ts0 acc) ->
                  In x acc
                  \/ exists t l, In t ts0 /\ t_language t = Some l /\ l <> []
                                 /\ x = trim (hd [] (splitChar "(" l))).
  { induction ts0 as [|t ts0 IH]; intros acc Hacc.
    - split; [exact Hacc | intros x Hx; now left].
    - cbn [fold_left].
      assert (Hn : NoDup (step acc t)).
      { unfold step. destruct (t_language t) as [[|c l]|]; try exact Hacc.
        now apply setAdd_NoDup. }
      destruct (IH (step acc t) Hn) as [I1 I2]. split; [exact I1|].
      intros x Hx. destruct (I2 x Hx) as [Hin | (t' & l' & Ht' & Hl' & Hne & Ex)].
      + unfold step in Hin.
        destruct (t_language t) as [[|c l]|] eqn:El; try (now left).
        apply setAdd_In in Hin as [-> | Hin]; [|now left].
        right. exists t, (c :: l).
        repeat split; [now left | exact El | discriminate].
      + right. exists t', l'. repeat split; try assumption. now right. }
  destruct (G ts [] (NoDup_nil _)) as [G1 G2]. split; [exact G1|].
  intros x Hx. destruct (G2 x Hx) as [[] | (t & l & Ht & Hl & Hne & Ex)].
  exists ts, t, l. repeat split; assumption.
Qed.

End ReportFacts.

(** ** Language flags: composition and labels *)

Module FlagFacts.

Import Lang LangSpec FlagSpec StrFacts LangFacts.

Lemma flagsOf_languages (l : list str) : forall entries,
  flagsOf l = Some entries -> map language entries = l.
Proof.
  unfold flagsOf. induction l as [|c l IH]; intros entries;
    cbn [mapThrowing].
  - intros E. now inversion E.
  - unfold flagOf at 1. destruct (getLanguageFlag c); cbn [option_map];
      [|discriminate].
    destruct (mapThrowing flagOf l) as [es|]; [|discriminate].
    intros E. inversion E; subst. cbn [map language]. now rewrite (IH es).
Qed.

Lemma flagsOf_thrown (l : list str) :
  flagsOf l = None -> exists c, In c l /\ getLanguageFlag c = None.
Proof.
  unfold flagsOf. induction l as [|c l IH]; cbn [mapThrowing]; [discriminate|].
  unfold flagOf at 1. destruct (getLanguageFlag c) eqn:E; cbn [option_map].
  - destruct (mapThrowing flagOf l); [discriminate|]. intros _.
    destruct (IH eq_refl) as (x & Hx & Ex). exists x. split; [now right|easy].
  - intros _. exists c. split; [now left | exact E].
Qed.

Lemma flagsOf_throws (l : list str) (c : str) :
  In c l -> getLanguageFlag c = None -> flagsOf l = None.
Proof.
  unfold flagsOf. intros Hc E. induction l as [|d l IH]; [destruct Hc|].
  cbn [mapThrowing]. unfold flagOf at 1. destruct Hc as [-> | Hc].
  - now rewrite E.
  - destruct (getLanguageFlag d); cbn [option_map]; [|reflexivity].
    now rewrite (IH Hc).
Qed.

Lemma flagsOf_filter (P : str -> bool) (l : list str) : forall entries,
  flagsOf l = Some entries ->
  flagsOf (filter P l) = Some (filter (fun f => P (language f)) entries).
Proof.
  unfold flagsOf. induction l as [|c l IH]; intros entries;
    cbn [mapThrowing filter].
  - intros E. now inversion E.
  - unfold flagOf at 1. destruct (getLanguageFlag c) as [f|] eqn:Ef;
      cbn [option_map]; [|discriminate].
    destruct (mapThrowing flagOf l) as [es|]; [|discriminate].
    intros E. inversion E; subst. cbn [filter language].
    destruct (P c); cbn [mapThrowing].
    + unfold flagOf at 1. rewrite Ef. cbn [option_map].
      now rewrite (IH es eq_refl).
    + exact (IH es eq_refl).
Qed.

(** X8. The flags of a list of labels followed by another are the flags
    of the first list, unchanged and in place, followed by those flags of
    the second list whose language the first did not already give; and
    the call on the whole list throws exactly when the call on one of
    the two does. *)
Theorem unique_flags_app (a b : list str) :
  getUniqueLanguageFlags (a ++ b)
  = match getUniqueLanguageFlags a, getUniqueLanguageFlags b with
    | Some fa, Some fb =>
        Some (fa ++ filter (fun f => negb (listed fa f)) fb)
    | _, _ => None
    end.
Proof.
  unfold getUniqueLanguageFlags at 1. rewrite fold_left_app.
  rewrite (visit_fold a [] []). cbv zeta. cbn [app]. rewrite filter_all.
  rewrite (flags_canonical a), (flags_canonical b).
  set (FA := firstOccurrences (canonicals a)).
  set (FB := firstOccurrences (canonicals b)).
  destruct (flagsOf FA) as [fa|] eqn:Ea;
    [|now rewrite visit_thrown].
  rewrite visit_fold. cbv zeta. rewrite firstOccurrences_filter. fold FB.
  destruct (flagsOf FB) as [fb|] eqn:Eb.
  - rewrite (flagsOf_filter _ FB fb Eb). cbn [option_map snd].
    unfold listed. now rewrite (flagsOf_languages FA fa Ea).
  - destruct (flagsOf_thrown FB Eb) as (c & Hc & Ec).
    assert (Hn : existsb (str_eqb c) FA = false).
    { destruct (existsb (str_eqb c) FA) eqn:Ex; [|reflexivity].
      apply existsb_exists in Ex as (x & Hx & Ex).
      apply str_eqb_true in Ex; subst x.
      rewrite (flagsOf_throws FA c Hx Ec) in Ea. discriminate Ea. }
    rewrite (flagsOf_throws (filter _ FB) c); [reflexivity | | exact Ec].
    apply filter_In. split; [exact Hc | now rewrite Hn].
Qed.

(** *** Letter case and margins *)

Lemma lower_char_idem (c : ascii) : lower_char (lower_char c) = lower_char c.
Proof. destruct c as [[] [] [] [] [] [] [] []]; reflexivity. Qed.

Lemma lower_char_space (c : ascii) : is_space (lower_char c) = is_space c.
Proof. destruct c as [[] [] [] [] [] [] [] []]; reflexivity. Qed.

Lemma toLowerCase_idem (s : str) : toLowerCase (toLowerCase s) = toLowerCase s.
Proof.
  unfold toLowerCase. rewrite map_map. apply map_ext, lower_char_idem.
Qed.

Lemma toLowerCase_trimStart (s : str) :
  toLowerCase (trimStart s) = trimStart (toLowerCase s).
Proof.
  induction s as [|c s IH]; [reflexivity|].
  cbn [toLowerCase map trimStart]. rewrite lower_char_space.
  destruct (is_space c); [exact IH | reflexivity].
Qed.

Lemma toLowerCase_trim (s : str) : toLowerCase (trim s) = trim (toLowerCase s).
Proof.
  unfold trim, trimEnd, toLowerCase.
  rewrite map_rev. fold (toLowerCase (trimStart (rev (trimStart s)))).
  rewrite toLowerCase_trimStart. unfold toLowerCase at 1.
  rewrite map_rev. fold (toLowerCase (trimStart s)).
  now rewrite toLowerCase_trimStart.
Qed.

Lemma trimStart_visible (c : ascii) (s : str) :
  is_space c = false -> trimStart (c :: s) = c :: s.
Proof. intros H. cbn [trimStart]. now rewrite H. Qed.

Lemma trim_idem (s : str) : trim (trim s) = trim s.
Proof.
  destruct (trim s) as [|c r] eqn:E; [reflexivity|].
  pose proof (ReportFacts.trim_head _ _ _ E) as Hc.
  assert (Hlast : exists h w, rev (c :: r) = h :: w /\ is_space h = false).
  { unfold trim, trimEnd in E.
    destruct (trimStart (rev (trimStart s))) as [|h w] eqn:Ew.
    - discriminate E.
    - exists h, w. split.
      + rewrite <- E. now rewrite rev_involutive.
      + exact (ReportFacts.trimStart_head _ _ _ Ew). }
  destruct Hlast as (h & w & Hr & Hh).
  unfold trim, trimEnd. rewrite (trimStart_visible c r Hc).
  rewrite Hr, (trimStart_visible h w Hh), <- Hr.
  apply rev_involutive.
Qed.

Lemma isEmpty_lower (s : str) : isEmpty (toLowerCase s) = isEmpty s.
Proof. now destruct s. Qed.

(** X9. The flag of a label depends neither on its letter case nor on
    white space around it: the lower-case form of a label gets the same
    flag, and so does a label stripped of its margins, as long as
    something is left of it. *)
Theorem flag_ignores_case_and_margins (label : str) :
  getLanguageFlag (toLowerCase label) = getLanguageFlag label
  /\ (trim label <> [] -> getLanguageFlag (trim label) = getLanguageFlag label).
Proof.
  split.
  - unfold getLanguageFlag. now rewrite isEmpty_lower, toLowerCase_idem.
  - intros H. unfold getLanguageFlag.
    rewrite toLowerCase_trim, trim_idem.
    destruct (trim label) as [|c r] eqn:E; [now elim H|].
    destruct label; [discriminate E | reflexivity].
Qed.

Lemma flag_ignores_case_and_margins_witness :
  getLanguageFlag (lit "  JAPANESE ") = getLanguageFlag (lit "japanese")
  /\ getLanguageFlag (lit "japanese") = Some [127471%N; 127477%N].
Proof.
  split; [|reflexivity].
  destruct (flag_ignores_case_and_margins (lit "  JAPANESE ")) as [H1 H2].
  rewrite <- H1. symmetry. apply (proj2 (flag_ignores_case_and_margins
                                           (toLowerCase (lit "  JAPANESE ")))).
  discriminate.
Defined.

(** *** Labels without a language name *)

Lemma lookup_unkeyed (A : Type) (n : str) (o : list (str * A)) :
  (n = [] \/ exists r, n = "("%char :: r) ->
  forallb (fun kv => match fst kv with
                     | [] => false
                     | c :: _ => negb (ascii_eqb c "(")
                     end) o = true ->
  lookup n o = None.
Proof.
  intros Hn. induction o as [|[k v] o IH]; intros H; [reflexivity|].
  cbn [forallb fst] in H. apply andb_true_iff in H as [Hk Ho].
  cbn [lookup]. destruct k as [|c k]; [discriminate Hk|].
  assert (E : str_eqb n (c :: k) = false).
  { destruct Hn as [-> | [r ->]]; [reflexivity|].
    cbn [str_eqb]. apply negb_true_iff in Hk.
    destruct (ascii_eqb "(" c) eqn:Ec; [|reflexivity].
    apply ascii_eqb_true in Ec; subst c. discriminate Hk. }
  rewrite E. now apply IH.
Qed.

Lemma blank_head (n : str) :
  (n = [] \/ forall c r, n = c :: r -> is_space c = false) ->
  trim (hd [] (splitChar "(" n)) = [] ->
  n = [] \/ exists r, n = "("%char :: r.
Proof.
  intros Hn Hb. destruct n as [|c r]; [now left|]. right.
  destruct Hn as [Hn | Hn]; [discriminate Hn|].
  specialize (Hn c r eq_refl).
  cbn [splitChar] in Hb. destruct (ascii_eqb c "(") eqn:Ec.
  - apply ascii_eqb_true in Ec; subst c. eauto.
  - exfalso. destruct (splitChar "(" r) as [|p ps]; cbn [hd] in Hb.
    + destruct (ReportFacts.trim_visible_head c [] Hn) as [x Ex].
      rewrite Ex in Hb. discriminate Hb.
    + destruct (ReportFacts.trim_visible_head c p Hn) as [x Ex].
      rewrite Ex in Hb. discriminate Hb.
Qed.

Lemma partialMatch_cons (n key country : str) (rest : list (str * str)) :
  partialMatch n ((key, country) :: rest)
  = if startsWith key n || startsWith (trim (hd [] (splitChar "(" n))) key
    then Some country else partialMatch n rest.
Proof. reflexivity. Qed.

(** X10. A label that is not empty but names no language before its
    first parenthesis (only white space, or a parenthesis right away)
    gets the flag of the first entry of the language table, South
    Africa: the empty name is a prefix of every key. *)
Theorem flag_of_nameless_label (label : str) :
  label <> [] -> labelHead label = [] ->
  getLanguageFlag label = Some (countryCodeToFlag (lit "ZA")).
Proof.
  intros Hl Hb. unfold labelHead in Hb. unfold getLanguageFlag.
  destruct label as [|c0 l0]; [now elim Hl|]. cbn [isEmpty].
  set (n := trim (toLowerCase (c0 :: l0))) in *.
  assert (Hn : n = [] \/ exists r, n = "("%char :: r).
  { apply blank_head; [|exact Hb].
    destruct n as [|c r] eqn:En; [now left|]. right.
    intros c' r' E. inversion E; subst c' r'.
    exact (ReportFacts.trim_head _ _ _ En). }
  unfold read.
  rewrite (lookup_unkeyed _ n languageToCountry Hn) by (vm_compute; reflexivity).
  assert (Hi : inherited n = false)
    by (destruct Hn as [-> | [r ->]]; reflexivity).
  rewrite Hi.
  change languageToCountry
    with ((lit "afrikaans", lit "ZA") :: tl languageToCountry).
  rewrite partialMatch_cons, Hb. cbn [startsWith].
  now rewrite orb_true_r.
Qed.

Lemma flag_of_nameless_label_witness :
  getLanguageFlag (lit " ") = Some [127487%N; 127462%N]
  /\ getLanguageFlag (lit "(Forced)") = Some [127487%N; 127462%N]
  /\ getLanguageFlag [] = Some whiteFlag.
Proof.
  split; [|split].
  - apply (flag_of_nameless_label (lit " ")); [discriminate | reflexivity].
  - apply (flag_of_nameless_label (lit "(Forced)"));
      [discriminate | reflexivity].
  - reflexivity.
Defined.


(** *** Labels that change nothing *)

Lemma normalizeLanguage_lower (l : str) :
  normalizeLanguage (toLowerCase l) = normalizeLanguage l.
Proof.
  unfold normalizeLanguage. rewrite isEmpty_lower, toLowerCase_idem.
  destruct (isEmpty l); [reflexivity|].
  assert (E : forall es, regionalMatch (toLowerCase l) es = regionalMatch l es).
  { induction es as [|[key value] es IH]; [reflexivity|].
    cbn [regionalMatch]. now rewrite toLowerCase_idem, IH. }
  now rewrite E.
Qed.

Lemma canonicals_lower (ls : list str) :
  canonicals (map toLowerCase ls) = canonicals ls.
Proof.
  unfold canonicals. rewrite map_map. f_equal.
  apply map_ext, normalizeLanguage_lower.
Qed.

Lemma canonicals_nonempty (ls : list str) :
  canonicals (filter (fun l => negb (isEmpty l)) ls) = canonicals ls.
Proof.
  induction ls as [|l ls IH]; [reflexivity|].
  cbn [filter]. destruct l as [|c l].
  - cbn [isEmpty negb]. rewrite canonicals_cons. exact IH.
  - cbn [isEmpty negb]. rewrite !canonicals_cons. now rewrite IH.
Qed.

(** X26. The list of flags does not change when the labels are put in
    lower case, nor when the empty labels are taken out of the list
    beforehand, as the callers do. *)
Theorem unique_flags_stable (languages : list str) :
  getUniqueLanguageFlags (map toLowerCase languages)
  = getUniqueLanguageFlags languages
  /\ getUniqueLanguageFlags (filter (fun l => negb (isEmpty l)) languages)
     = getUniqueLanguageFlags languages.
Proof.
  rewrite !flags_canonical, canonicals_lower, canonicals_nonempty.
  split; reflexivity.
Qed.

End FlagFacts.

(** ** Reports: the blocks of a well-formed report *)

Module SplitFacts.

Import MediaInfo MediaInfoSpec ReportSpec StrFacts MediaInfoFacts.

Lemma splitFrom_cons (cur : str) (c : ascii) (s : str) :
  splitBlocksFrom 0 cur (c :: s) =
  if ascii_eqb c LF then
    match separatorTail s with
    | Some n => rev cur :: splitBlocksFrom n [] s
    | None => splitBlocksFrom 0 (c :: cur) s
    end
  else splitBlocksFrom 0 (c :: cur) s.
Proof. reflexivity. Qed.

Lemma separatorTail_visible (d : ascii) (s : str) :
  is_space d = false -> separatorTail (d :: s) = None.
Proof. intros H. cbn [separatorTail]. now rewrite H. Qed.

Lemma visible_not_LF (c : ascii) : is_space c = false -> ascii_eqb c LF = false.
Proof.
  intros H. destruct (ascii_eqb c LF) eqn:E; [|reflexivity].
  apply ascii_eqb_true in E; subst c. discriminate H.
Qed.

Lemma tightFrom_cons (c d : ascii) (b : str) :
  tightFrom (c :: d :: b)
  = (if ascii_eqb c LF then negb (is_space d) else true) && tightFrom (d :: b).
Proof. reflexivity. Qed.

(** Inside a tight block nothing separates: its characters all go to
    the current piece. *)
Lemma tight_scan (b : str) :
  tightFrom b = true ->
  forall cur rest,
    splitBlocksFrom 0 cur (b ++ rest) = splitBlocksFrom 0 (rev b ++ cur) rest.
Proof.
  induction b as [|c b IH]; [discriminate|].
  destruct b as [|d b]; intros H cur rest.
  - cbn [tightFrom] in H. apply negb_true_iff in H.
    cbn [app rev]. now rewrite splitFrom_cons, (visible_not_LF c H).
  - rewrite tightFrom_cons in H. apply andb_true_iff in H as [H1 H2].
    change ((c :: d :: b) ++ rest) with (c :: (d :: b) ++ rest).
    rewrite splitFrom_cons.
    assert (E : splitBlocksFrom 0 (c :: cur) ((d :: b) ++ rest)
                = splitBlocksFrom 0 (rev (c :: d :: b) ++ cur) rest).
    { rewrite (IH H2). f_equal. cbn [rev]. now rewrite <- !app_assoc. }
    destruct (ascii_eqb c LF); [|exact E].
    apply negb_true_iff in H1. cbn [app].
    rewrite (separatorTail_visible d _ H1). exact E.
Qed.

Lemma separatorTail_cons (c : ascii) (s : str) :
  separatorTail (c :: s) =
  if is_space c then
    match separatorTail s with
    | Some n => Some (S n)
    | None => if ascii_eqb c LF then Some 1 else None
    end
  else None.
Proof. reflexivity. Qed.

Lemma blank_line_splits (cur : str) (d : ascii) (r : str) :
  is_space d = false ->
  splitBlocksFrom 0 cur (blankLine ++ d :: r)
  = rev cur :: splitBlocksFrom 0 [] (d :: r).
Proof.
  intros H. unfold blankLine. cbn [app]. rewrite splitFrom_cons, ascii_eqb_refl.
  rewrite separatorTail_cons, (separatorTail_visible d r H), ascii_eqb_refl.
  change (is_space LF) with true. cbv iota. reflexivity.
Qed.

Lemma wellFormedBlock_spec (b : str) :
  wellFormedBlock b = true ->
  (exists c r, b = c :: r /\ is_space c = false)
  /\ tightFrom b = true /\ forallb ordinary b = true.
Proof.
  unfold wellFormedBlock. intros H.
  apply andb_true_iff in H as [H H3]. apply andb_true_iff in H as [H1 H2].
  repeat split; try assumption.
  destruct b as [|c r]; [discriminate H1|].
  exists c, r. split; [reflexivity | now apply negb_true_iff in H1].
Qed.

Lemma join_cons2 (sep b b2 : str) (bs : list str) :
  join sep (b :: b2 :: bs) = b ++ sep ++ join sep (b2 :: bs).
Proof. reflexivity. Qed.

Lemma join_head (sep : str) (c : ascii) (r : str) (bs : list str) :
  exists r', join sep ((c :: r) :: bs) = c :: r'.
Proof. destruct bs; cbn [join app]; eauto. Qed.

Lemma blank_line_join (cur b2 : str) (bs : list str) :
  wellFormedBlock b2 = true ->
  splitBlocksFrom 0 cur (blankLine ++ join blankLine (b2 :: bs))
  = rev cur :: splitBlocksFrom 0 [] (join blankLine (b2 :: bs)).
Proof.
  intros H.
  destruct (wellFormedBlock_spec b2 H) as ((d & r & -> & Hd) & _ & _).
  destruct bs as [|b3 bs].
  - cbn [join]. now apply blank_line_splits.
  - rewrite join_cons2. cbn [app]. now apply blank_line_splits.
Qed.

Lemma split_join (blocks : list str) :
  blocks <> [] -> forallb wellFormedBlock blocks = true ->
  splitBlocks (join blankLine blocks) = blocks.
Proof.
  unfold splitBlocks. induction blocks as [|b bs IH]; [intros H; now elim H|].
  intros _ H. cbn [forallb] in H. apply andb_true_iff in H as [Hb Hbs].
  destruct (wellFormedBlock_spec b Hb) as (_ & Ht & _).
  destruct bs as [|b2 bs].
  - cbn [join]. rewrite <- (app_nil_r b) at 1.
    rewrite (tight_scan b Ht). cbn [splitBlocksFrom].
    now rewrite app_nil_r, rev_involutive.
  - rewrite join_cons2, (tight_scan b Ht), app_nil_r.
    pose proof Hbs as Hbs'. cbn [forallb] in Hbs'.
    apply andb_true_iff in Hbs' as [Hb2 _].
    rewrite (blank_line_join _ b2 bs Hb2), rev_involutive.
    f_equal. apply IH; [discriminate | exact Hbs].
Qed.

(** *** The normalisation leaves such a report alone *)

Lemma forallb_weaken (A : Type) (P Q : A -> bool) (l : list A) :
  (forall x, P x = true -> Q x = true) ->
  forallb P l = true -> forallb Q l = true.
Proof.
  intros H. rewrite !forallb_forall. intros Hl x Hx. now apply H, Hl.
Qed.

Lemma forallb_join (Q : ascii -> bool) (sep : str) (bs : list str) :
  forallb Q sep = true -> forallb (forallb Q) bs = true ->
  forallb Q (join sep bs) = true.
Proof.
  intros Hs. induction bs as [|b bs IH]; intros H; [reflexivity|].
  cbn [forallb] in H. apply andb_true_iff in H as [Hb Hbs].
  destruct bs as [|b2 bs]; [exact Hb|].
  rewrite join_cons2, !forallb_app, Hb, Hs. now rewrite IH.
Qed.

Lemma blocks_satisfy (Q : ascii -> bool) (bs : list str) :
  (forall c, ordinary c = true -> Q c = true) ->
  forallb wellFormedBlock bs = true -> forallb (forallb Q) bs = true.
Proof.
  intros HQ. apply forallb_weaken. intros b Hb.
  destruct (wellFormedBlock_spec b Hb) as (_ & _ & Ho).
  exact (forallb_weaken _ _ _ _ HQ Ho).
Qed.

Lemma ordinary_spec (c : ascii) :
  ordinary c = true ->
  ascii_eqb c CR = false /\ ascii_eqb c (ascii_of_nat 194) = false
  /\ ascii_eqb c "\" = false.
Proof.
  unfold ordinary. intros H.
  apply andb_true_iff in H as [H H3]. apply andb_true_iff in H as [H1 H2].
  repeat split; now apply negb_true_iff.
Qed.

Lemma nbsp_id (s : str) :
  forallb (fun c => negb (ascii_eqb c (ascii_of_nat 194))) s = true ->
  replaceNbspArtifacts s = s.
Proof.
  induction s as [|c s IH]; intros H; [reflexivity|].
  cbn [forallb] in H. apply andb_true_iff in H as [Hc Hs].
  apply negb_true_iff in Hc.
  assert (E : replaceNbspArtifacts (c :: s) = c :: replaceNbspArtifacts s).
  { destruct s; cbn [replaceNbspArtifacts]; now rewrite Hc. }
  now rewrite E, IH.
Qed.

Lemma not_escaped (s : str) :
  forallb (fun c => negb (ascii_eqb c "\")) s = true ->
  includes s (lit "\n") = false.
Proof.
  induction s as [|c s IH]; intros H; [reflexivity|].
  cbn [forallb] in H. apply andb_true_iff in H as [Hc Hs].
  apply negb_true_iff in Hc.
  rewrite ReportFacts.includes_cons, (IH Hs), ReportFacts.startsWith_pair.
  destruct (ascii_eqb "\" c) eqn:E; [|reflexivity].
  apply ascii_eqb_true in E; subst c. discriminate Hc.
Qed.

Lemma tightFrom_last (b : str) :
  tightFrom b = true -> exists h w, rev b = h :: w /\ is_space h = false.
Proof.
  induction b as [|c b IH]; [discriminate|].
  destruct b as [|d b]; intros H.
  - cbn [tightFrom] in H. exists c, []. split; [reflexivity|].
    now apply negb_true_iff in H.
  - rewrite tightFrom_cons in H. apply andb_true_iff in H as [_ H].
    destruct (IH H) as (h & w & E & Hh).
    exists h, (w ++ [c]). split; [|exact Hh].
    change (rev (c :: d :: b)) with (rev (d :: b) ++ [c]). now rewrite E.
Qed.

Lemma join_last (sep : str) (bs : list str) :
  bs <> [] -> forallb wellFormedBlock bs = true ->
  exists h w, rev (join sep bs) = h :: w /\ is_space h = false.
Proof.
  induction bs as [|b bs IH]; [intros H; now elim H|].
  intros _ H. cbn [forallb] in H. apply andb_true_iff in H as [Hb Hbs].
  destruct bs as [|b2 bs].
  - destruct (wellFormedBlock_spec b Hb) as (_ & Ht & _).
    exact (tightFrom_last b Ht).
  - destruct (IH ltac:(discriminate) Hbs) as (h & w & E & Hh).
    rewrite join_cons2, !rev_app_distr, E. cbn [app]. eauto.
Qed.

Lemma trim_tight (s : str) :
  (exists c r, s = c :: r /\ is_space c = false) ->
  (exists h w, rev s = h :: w /\ is_space h = false) ->
  trim s = s.
Proof.
  intros (c & r & -> & Hc) (h & w & E & Hh). unfold trim, trimEnd.
  rewrite (FlagFacts.trimStart_visible c r Hc), E,
    (FlagFacts.trimStart_visible h w Hh), <- E.
  apply rev_involutive.
Qed.

(** X30. A report written as blocks separated by one empty line is cut
    into exactly these blocks, in order, when each block starts and ends
    with a visible character, has no line feed followed by white space,
    and holds no carriage return, backslash or byte 0xC2: the
    normalisation leaves the text alone and nothing but the empty lines
    separates. *)
Theorem blocks_recovered (blocks : list str) :
  blocks <> [] -> forallb wellFormedBlock blocks = true ->
  reportBlocks (join blankLine blocks) = blocks.
Proof.
  intros Hne H. unfold reportBlocks.
  set (text := join blankLine blocks).
  assert (Hq : forall Q : ascii -> bool,
             Q LF = true -> (forall c, ordinary c = true -> Q c = true) ->
             forallb Q text = true).
  { intros Q HL HQ. apply forallb_join.
    - cbn [blankLine forallb]. now rewrite HL.
    - now apply blocks_satisfy. }
  rewrite (not_escaped text)
    by (apply Hq; [reflexivity | intros c Hc; apply ordinary_spec in Hc;
                                 now destruct Hc as (_ & _ & ->)]).
  rewrite (ReportFacts.normalize_id text)
    by (apply Hq; [reflexivity | intros c Hc; apply ordinary_spec in Hc;
                                 now destruct Hc as (-> & _ & _)]).
  rewrite (nbsp_id text)
    by (apply Hq; [reflexivity | intros c Hc; apply ordinary_spec in Hc;
                                 now destruct Hc as (_ & -> & _)]).
  rewrite trim_tight.
  - now apply split_join.
  - destruct blocks as [|b bs]; [now elim Hne|].
    cbn [forallb] in H. apply andb_true_iff in H as [Hb _].
    destruct (wellFormedBlock_spec b Hb) as ((c & r & -> & Hc) & _ & _).
    destruct (join_head blankLine c r bs) as [r' Er].
    exists c, r'. split; [exact Er | exact Hc].
  - now apply join_last.
Qed.

Lemma blocks_recovered_witness :
  let blocks :=
    [ unescapeNewlines (lit "General\nFormat : Matroska");
      unescapeNewlines (lit "Video\nFormat : HEVC\nBit depth : 10 bits");
      unescapeNewlines (lit "Text #1\nLanguage : English") ] in
  reportBlocks (join blankLine blocks) = blocks
  /\ map (option_map base) (map parseBlock blocks)
     = [Some (lit "General"); Some (lit "Video"); Some (lit "Text")].
Proof.
  cbv zeta. split; [|reflexivity].
  apply (blocks_recovered
           [ unescapeNewlines (lit "General\nFormat : Matroska");
             unescapeNewlines (lit "Video\nFormat : HEVC\nBit depth : 10 bits");
             unescapeNewlines (lit "Text #1\nLanguage : English") ]);
    [discriminate | reflexivity].
Defined.

End SplitFacts.

(** ** Blocks and inner markup *)

Module MarkupFacts.

Import BBCode Utf16 BBCodeBlocks BlocksSpec BBCodeSpec MarkupSpec WideFacts
  BlocksFacts.

(** *** Every block is delimited in the input *)

Lemma substring_suffix (s : wstr) (n a e : nat) :
  a <= e -> substring (skipn n s) a e = substring s (n + a) (n + e).
Proof.
  intros H. unfold substring.
  rewrite (Nat.min_l a e), (Nat.max_r a e) by lia.
  rewrite (Nat.min_l (n + a) (n + e)), (Nat.max_r (n + a) (n + e)) by lia.
  rewrite skipn_skipn. f_equal; [lia | f_equal; lia].
Qed.

Lemma delimits_suffix (s : wstr) (n : nat) (b : Block) :
  undotted s = true -> delimits (skipn n s) b -> delimits s b.
Proof.
  intros Hu (i & k & g & len & e & Hm & Hle & Hc & Ht & Hb).
  exists (n + i), k, g, len, (n + e).
  rewrite skipn_skipn, Nat.add_comm in Hm.
  rewrite (toLowerCase_skipn n s Hu), skipn_skipn, Nat.add_comm in Hc.
  rewrite (substring_suffix s n (i + len) e Hle) in Hb.
  repeat split; try assumption; [lia|].
  now rewrite <- Nat.add_assoc.
Qed.

Lemma extractLoop_delimits (fuel : nat) : forall s acc r,
  undotted s = true ->
  extractLoop fuel s acc = Some r ->
  forall b, In b r -> In b acc \/ delimits s b.
Proof.
  induction fuel as [|fuel IH]; intros s acc r Hu H b Hb; [discriminate|].
  rewrite extractLoop_unfold in H.
  destruct (matchOpen s) as [[[[i k] g] len]|] eqn:Em;
    [|inversion H; subst; now left].
  apply matchOpen_sound in Em.
  destruct (findClose (length s) s k 1 (i + len) None) as [[pos [e|]]|] eqn:Hr;
    [| |discriminate].
  - pose proof (findClose_pos _ _ _ _ _ _ _ _ Hr) as Hpos.
    apply findClose_found in Hr as [Hr | [H1 H2]]; [discriminate|].
    destruct (IH _ _ _ (undotted_skipn pos s Hu) H b Hb) as [Hin | Hd].
    + apply in_app_or in Hin as [Hin | [<- | []]]; [now left|].
      right. exists i, k, g, len, e. repeat split; assumption.
    + right. exact (delimits_suffix _ _ _ Hu Hd).
  - destruct (IH _ _ _ (undotted_skipn (i + len) s Hu) H b Hb)
      as [Hin | Hd]; [now left|].
    right. exact (delimits_suffix _ _ _ Hu Hd).
Qed.

(** X11. On every input the extractor returns.  When the input holds no
    U+0130, every block it returns is delimited in the input: its title
    is the trimmed title of an opening tag found there, and its content
    is the text between the end of that tag and a closing tag of the
    same kind further on. *)
Theorem extract_sound (input : wstr) :
  exists blocks,
    extractOutermostQuotes input = Some blocks
    /\ (undotted input = true ->
        forall b, In b blocks -> delimits input b).
Proof.
  destruct (extractOutermostQuotes_total input) as [r Hr].
  exists r. split; [exact Hr|]. intros Hu b Hb.
  destruct (extractLoop_delimits _ _ _ _ Hu Hr b Hb) as [[] | H]. exact H.
Qed.

(** *** Replacements on plain text *)

Lemma innerTitle_spec (t : wstr) :
  BBCodeSpec.titleOk t = true ->
  t <> [] /\ ~ In (latin "["%char) t /\ ~ In (latin "]"%char) t.
Proof.
  unfold BBCodeSpec.titleOk. intros H. apply andb_true_iff in H as [H1 H2].
  split; [destruct t; [discriminate | discriminate]|].
  rewrite forallb_forall in H2.
  split; intros Hin; apply H2 in Hin; apply andb_true_iff in Hin as [A B];
    rewrite cu_eqb_refl in *; discriminate.
Qed.


Lemma plain_cons (c : cu) (s : wstr) :
  plain (c :: s) = negb (cu_eqb c (latin "["%char)) && plain s.
Proof.
  unfold plain. cbn [existsb]. rewrite negb_orb.
  assert (E : cu_eqb (latin "["%char) c = cu_eqb c (latin "["%char)).
  { destruct (cu_eqb (latin "["%char) c) eqn:E.
    - apply cu_eqb_true in E; subst c. now rewrite cu_eqb_refl.
    - destruct (cu_eqb c (latin "["%char)) eqn:E'; [|reflexivity].
      apply cu_eqb_true in E'; subst c. now rewrite cu_eqb_refl in E. }
  now rewrite E.
Qed.

Lemma plain_app (a b : wstr) : plain (a ++ b) = plain a && plain b.
Proof. unfold plain. now rewrite existsb_app, negb_orb. Qed.

Lemma plain_head (c : cu) (s : wstr) :
  plain (c :: s) = true -> c <> latin "["%char /\ plain s = true.
Proof.
  rewrite plain_cons. intros H. apply andb_true_iff in H as [H1 H2].
  split; [|exact H2]. intros ->. now rewrite cu_eqb_refl in H1.
Qed.

Lemma plain_In (s : wstr) : plain s = true -> ~ In (latin "["%char) s.
Proof.
  induction s as [|c s IH]; intros H; [intros []|].
  apply plain_head in H as [H1 H2]. intros [E | E]; [now elim H1|].
  now apply IH.
Qed.

Lemma fold_not_bracket (c : cu) :
  c <> latin "["%char -> cu_eqb (latin "["%char) (foldUnit c) = false.
Proof.
  intros H. apply cu_eqb_false. intros E. symmetry in E.
  apply foldUnit_bracket in E. contradiction.
Qed.

Lemma matchPieces_plain (ps : list piece) (c : cu) (s : wstr) :
  opensWithBracket ps = true -> c <> latin "["%char ->
  matchPieces ps (c :: s) = None.
Proof.
  destruct ps as [|[[|b w]| |] ps]; try discriminate.
  cbn [opensWithBracket]. intros H Hc.
  apply cu_eqb_true in H; subst b.
  cbn [matchPieces length firstn map startsWith].
  now rewrite (fold_not_bracket c Hc).
Qed.

Lemma replaceFrom_prefix (ps : list piece) (tpl : list wstr -> wstr)
    (pre s : wstr) :
  opensWithBracket ps = true -> plain pre = true ->
  replaceFrom ps tpl 0 (pre ++ s) = pre ++ replaceFrom ps tpl 0 s.
Proof.
  intros Hp. induction pre as [|c pre IH]; intros H; [reflexivity|].
  apply plain_head in H as [Hc H].
  cbn [app replaceFrom]. rewrite (matchPieces_plain ps c _ Hp Hc).
  now rewrite IH.
Qed.

Lemma replaceAll_plain (ps : list piece) (tpl : list wstr -> wstr) (s : wstr) :
  opensWithBracket ps = true -> plain s = true -> replaceAll ps tpl s = s.
Proof.
  intros Hp H. unfold replaceAll.
  rewrite <- (app_nil_r s) at 1.
  rewrite (replaceFrom_prefix ps tpl s [] Hp H). cbn [replaceFrom].
  apply app_nil_r.
Qed.

(** X12. Text without an opening bracket passes through
    [parseInnerBBCode] untouched, apart from the white space trimmed
    from its two ends. *)
Theorem inner_plain (input : wstr) :
  plain input = true -> parseInnerBBCode input = trim input.
Proof.
  intros H. unfold parseInnerBBCode. cbv zeta.
  repeat (rewrite (replaceAll_plain _ _ input); [|reflexivity|exact H]).
  reflexivity.
Qed.

Lemma inner_plain_witness :
  parseInnerBBCode (lit "  x265 10-bit, crf=16 ]  ") = lit "x265 10-bit, crf=16 ]".
Proof.
  exact (inner_plain (lit "  x265 10-bit, crf=16 ]  ") eq_refl).
Defined.

(** *** A link *)

Lemma replaceFrom_skip (ps : list piece) (tpl : list wstr -> wstr) (m s : wstr) :
  replaceFrom ps tpl (length m) (m ++ s) = replaceFrom ps tpl 0 s.
Proof. induction m as [|c m IH]; [reflexivity | exact IH]. Qed.

Lemma replaceFrom_match (ps : list piece) (tpl : list wstr -> wstr)
    (m s : wstr) (g : list wstr) :
  m <> [] -> matchPieces ps (m ++ s) = Some (g, length m) ->
  replaceFrom ps tpl 0 (m ++ s) = tpl g ++ replaceFrom ps tpl 0 s.
Proof.
  destruct m as [|c m]; [intros H; now elim H|]. intros _ H.
  cbn [app] in *. cbn [replaceFrom]. rewrite H. cbn [length Nat.sub].
  now rewrite Nat.sub_0_r, replaceFrom_skip.
Qed.

Lemma upTo_stop (c : cu) (x r : wstr) :
  ~ In c x -> upTo c (x ++ c :: r) = x.
Proof.
  induction x as [|a x IH]; intros H.
  - cbn [app upTo]. now rewrite cu_eqb_refl.
  - cbn [app upTo]. destruct (cu_eqb a c) eqn:E.
    + apply cu_eqb_true in E; subst a. elim H. now left.
    + rewrite IH; [reflexivity|]. intros Hx. apply H. now right.
Qed.

Lemma matchPieces_word (w w' : wstr) (ps : list piece) (s : wstr) :
  map foldUnit w' = w ->
  matchPieces (Word w :: ps) (w' ++ s)
  = match matchPieces ps s with
    | Some (g, n) => Some (g, length w + n)
    | None => None
    end.
Proof.
  intros H. cbn [matchPieces].
  assert (L : length w = length w')
    by (rewrite <- H; apply length_map).
  rewrite L, firstn_app_exact, skipn_app_exact, H, startsWith_refl.
  reflexivity.
Qed.

Lemma matchPieces_some1 (c : cu) (x r : wstr) (ps : list piece) :
  x <> [] -> ~ In c x ->
  matchPieces (Some1 c :: ps) (x ++ c :: r)
  = match matchPieces ps (c :: r) with
    | Some (g, n) => Some (x :: g, length x + n)
    | None => None
    end.
Proof.
  intros Hx Hc. cbn [matchPieces]. cbv zeta. rewrite (upTo_stop c x r Hc).
  destruct x as [|a x]; [now elim Hx|].
  now rewrite skipn_app_exact.
Qed.

Lemma matchPieces_any (c : cu) (x r : wstr) (ps : list piece) :
  ~ In c x ->
  matchPieces (Any c :: ps) (x ++ c :: r)
  = match matchPieces ps (c :: r) with
    | Some (g, n) => Some (x :: g, length x + n)
    | None => None
    end.
Proof.
  intros Hc. cbn [matchPieces]. cbv zeta. rewrite (upTo_stop c x r Hc).
  now rewrite skipn_app_exact.
Qed.

Lemma written_spec (tag text : wstr) :
  written tag text = true -> map foldUnit text = tag.
Proof. unfold written. apply wstr_eqb_true. Qed.

Lemma written_bracket (tag text : wstr) :
  written (latin "["%char :: tag) text = true ->
  exists t, text = latin "["%char :: t.
Proof.
  intros H. apply written_spec in H. destruct text as [|c t]; [discriminate H|].
  cbn [map] in H. inversion H as [[Hc Ht]].
  apply foldUnit_bracket in Hc. subst c. eauto.
Qed.

Lemma plain_quoted (s : wstr) : plain (quoted s) = plain s.
Proof.
  unfold quoted. rewrite plain_cons, plain_app.
  change (plain [latin (ascii_of_nat 34)]) with true.
  change (cu_eqb (latin (ascii_of_nat 34)) (latin "["%char)) with false.
  cbn [negb andb]. apply andb_true_r.
Qed.

Lemma plain_anchor (href label : wstr) :
  plain href = true -> plain label = true -> plain (anchor href label) = true.
Proof.
  intros Hh Hl. unfold anchor.
  rewrite !plain_app, !plain_quoted, Hh, Hl. reflexivity.
Qed.

(** X13. A link whose target is not empty and holds no bracket, with a
    label without opening bracket, in the middle of text without opening
    bracket, is rendered as an anchor to the target that opens in a new
    tab and shows the label; the text around it is kept, and the whole
    is trimmed.  The tag may be written in any mix of cases. *)
Theorem link_rendered (pre otag href label ctag post : wstr) :
  plain pre = true -> written (lit "[url=") otag = true ->
  titleOk href = true -> plain label = true ->
  written (lit "[/url]") ctag = true -> plain post = true ->
  parseInnerBBCode (pre ++ otag ++ href ++ lit "]" ++ label ++ ctag ++ post)
  = trim (pre ++ anchor href label ++ post).
Proof.
  intros Hpre Ho Hh Hl Hc Hpost.
  destruct (innerTitle_spec _ Hh) as (Hne & Hhb & Hhc).
  assert (Hhp : plain href = true).
  { unfold plain. apply negb_true_iff.
    destruct (existsb (cu_eqb (latin "["%char)) href) eqn:E; [|reflexivity].
    apply existsb_exists in E as (x & Hx & Ex).
    apply cu_eqb_true in Ex; subst x. contradiction. }
  destruct (written_bracket _ _ Hc) as [ct Ect]. subst ctag.
  set (ctag := latin "["%char :: ct) in *.
  set (P := [Word (lit "[url="); Some1 (latin "]"%char); Word (lit "]"); Any (latin "["%char);
             Word (lit "[/url]")]).
  set (tpl := fun g : list wstr => anchor (group 0 g) (group 1 g)).
  assert (Hm : matchPieces P
                 ((otag ++ href ++ lit "]" ++ label ++ ctag) ++ post)
               = Some ([href; label],
                       length (otag ++ href ++ lit "]" ++ label ++ ctag))).
  { unfold P. rewrite <- !app_assoc.
    rewrite (matchPieces_word _ otag _ _ (written_spec _ _ Ho)).
    change (lit "]" ++ label ++ ctag ++ post)
      with (latin "]"%char :: label ++ ctag ++ post).
    rewrite (matchPieces_some1 (latin "]"%char) href _ _ Hne Hhc).
    change (latin "]"%char :: label ++ ctag ++ post)
      with (lit "]" ++ label ++ ctag ++ post).
    rewrite (matchPieces_word (lit "]") (lit "]") _ _ eq_refl).
    change (label ++ ctag ++ post)
      with (label ++ latin "["%char :: ct ++ post).
    rewrite (matchPieces_any (latin "["%char) label _ _ (plain_In _ Hl)).
    change (latin "["%char :: ct ++ post) with (ctag ++ post).
    rewrite (matchPieces_word _ ctag _ _ (written_spec _ _ Hc)).
    cbn [matchPieces]. f_equal. f_equal.
    rewrite !length_app.
    rewrite <- (length_map foldUnit otag), (written_spec _ _ Ho).
    rewrite <- (length_map foldUnit ctag), (written_spec _ _ Hc).
    change (length (lit "[url=")) with 5.
    change (length (lit "]")) with 1.
    change (length (lit "[/url]")) with 6. lia. }
  assert (Hfirst : replaceAll P tpl
                     (pre ++ otag ++ href ++ lit "]" ++ label ++ ctag ++ post)
                   = pre ++ anchor href label ++ post).
  { unfold replaceAll.
    rewrite (replaceFrom_prefix P tpl pre _ eq_refl Hpre).
    replace (otag ++ href ++ lit "]" ++ label ++ ctag ++ post)
      with ((otag ++ href ++ lit "]" ++ label ++ ctag) ++ post)
      by now rewrite <- !app_assoc.
    rewrite (replaceFrom_match P tpl _ post [href; label]); [| |exact Hm].
    - f_equal. f_equal. exact (replaceAll_plain P tpl post eq_refl Hpost).
    - apply written_spec in Ho. destruct otag; discriminate. }
  assert (Hplain : plain (pre ++ anchor href label ++ post) = true).
  { now rewrite !plain_app, Hpre, Hpost, (plain_anchor _ _ Hhp Hl). }
  unfold parseInnerBBCode. cbv zeta. fold P. fold tpl. rewrite Hfirst.
  repeat (rewrite (replaceAll_plain _ _ (pre ++ anchor href label ++ post));
          [|reflexivity|exact Hplain]).
  reflexivity.
Qed.

Lemma link_rendered_witness :
  parseInnerBBCode (lit "Source: [URL=https://example.org/a]this page[/url].  ")
  = lit "Source: " ++ anchor (lit "https://example.org/a") (lit "this page")
    ++ lit ".".
Proof.
  exact (link_rendered (lit "Source: ") (lit "[URL=")
           (lit "https://example.org/a") (lit "this page") (lit "[/url]")
           (lit ".  ") eq_refl eq_refl eq_refl eq_refl eq_refl eq_refl).
Defined.

(** *** Spec entries *)

Lemma extract_render (d : doc) :
  wf d = true -> extractOutermostQuotes (render d) = Some (outermost d).
Proof.
  intros H. apply extracts_run.
  rewrite <- renderTop_topOfDoc, <- outermostTop_topOfDoc.
  apply extracts_top. now rewrite wfTop_topOfDoc.
Qed.

Lemma plainBodies_outermost (d : doc) :
  plainBodies d = true ->
  forall b, In b (outermost d) -> plain (content b) = true.
Proof.
  induction d as [t | pre k otag ctag ttl body _ rest IH]; intros H b Hb.
  - destruct Hb.
  - cbn [plainBodies] in H. apply andb_true_iff in H as [H1 H2].
    destruct Hb as [<- | Hb]; [|now apply IH].
    cbn [content]. destruct body; [exact H1 | discriminate H1].
Qed.

(** X14. For a balanced text whose top-level blocks have bodies without
    opening bracket, the spec entries are these blocks in order, each
    with its trimmed title and its body with the white space trimmed
    from the two ends. *)
Theorem specs_of_plain_blocks (d : doc) :
  wf d = true -> plainBodies d = true ->
  parseBBCodeSpecs (render d)
  = Some (map (fun b => {| title := title b; content := trim (content b) |})
            (outermost d)).
Proof.
  intros Hw Hp. unfold parseBBCodeSpecs. rewrite (extract_render d Hw).
  cbn [option_map]. f_equal. apply map_ext_in. intros b Hb.
  pose proof (plainBodies_outermost d Hp b Hb) as H.
  f_equal. unfold parseInnerBBCode. cbv zeta.
  repeat (rewrite (replaceAll_plain _ _ (content b)); [|reflexivity|exact H]).
  reflexivity.
Qed.

Lemma specs_of_plain_blocks_witness :
  let d :=
    Blk (lit "intro ") Quote (lit "quote") (lit "QUOTE") (lit " Video ")
      (Text (lit " HEVC 10-bit "))
      (Blk [] Spoiler (lit "Spoiler") (lit "spoiler") (lit "Audio")
         (Text (lit "FLAC 2.0")) (Text (lit " end"))) in
  render d = lit "intro [quote= Video ] HEVC 10-bit [/QUOTE][Spoiler=Audio]FLAC 2.0[/spoiler] end"
  /\ parseBBCodeSpecs (render d)
     = Some [ {| title := lit "Video"; content := lit "HEVC 10-bit" |};
              {| title := lit "Audio"; content := lit "FLAC 2.0" |} ].
Proof.
  cbv zeta. split; [reflexivity|].
  exact (specs_of_plain_blocks
           (Blk (lit "intro ") Quote (lit "quote") (lit "QUOTE") (lit " Video ")
              (Text (lit " HEVC 10-bit "))
              (Blk [] Spoiler (lit "Spoiler") (lit "spoiler") (lit "Audio")
                 (Text (lit "FLAC 2.0")) (Text (lit " end"))))
           eq_refl eq_refl).
Defined.


(** *** An inner block *)

Lemma plain_fold (t : wstr) : plain (map foldUnit t) = true -> plain t = true.
Proof.
  induction t as [|c t IH]; [reflexivity|].
  cbn [map]. rewrite !plain_cons. intros H.
  apply andb_true_iff in H as [H1 H2].
  rewrite (IH H2), andb_true_r.
  destruct (cu_eqb c (latin "["%char)) eqn:E; [|reflexivity].
  apply cu_eqb_true in E; subst c. discriminate H1.
Qed.

Lemma word_mismatch (w : wstr) (ps : list piece) (t tag s : wstr) :
  map foldUnit t = tag ->
  startsWith w (firstn (length w) (tag ++ map foldUnit s)) = false ->
  matchPieces (Word w :: ps) (t ++ s) = None.
Proof.
  intros Ht H. cbn [matchPieces].
  now rewrite <- firstn_map, map_app, Ht, H.
Qed.

Lemma replaceFrom_plain (ps : list piece) (tpl : list wstr -> wstr) (s : wstr) :
  opensWithBracket ps = true -> plain s = true -> replaceFrom ps tpl 0 s = s.
Proof. exact (replaceAll_plain ps tpl s). Qed.

(** A tag the pattern does not match is copied. *)
Lemma replaceFrom_copy (w : wstr) (ps : list piece) (tpl : list wstr -> wstr)
    (t tag s : wstr) :
  opensWithBracket (Word w :: ps) = true ->
  written (latin "["%char :: tag) t = true -> plain tag = true ->
  startsWith w
    (firstn (length w) ((latin "["%char :: tag) ++ map foldUnit s)) = false ->
  replaceFrom (Word w :: ps) tpl 0 (t ++ s)
  = t ++ replaceFrom (Word w :: ps) tpl 0 s.
Proof.
  intros Hp Ht Hplain Hmis.
  pose proof (word_mismatch w ps t _ s (written_spec _ _ Ht) Hmis) as Hn.
  destruct (written_bracket _ _ Ht) as [t' ->].
  apply written_spec in Ht. cbn [map] in Ht.
  assert (Ht' : map foldUnit t' = tag)
    by (injection Ht; intros; assumption).
  assert (Hp' : plain t' = true).
  { apply plain_fold. now rewrite Ht'. }
  cbn [app] in *. cbn [replaceFrom]. rewrite Hn. f_equal.
  exact (replaceFrom_prefix _ tpl t' s Hp Hp').
Qed.

(** A pass whose pattern matches neither of the two tags of a text
    leaves the text as it is. *)
Lemma pass_copies (w : wstr) (ps : list piece) (tpl : list wstr -> wstr)
    (pre otag mid ctag post otg ctg : wstr) :
  opensWithBracket (Word w :: ps) = true ->
  plain pre = true -> plain mid = true -> plain post = true ->
  written (latin "["%char :: otg) otag = true -> plain otg = true ->
  written (latin "["%char :: ctg) ctag = true -> plain ctg = true ->
  (forall s, startsWith w (firstn (length w) ((latin "["%char :: otg) ++ s)) = false) ->
  (forall s, startsWith w (firstn (length w) ((latin "["%char :: ctg) ++ s)) = false) ->
  replaceAll (Word w :: ps) tpl (pre ++ otag ++ mid ++ ctag ++ post)
  = pre ++ otag ++ mid ++ ctag ++ post.
Proof.
  intros Hp Hpre Hmid Hpost Ho Hop Hc Hcp Mo Mc. unfold replaceAll.
  rewrite (replaceFrom_prefix _ tpl pre _ Hp Hpre).
  rewrite (replaceFrom_copy w ps tpl otag otg _ Hp Ho Hop (Mo _)).
  rewrite (replaceFrom_prefix _ tpl mid _ Hp Hmid).
  rewrite (replaceFrom_copy w ps tpl ctag ctg _ Hp Hc Hcp (Mc _)).
  now rewrite (replaceFrom_plain _ tpl post Hp Hpost).
Qed.

Lemma plain_innerOpen (ttl : wstr) :
  plain ttl = true -> plain (innerOpen ttl) = true.
Proof.
  intros H. unfold innerOpen. rewrite !plain_app, !plain_quoted, H.
  reflexivity.
Qed.

Lemma titleOk_plain (t : wstr) : titleOk t = true -> plain t = true.
Proof.
  intros H. destruct (innerTitle_spec _ H) as (_ & Hb & _).
  unfold plain. apply negb_true_iff.
  destruct (existsb (cu_eqb (latin "["%char)) t) eqn:E; [|reflexivity].
  apply existsb_exists in E as (x & Hx & Ex).
  apply cu_eqb_true in Ex; subst x. contradiction.
Qed.

Lemma opener_match (k : tagKind) (otag ttl s : wstr) :
  written (wide (openTagStr k) ++ lit "=") otag = true -> titleOk ttl = true ->
  matchPieces [Word (wide (openTagStr k) ++ lit "="); Some1 (latin "]"%char); Word (lit "]")]
    ((otag ++ ttl ++ lit "]") ++ s)
  = Some ([ttl], length (otag ++ ttl ++ lit "]")).
Proof.
  intros Ho Ht. destruct (innerTitle_spec _ Ht) as (Hne & _ & Hc).
  rewrite <- !app_assoc.
  rewrite (matchPieces_word _ otag _ _ (written_spec _ _ Ho)).
  change (lit "]" ++ s) with (latin "]"%char :: s).
  rewrite (matchPieces_some1 (latin "]"%char) ttl _ _ Hne Hc).
  change (latin "]"%char :: s) with (lit "]" ++ s).
  rewrite (matchPieces_word (lit "]") (lit "]") _ _ eq_refl).
  cbn [matchPieces]. f_equal. f_equal.
  rewrite !length_app, <- (length_map foldUnit otag), (written_spec _ _ Ho).
  rewrite length_app. change (length (lit "]")) with 1.
  change (length (lit "=")) with 1. lia.
Qed.

Lemma closer_match (w ctag s : wstr) :
  written w ctag = true ->
  matchPieces [Word w] (ctag ++ s) = Some ([], length ctag).
Proof.
  intros Hc. rewrite (matchPieces_word _ ctag _ _ (written_spec _ _ Hc)).
  cbn [matchPieces]. f_equal. f_equal.
  rewrite <- (length_map foldUnit ctag), (written_spec _ _ Hc). lia.
Qed.

Ltac copy_pass Hpre Hmid Hpost Ho Hc :=
  match goal with
  | |- context [replaceAll (Word ?w :: ?ps) ?tpl
                  (?pre ++ ?otag ++ ?mid ++ ?ctag ++ ?post)] =>
      rewrite (pass_copies w ps tpl pre otag mid ctag post _ _
                 eq_refl Hpre Hmid Hpost Ho eq_refl Hc eq_refl
                 (fun _ => eq_refl) (fun _ => eq_refl))
  end.

Ltac plain_pass H :=
  match goal with
  | |- context [replaceAll ?P ?tpl ?s] =>
      rewrite (replaceAll_plain P tpl s eq_refl H)
  end.

(** X15. An inner block with a title, written with [quote] or with
    [spoiler] tags in any mix of cases, whose title holds no bracket and
    whose body, like the text around it, holds no opening bracket, is
    rendered as the opening markup with the title, the body and the
    closing markup, between the surrounding text, the whole trimmed. *)
Theorem inner_block_rendered (k : tagKind)
    (pre otag ttl body ctag post : wstr) :
  plain pre = true -> written (wide (openTagStr k) ++ lit "=") otag = true ->
  titleOk ttl = true -> plain body = true ->
  written (wide (closeTagStr k)) ctag = true -> plain post = true ->
  parseInnerBBCode (pre ++ otag ++ ttl ++ lit "]" ++ body ++ ctag ++ post)
  = trim (pre ++ innerOpen ttl ++ body ++ innerClose ++ post).
Proof.
  intros Hpre Ho Ht Hbody Hc Hpost.
  pose proof (titleOk_plain _ Ht) as Htp.
  assert (Hmid : plain (ttl ++ lit "]" ++ body) = true)
    by now rewrite !plain_app, Htp, Hbody.
  assert (Hone : plain (pre ++ innerOpen ttl ++ body) = true)
    by now rewrite !plain_app, Hpre, (plain_innerOpen _ Htp), Hbody.
  assert (Hall : plain (pre ++ innerOpen ttl ++ body ++ innerClose ++ post)
                 = true)
    by now rewrite !plain_app, Hpre, (plain_innerOpen _ Htp), Hbody, Hpost.
  assert (Hon : otag <> [])
    by (apply written_spec in Ho; destruct otag, k; discriminate).
  assert (Hcn : ctag <> [])
    by (apply written_spec in Hc; destruct ctag, k; discriminate).
  (* the pass of the opener, on the text as it stands when it runs *)
  assert (Hopen : forall tpl,
    replaceAll [Word (wide (openTagStr k) ++ lit "="); Some1 (latin "]"%char); Word (lit "]")] tpl
      (pre ++ otag ++ (ttl ++ lit "]" ++ body) ++ ctag ++ post)
    = pre ++ tpl [ttl] ++ body ++ ctag ++ post).
  { intros tpl. unfold replaceAll.
    set (P := [Word (wide (openTagStr k) ++ lit "="); Some1 (latin "]"%char); Word (lit "]")]).
    assert (HP : opensWithBracket P = true) by reflexivity.
    rewrite (replaceFrom_prefix P tpl pre _ HP Hpre).
    replace (otag ++ (ttl ++ lit "]" ++ body) ++ ctag ++ post)
      with ((otag ++ ttl ++ lit "]") ++ body ++ ctag ++ post)
      by now rewrite <- !app_assoc.
    rewrite (replaceFrom_match P tpl _ _ [ttl]);
      [| destruct otag; [now elim Hon | discriminate]
       | exact (opener_match k otag ttl _ Ho Ht)].
    rewrite (replaceFrom_prefix P tpl body _ HP Hbody).
    unfold P.
    rewrite (replaceFrom_copy _ _ tpl ctag (tl (wide (closeTagStr k))) post HP);
      [| destruct k; exact Hc | destruct k; reflexivity
       | destruct k; reflexivity].
    fold P. now rewrite (replaceFrom_plain P tpl post HP Hpost). }
  (* the pass of the closer *)
  assert (Hclose : forall tpl,
    replaceAll [Word (wide (closeTagStr k))] tpl
      (pre ++ innerOpen ttl ++ body ++ ctag ++ post)
    = pre ++ innerOpen ttl ++ body ++ tpl [] ++ post).
  { intros tpl. unfold replaceAll.
    set (P := [Word (wide (closeTagStr k))]).
    assert (HP : opensWithBracket P = true) by reflexivity.
    replace (pre ++ innerOpen ttl ++ body ++ ctag ++ post)
      with ((pre ++ innerOpen ttl ++ body) ++ ctag ++ post)
      by now rewrite <- !app_assoc.
    rewrite (replaceFrom_prefix P tpl _ _ HP Hone).
    rewrite (replaceFrom_match P tpl ctag post [] Hcn
               (closer_match _ ctag post Hc)).
    rewrite (replaceFrom_plain P tpl post HP Hpost).
    now rewrite <- !app_assoc. }
  unfold parseInnerBBCode. cbv zeta.
  replace (pre ++ otag ++ ttl ++ lit "]" ++ body ++ ctag ++ post)
    with (pre ++ otag ++ (ttl ++ lit "]" ++ body) ++ ctag ++ post)
    by now rewrite <- !app_assoc.
  pose proof (Hopen (fun g => innerOpen (group 0 g))) as Eo.
  pose proof (Hclose (fun _ => innerClose)) as Ec.
  cbn [group nth] in Eo.
  destruct k.
  - change (wide (openTagStr Quote) ++ lit "=") with (lit "[quote=") in Eo.
    change (wide (closeTagStr Quote)) with (lit "[/quote]") in Ec.
    do 2 copy_pass Hpre Hmid Hpost Ho Hc.
    rewrite Eo, Ec.
    do 13 plain_pass Hall. reflexivity.
  - change (wide (openTagStr Spoiler) ++ lit "=") with (lit "[spoiler=") in Eo.
    change (wide (closeTagStr Spoiler)) with (lit "[/spoiler]") in Ec.
    do 15 copy_pass Hpre Hmid Hpost Ho Hc.
    rewrite Eo, Ec. reflexivity.
Qed.

Lemma inner_block_rendered_witness :
  parseInnerBBCode (lit " see [Spoiler=Notes]two cuts[/SPOILER] below ")
  = lit "see " ++ innerOpen (lit "Notes") ++ lit "two cuts" ++ innerClose
    ++ lit " below".
Proof.
  exact (inner_block_rendered Spoiler (lit " see ") (lit "[Spoiler=")
           (lit "Notes") (lit "two cuts") (lit "[/SPOILER]") (lit " below ")
           eq_refl eq_refl eq_refl eq_refl eq_refl eq_refl).
Defined.

End MarkupFacts.

(** ** Escaping *)

Module EscapeFacts.

Import Telegram Templates EscapeSpec StrFacts.

(** *** MarkdownV2 *)

Lemma escapeMarkdown_cons (c : ascii) (t : str) :
  escapeMarkdown (c :: t)
  = (if markdownSpecial c then ["\"%char; c] else [c]) ++ escapeMarkdown t.
Proof. reflexivity. Qed.

(** X16. What [escapeMarkdown] returns reads back as the text it was
    given, and in it no character of the special class stands bare:
    each is escaped by a backslash of its own. *)
Theorem escapeMarkdown_reads_back (text : str) :
  readMarkdown (escapeMarkdown text) = text
  /\ wellEscaped (escapeMarkdown text) = true.
Proof.
  induction text as [|c t [IH1 IH2]]; [split; reflexivity|].
  rewrite escapeMarkdown_cons. destruct (markdownSpecial c) eqn:E.
  - cbn [app readMarkdown wellEscaped]. rewrite ascii_eqb_refl, IH1, E, IH2.
    split; reflexivity.
  - cbn [app readMarkdown wellEscaped].
    destruct (ascii_eqb c "\") eqn:Ec.
    + apply ascii_eqb_true in Ec; subst c. discriminate E.
    + rewrite IH1, E, IH2. split; reflexivity.
Qed.

(** *** Image formats *)

Lemma dotless_spec (s : str) : dotless s = true -> ~ In "."%char s.
Proof.
  unfold dotless. rewrite forallb_forall. intros H Hin.
  apply H in Hin. now rewrite ascii_eqb_refl in Hin.
Qed.

Lemma splitChar_whole (c : ascii) (s : str) :
  ~ In c s -> splitChar c s = [s].
Proof.
  induction s as [|a s IH]; intros H; [reflexivity|].
  cbn [splitChar]. destruct (ascii_eqb a c) eqn:E.
  - apply ascii_eqb_true in E; subst a. elim H. now left.
  - rewrite IH; [reflexivity|]. intros Hs. apply H. now right.
Qed.

Lemma splitChar_last (c : ascii) (stem ext : str) :
  ~ In c ext ->
  exists f front, splitChar c (stem ++ c :: ext) = (f :: front) ++ [ext].
Proof.
  intros H. induction stem as [|a stem (f & front & IH)].
  - cbn [app splitChar]. rewrite ascii_eqb_refl, (splitChar_whole c ext H).
    now exists [], [].
  - cbn [app splitChar]. rewrite IH. destruct (ascii_eqb a c).
    + now exists [], (f :: front).
    + now exists (a :: f), front.
Qed.

(** X17. Whether a file counts as a supported image depends only on
    the text after its last dot, whatever its letter case; a name
    without any dot is taken whole for its extension. *)
Theorem supported_by_extension (stem ext : str) :
  dotless ext = true ->
  isSupportedFormat (stem ++ lit "." ++ ext)
  = existsb (str_eqb (toLowerCase ext)) SUPPORTED_FORMATS
  /\ isSupportedFormat ext
     = existsb (str_eqb (toLowerCase ext)) SUPPORTED_FORMATS.
Proof.
  intros H. apply dotless_spec in H. unfold isSupportedFormat. split.
  - destruct (splitChar_last "." stem ext H) as (f & front & E).
    cbn [lit list_ascii_of_string app]. rewrite E.
    now rewrite last_last.
  - now rewrite (splitChar_whole "." ext H).
Qed.

Lemma supported_by_extension_witness :
  isSupportedFormat (lit "shots/cover.v2.PNG") = true
  /\ isSupportedFormat (lit "png") = true
  /\ isSupportedFormat (lit "cover.png.bak") = false.
Proof.
  split; [|split].
  - exact (proj1 (supported_by_extension (lit "shots/cover.v2") (lit "PNG")
                    eq_refl)).
  - exact (proj2 (supported_by_extension [] (lit "png") eq_refl)).
  - exact (proj1 (supported_by_extension (lit "cover.png") (lit "bak")
                    eq_refl)).
Defined.

(** *** String literals *)

Lemma replaceChar_app (c : ascii) (r a b : str) :
  replaceChar c r (a ++ b) = replaceChar c r a ++ replaceChar c r b.
Proof. apply flat_map_app. Qed.

Lemma oneLineEnding_cons (c : ascii) (s : str) :
  oneLineEnding (c :: s) = true ->
  ascii_eqb c (ascii_of_nat 13) = false /\ oneLineEnding s = true.
Proof.
  unfold oneLineEnding. cbn [forallb]. intros H.
  apply andb_true_iff in H as [H1 H2].
  split; [now apply negb_true_iff in H1 | exact H2].
Qed.

(** The three passes of [escapeString] on a text with a first
    character. *)
Lemma escapeString_cons (c : ascii) (s : str) :
  replaceChar LF (lit "\n")
    (replaceChar "'" (lit "\'") (replaceChar "\" (lit "\\") (c :: s)))
  = (if ascii_eqb c "\" then lit "\\"
     else if ascii_eqb c "'" then lit "\'"
     else if ascii_eqb c LF then lit "\n"
     else [c])
    ++ replaceChar LF (lit "\n")
         (replaceChar "'" (lit "\'") (replaceChar "\" (lit "\\") s)).
Proof.
  change (replaceChar "\" (lit "\\") (c :: s))
    with ((if ascii_eqb c "\" then lit "\\" else [c])
          ++ replaceChar "\" (lit "\\") s).
  rewrite !replaceChar_app. f_equal.
  destruct (ascii_eqb c "\") eqn:E1; [reflexivity|].
  unfold replaceChar at 2. cbn [flat_map]. rewrite app_nil_r.
  destruct (ascii_eqb c "'") eqn:E2; [reflexivity|].
  unfold replaceChar. cbn [flat_map]. now rewrite app_nil_r.
Qed.

Lemma escapeString_passes (s : str) :
  escapeString (Some s)
  = replaceChar LF (lit "\n")
      (replaceChar "'" (lit "\'") (replaceChar "\" (lit "\\") s)).
Proof. now destruct s. Qed.

(** X18. What [escapeString] returns for a text without carriage
    return is the body of a single-quoted literal whose value is that
    text: it holds no bare quote and no line feed, and reads back as the
    text. *)
Theorem escapeString_reads_back (s : str) :
  oneLineEnding s = true ->
  readSingleQuoted (escapeString (Some s)) = Some s.
Proof.
  rewrite escapeString_passes.
  induction s as [|c s IH]; intros H; [reflexivity|].
  apply oneLineEnding_cons in H as [Hc Hs]. specialize (IH Hs).
  rewrite escapeString_cons.
  set (tail := replaceChar LF (lit "\n")
                 (replaceChar "'" (lit "\'") (replaceChar "\" (lit "\\") s)))
    in *.
  destruct (ascii_eqb c "\") eqn:E1.
  { apply ascii_eqb_true in E1; subst c.
    cbn [lit list_ascii_of_string app readSingleQuoted].
    rewrite !ascii_eqb_refl. change (ascii_eqb "\" "n") with false.
    cbv iota. cbn [orb]. now rewrite IH. }
  destruct (ascii_eqb c "'") eqn:E2.
  { apply ascii_eqb_true in E2; subst c.
    cbn [lit list_ascii_of_string app readSingleQuoted].
    rewrite !ascii_eqb_refl. change (ascii_eqb "'" "n") with false.
    change (ascii_eqb "'" "\") with false.
    cbv iota. cbn [orb]. now rewrite IH. }
  destruct (ascii_eqb c LF) eqn:E3.
  { apply ascii_eqb_true in E3; subst c.
    cbn [lit list_ascii_of_string app readSingleQuoted].
    rewrite !ascii_eqb_refl. now rewrite IH. }
  cbn [app readSingleQuoted]. rewrite E1, E2, E3, Hc. cbn [orb].
  now rewrite IH.
Qed.

Lemma escapeString_reads_back_witness :
  let s := lit "it's a \path" ++ [LF] ++ lit "next" in
  escapeString (Some s) = lit "it\'s a \\path\nnext"
  /\ readSingleQuoted (escapeString (Some s)) = Some s.
Proof.
  cbv zeta. split; [reflexivity|].
  exact (escapeString_reads_back (lit "it's a \path" ++ [LF] ++ lit "next")
           eq_refl).
Defined.

(** *** Template literals *)

Lemma replaceDollarBrace_cons (r : str) (c : ascii) (s : str) :
  replaceDollarBrace r (c :: s) =
  if ascii_eqb c "$" then
    match s with
    | d :: s'' =>
        if ascii_eqb d "{" then r ++ replaceDollarBrace r s''
        else c :: replaceDollarBrace r s
    | [] => [c]
    end
  else c :: replaceDollarBrace r s.
Proof. destruct s; reflexivity. Qed.

Lemma quotePasses_cons (c : ascii) (s : str) :
  replaceChar "`" (lit "\`") (replaceChar "\" (lit "\\") (c :: s))
  = (if ascii_eqb c "\" then lit "\\"
     else if ascii_eqb c "`" then lit "\`" else [c])
    ++ replaceChar "`" (lit "\`") (replaceChar "\" (lit "\\") s).
Proof.
  change (replaceChar "\" (lit "\\") (c :: s))
    with ((if ascii_eqb c "\" then lit "\\" else [c])
          ++ replaceChar "\" (lit "\\") s).
  rewrite replaceChar_app. f_equal.
  destruct (ascii_eqb c "\") eqn:E1; [reflexivity|].
  unfold replaceChar. cbn [flat_map]. now rewrite app_nil_r.
Qed.

Lemma templatePasses_cons (c : ascii) (s : str) :
  templatePasses (c :: s) =
  if ascii_eqb c "\" then lit "\\" ++ templatePasses s
  else if ascii_eqb c "`" then lit "\`" ++ templatePasses s
  else if ascii_eqb c "$" then
    if startsWith (lit "{") s then lit "\${" ++ templatePasses (tl s)
    else c :: templatePasses s
  else c :: templatePasses s.
Proof.
  unfold templatePasses. rewrite quotePasses_cons.
  set (G := fun x => replaceChar "`" (lit "\`") (replaceChar "\" (lit "\\") x)).
  fold (G s). fold (G (tl s)).
  destruct (ascii_eqb c "\") eqn:E1.
  { cbn [lit list_ascii_of_string app].
    now rewrite !replaceDollarBrace_cons. }
  destruct (ascii_eqb c "`") eqn:E2.
  { cbn [lit list_ascii_of_string app].
    now rewrite !replaceDollarBrace_cons. }
  cbn [app]. rewrite replaceDollarBrace_cons.
  destruct (ascii_eqb c "$") eqn:E3; [|reflexivity].
  destruct s as [|y s]; [reflexivity|].
  assert (Hd : exists d F, G (y :: s) = d :: F
                           /\ ascii_eqb d "{" = ascii_eqb "{" y
                           /\ (ascii_eqb "{" y = true -> F = G s)).
  { unfold G. rewrite quotePasses_cons. fold (G s).
    destruct (ascii_eqb "{" y) eqn:Ey.
    - apply ascii_eqb_true in Ey; subst y. exists "{"%char, (G s).
      repeat split; reflexivity.
    - destruct (ascii_eqb y "\") eqn:Y1.
      { exists "\"%char, ("\"%char :: G s).
        split; [reflexivity | split; [reflexivity | discriminate]]. }
      destruct (ascii_eqb y "`") eqn:Y2.
      { exists "\"%char, ("`"%char :: G s).
        split; [reflexivity | split; [reflexivity | discriminate]]. }
      exists y, (G s). split; [reflexivity | split; [|discriminate]].
      destruct (ascii_eqb y "{") eqn:Y3; [|reflexivity].
      apply ascii_eqb_true in Y3; subst y. now rewrite ascii_eqb_refl in Ey. }
  destruct Hd as (d & F & Ed & Eb & EF).
  cbn [startsWith lit list_ascii_of_string tl]. rewrite Ed, Eb.
  destruct (ascii_eqb "{" y) eqn:Ey; cbn [andb].
  - now rewrite (EF eq_refl).
  - reflexivity.
Qed.

Lemma templatePasses_head (b : ascii) (l : str) :
  ascii_eqb "{" b = false ->
  startsWith (lit "{") (templatePasses (b :: l)) = false.
Proof.
  intros H. rewrite templatePasses_cons.
  destruct (ascii_eqb b "\"); [reflexivity|].
  destruct (ascii_eqb b "`"); [reflexivity|].
  destruct (ascii_eqb b "$") eqn:E.
  - apply ascii_eqb_true in E; subst b.
    now destruct (startsWith (lit "{") l).
  - cbn [startsWith lit list_ascii_of_string]. now rewrite H.
Qed.

Lemma readTemplate_plain (c : ascii) (s : str) :
  ascii_eqb c "\" = false -> ascii_eqb c "`" = false ->
  ascii_eqb c (ascii_of_nat 13) = false ->
  ascii_eqb c "$" && startsWith (lit "{") s = false ->
  readTemplate (c :: s) = option_map (cons c) (readTemplate s).
Proof.
  intros H1 H2 H3 H4. cbn [readTemplate]. now rewrite H1, H2, H3, H4.
Qed.

Lemma escapeTemplateString_passes (s : str) :
  escapeTemplateString (Some s) = templatePasses s.
Proof. now destruct s. Qed.

(** X19. What [escapeTemplateString] returns for a text without
    carriage return is the body of a template literal whose value is
    that text: no backquote ends it, no dollar and brace open a
    substitution in it, and it reads back as the text. *)
Theorem escapeTemplateString_reads_back (s : str) :
  oneLineEnding s = true ->
  readTemplate (escapeTemplateString (Some s)) = Some s.
Proof.
  rewrite escapeTemplateString_passes.
  assert (Step : forall c t,
             oneLineEnding (c :: t) = true ->
             (readTemplate (templatePasses t) = Some t) ->
             (forall t', t = "{"%char :: t' ->
                         readTemplate (templatePasses t') = Some t') ->
             readTemplate (templatePasses (c :: t)) = Some (c :: t)).
  { intros c t H IHt IHb. apply oneLineEnding_cons in H as [Hc Ht].
    rewrite templatePasses_cons.
    destruct (ascii_eqb c "\") eqn:E1.
    { apply ascii_eqb_true in E1; subst c.
      cbn [lit list_ascii_of_string app readTemplate].
      rewrite !ascii_eqb_refl. cbn [orb]. now rewrite IHt. }
    destruct (ascii_eqb c "`") eqn:E2.
    { apply ascii_eqb_true in E2; subst c.
      cbn [lit list_ascii_of_string app readTemplate].
      rewrite !ascii_eqb_refl. cbn [orb].
      change (ascii_eqb "`" "\") with false. cbn [orb]. now rewrite IHt. }
    destruct (ascii_eqb c "$") eqn:E3.
    - apply ascii_eqb_true in E3; subst c.
      destruct t as [|b t'].
      + reflexivity.
      + cbn [startsWith lit list_ascii_of_string tl].
        destruct (ascii_eqb "{" b) eqn:Eb.
        * apply ascii_eqb_true in Eb; subst b. cbn [andb app].
          specialize (IHb t' eq_refl).
          set (tail := templatePasses t') in *.
          cbn [readTemplate]. rewrite !ascii_eqb_refl.
          change (ascii_eqb "$" "\") with false.
          change (ascii_eqb "$" "`") with false.
          change (ascii_eqb "{" "\") with false.
          change (ascii_eqb "{" "`") with false.
          change (ascii_eqb "{" (ascii_of_nat 13)) with false.
          change (ascii_eqb "{" "$") with false.
          cbn [orb andb]. cbv iota. cbn [option_map]. now rewrite IHb.
        * cbn [andb].
          rewrite (readTemplate_plain "$" _ eq_refl eq_refl eq_refl).
          -- now rewrite IHt.
          -- rewrite ascii_eqb_refl. cbn [andb].
             now apply templatePasses_head.
    - rewrite (readTemplate_plain c _ E1 E2 Hc).
      + now rewrite IHt.
      + now rewrite E3. }
  induction s as [|a|a b l IH1 IH2] using ReportFacts.list_ind2; intros H.
  - reflexivity.
  - apply Step; [exact H | reflexivity | intros t' E; discriminate E].
  - apply Step; [exact H | |].
    + apply IH2. now apply oneLineEnding_cons in H.
    + intros t' E. inversion E; subst. apply IH1.
      apply oneLineEnding_cons in H as [_ H].
      now apply oneLineEnding_cons in H.
Qed.

Lemma escapeTemplateString_reads_back_witness :
  let s := lit "cost: ${x} `raw` \n $5" in
  escapeTemplateString (Some s) = lit "cost: \${x} \`raw\` \\n $5"
  /\ readTemplate (escapeTemplateString (Some s)) = Some s.
Proof.
  cbv zeta. split; [reflexivity|].
  exact (escapeTemplateString_reads_back (lit "cost: ${x} `raw` \n $5")
           eq_refl).
Defined.

End EscapeFacts.

(** ** Badges *)

Module BadgeFacts.

Import Schema BadgeSpec.

(** X20. A season number of zero counts for nothing: the badges of a
    release with season 0 are those of the same release without a
    season. *)
Theorem season_zero_ignored (r : Release) :
  season r = Some 0%Z ->
  getReleaseBadges r = getReleaseBadges (withSeason r None).
Proof.
  intros H. unfold getReleaseBadges, seasonSet, withSeason.
  cbn [season special_type media_type badge_label is_complete].
  now rewrite H.
Qed.

Lemma season_zero_ignored_witness :
  getReleaseBadges (badgeCase Tv None (Some 0%Z) None (Some true))
  = [lit "TV"; lit "Fin"].
Proof.
  rewrite (season_zero_ignored
             (badgeCase Tv None (Some 0%Z) None (Some true)) eq_refl).
  reflexivity.
Defined.



(** X22. A release without special type and without season whose
    media type is neither [movie] nor [tv] gets an empty first badge,
    or, with a custom label, a badge made of a space and the label. *)
Theorem untyped_badge_empty (r : Release) :
  special_type r = None -> seasonSet r = None ->
  media_type r <> Movie -> media_type r <> Tv ->
  getReleaseBadges r = labelSuffix r :: finBadge r.
Proof.
  intros Hs Hn Hm Ht. unfold getReleaseBadges, labelSuffix, finBadge.
  rewrite Hs, Hn.
  destruct (media_type r); try contradiction;
    destruct (badge_label r) as [[|c l]|], (is_complete r) as [[|]|];
    reflexivity.
Qed.

Lemma untyped_badge_empty_witness :
  getReleaseBadges (badgeCase Ova None None None None) = [[]].
Proof.
  apply (untyped_badge_empty (badgeCase Ova None None None None)
           eq_refl eq_refl); discriminate.
Defined.

End BadgeFacts.

(** ** File sizes *)

Module SizeFacts.

Import TorrentSize QArith_base Qround.
Local Close Scope Q_scope.

Lemma Qdiv_1024 (n : Z) (d : positive) :
  ((n # d) / 1024)%Q = (n * 1 # d * 1024)%Q.
Proof. reflexivity. Qed.

Lemma scale_step (fuel : nat) (n : Z) (d : positive) (k : nat) :
  scale (S fuel) (n # d)%Q k =
  if (1024 * Zpos d <=? n)%Z && (k <? 4)
  then scale fuel ((n # d) / 1024)%Q (k + 1)
  else Some ((n # d)%Q, k).
Proof.
  cbn [scale]. unfold Qle_bool. cbn [Qnum Qden].
  rewrite Z.mul_1_r. reflexivity.
Qed.

Lemma scale_stop (fuel : nat) (n : Z) (d : positive) (k : nat) :
  (1024 * Zpos d <=? n)%Z && (k <? 4) = false ->
  scale fuel (n # d)%Q k = Some ((n # d)%Q, k).
Proof.
  intros H. destruct fuel as [|fuel].
  - cbn [scale]. unfold Qle_bool. cbn [Qnum Qden].
    rewrite Z.mul_1_r.
    change (Datatypes.length units - 1) with 4. now rewrite H.
  - now rewrite scale_step, H.
Qed.

Lemma toFixed2_frac (n : Z) (d : positive) :
  (0 <= n)%Z ->
  toFixed2 (n # d)%Q = fixed2 ((200 * n + Zpos d) / (2 * Zpos d))%Z.
Proof.
  intros H. unfold toFixed2, Qle_bool. cbn [Qnum Qden].
  rewrite Z.mul_1_r. change (0 * Z.pos d)%Z with 0%Z.
  destruct (0 <=? n)%Z eqn:E; [|apply Z.leb_gt in E; lia].
  unfold Qfloor, Qplus, Qmult. cbn [Qnum Qden].
  rewrite Pos.mul_1_r, Pos2Z.inj_mul.
  f_equal. f_equal; lia.
Qed.

Ltac step_yes :=
  rewrite scale_step;
  match goal with
  | |- context [(?a <=? ?b)%Z && ?c] =>
      replace ((a <=? b)%Z && c) with true
        by (symmetry; apply andb_true_iff; split;
            [apply Z.leb_le; lia | reflexivity])
  end;
  rewrite Qdiv_1024.

Ltac step_no :=
  rewrite scale_stop
    by (apply andb_false_iff;
        first [right; reflexivity | left; apply Z.leb_gt; lia]).

(** The unit [formatSize] settles on, for a size that is not negative. *)
Lemma scale_unit (bytes : Z) :
  (0 <= bytes)%Z ->
  exists (k : nat) (n : Z) (d : positive),
    scale 5 (inject_Z bytes) 0 = Some ((n # d)%Q, k)
    /\ n = bytes /\ Zpos d = (1024 ^ Z.of_nat k)%Z
    /\ k <= 4
    /\ (k = 0 \/ (1024 ^ Z.of_nat k <= bytes)%Z)
    /\ (k = 4 \/ (bytes < 1024 ^ Z.of_nat (S k))%Z).
Proof.
  intros H. change (inject_Z bytes) with (bytes # 1)%Q.
  destruct (Z.lt_ge_cases bytes 1024) as [H1 | H1].
  { exists 0, bytes, 1%positive. step_no.
    repeat split; auto; right; exact H1. }
  step_yes.
  destruct (Z.lt_ge_cases bytes (1024 ^ 2)) as [H2 | H2].
  { eexists 1, _, _. step_no.
    repeat split; [lia | lia | right; exact H1 | right; exact H2]. }
  step_yes.
  destruct (Z.lt_ge_cases bytes (1024 ^ 3)) as [H3 | H3].
  { eexists 2, _, _. step_no.
    repeat split; [lia | lia | right; exact H2 | right; exact H3]. }
  step_yes.
  destruct (Z.lt_ge_cases bytes (1024 ^ 4)) as [H4 | H4].
  { eexists 3, _, _. step_no.
    repeat split; [lia | lia | right; exact H3 | right; exact H4]. }
  step_yes.
  eexists 4, _, _. step_no.
  repeat split; [lia | lia | right; exact H4 | now left].
Qed.

(** X23. For a size that is not negative (and below 2^53, as the
    integers of the source are), [formatSize] returns; it prints a
    number of hundredths and a unit; the unit is the largest one, up to
    TiB, that the size reaches (bytes below 1024); and the number
    printed differs from the size in that unit by at most half a
    hundredth. *)
Theorem formatSize_accurate (bytes : Z) :
  (0 <= bytes < 2 ^ 53)%Z ->
  exists (k : nat) (n : Z),
    formatSize bytes = Some (fixed2 n ++ lit " " ++ nth k units [])
    /\ k <= 4
    /\ (k = 0 \/ (1024 ^ Z.of_nat k <= bytes)%Z)
    /\ (k = 4 \/ (bytes < 1024 ^ Z.of_nat (S k))%Z)
    /\ (2 * Z.abs (100 * bytes - n * 1024 ^ Z.of_nat k)
        <= 1024 ^ Z.of_nat k)%Z.
Proof.
  intros [H _].
  destruct (scale_unit bytes H) as (k & n & d & Hs & Hn & Hd & Hk & Hlo & Hhi).
  exists k, ((200 * n + Zpos d) / (2 * Zpos d))%Z.
  unfold formatSize. change (Datatypes.length units) with 5.
  rewrite Hs, (toFixed2_frac n d) by lia.
  repeat split; try assumption.
  rewrite <- Hd, Hn.
  pose proof (Z.div_mod (200 * bytes + Z.pos d) (2 * Z.pos d) ltac:(lia)) as E.
  pose proof (Z.mod_pos_bound (200 * bytes + Z.pos d) (2 * Z.pos d)
                ltac:(lia)) as B.
  nia.
Qed.

Lemma formatSize_accurate_witness :
  formatSize 1536 = Some (lit "1.50 KiB")
  /\ formatSize 5000000000 = Some (lit "4.66 GiB")
  /\ exists (k : nat) (n : Z),
       formatSize 5000000000
       = Some (fixed2 n ++ lit " " ++ nth k units [])
       /\ (2 * Z.abs (100 * 5000000000 - n * 1024 ^ Z.of_nat k)
           <= 1024 ^ Z.of_nat k)%Z.
Proof.
  split; [reflexivity|]. split; [reflexivity|].
  destruct (formatSize_accurate 5000000000
              ltac:(split; [discriminate | reflexivity]))
    as (k & n & H1 & _ & _ & _ & H5).
  exists k, n. split; assumption.
Defined.

Lemma fixed2_whole (b : Z) :
  (0 <= b)%Z -> fixed2 (100 * b) = digits b ++ lit ".00".
Proof.
  intros H. unfold fixed2.
  replace (100 * b / 100)%Z with b
    by (rewrite Z.mul_comm; symmetry; apply Z.div_mul; discriminate).
  replace ((100 * b) mod 100)%Z with 0%Z
    by (rewrite Z.mul_comm; symmetry; apply Z.mod_mul; discriminate).
  reflexivity.
Qed.

(** X24. A size below 1024 is printed as that number of bytes with two
    zero decimals. *)
Theorem formatSize_bytes (bytes : Z) :
  (0 <= bytes < 1024)%Z ->
  formatSize bytes = Some (digits bytes ++ lit ".00 B").
Proof.
  intros [H0 H1]. unfold formatSize.
  change (inject_Z bytes) with (bytes # 1)%Q.
  step_no. rewrite (toFixed2_frac bytes 1 H0).
  replace ((200 * bytes + 1) / (2 * 1))%Z with (100 * bytes)%Z
    by (apply Z.div_unique with (r := 1%Z); lia).
  rewrite (fixed2_whole bytes H0), <- app_assoc. reflexivity.
Qed.

Lemma formatSize_bytes_witness :
  formatSize 0 = Some (lit "0.00 B")
  /\ formatSize 1023 = Some (lit "1023.00 B").
Proof.
  split.
  - exact (formatSize_bytes 0 (conj (Z.le_refl 0) eq_refl)).
  - apply (formatSize_bytes 1023). split; [discriminate | reflexivity].
Defined.

(** X25. Just below the next unit the figure is rounded up to 1024.00
    of the smaller unit: a size within half a hundredth of a KiB, MiB or
    GiB below 1024 of them is printed as [1024.00] of that unit, not as
    [1.00] of the next. *)
Theorem formatSize_rounds_to_1024 (k : nat) (bytes : Z) :
  1 <= k <= 3 ->
  (bytes < 1024 ^ Z.of_nat (S k))%Z ->
  (204799 * 1024 ^ Z.of_nat k <= 200 * bytes)%Z ->
  formatSize bytes = Some (lit "1024.00 " ++ nth k units []).
Proof.
  intros Hk Hhi Hlo. unfold formatSize.
  change (inject_Z bytes) with (bytes # 1)%Q.
  change (Datatypes.length units) with 5.
  assert (K : k = 1 \/ k = 2 \/ k = 3) by lia.
  destruct K as [-> | [-> | ->]].
  - change (1024 ^ Z.of_nat 2)%Z with 1048576%Z in Hhi.
    change (1024 ^ Z.of_nat 1)%Z with 1024%Z in Hlo.
    step_yes. step_no. rewrite toFixed2_frac by lia.
    replace ((200 * (bytes * 1) + Z.pos (1 * 1024)) / (2 * Z.pos (1 * 1024)))%Z
      with 102400%Z
      by (apply Z.div_unique
            with (r := (200 * bytes + 1024 - 102400 * 2048)%Z); lia).
    reflexivity.
  - change (1024 ^ Z.of_nat 3)%Z with 1073741824%Z in Hhi.
    change (1024 ^ Z.of_nat 2)%Z with 1048576%Z in Hlo.
    step_yes. step_yes. step_no. rewrite toFixed2_frac by lia.
    replace ((200 * (bytes * 1 * 1) + Z.pos (1 * 1024 * 1024))
             / (2 * Z.pos (1 * 1024 * 1024)))%Z
      with 102400%Z
      by (apply Z.div_unique
            with (r := (200 * bytes + 1048576 - 102400 * 2097152)%Z); lia).
    reflexivity.
  - change (1024 ^ Z.of_nat 4)%Z with 1099511627776%Z in Hhi.
    change (1024 ^ Z.of_nat 3)%Z with 1073741824%Z in Hlo.
    step_yes. step_yes. step_yes. step_no. rewrite toFixed2_frac by lia.
    replace ((200 * (bytes * 1 * 1 * 1) + Z.pos (1 * 1024 * 1024 * 1024))
             / (2 * Z.pos (1 * 1024 * 1024 * 1024)))%Z
      with 102400%Z
      by (apply Z.div_unique
            with (r := (200 * bytes + 1073741824
                        - 102400 * 2147483648)%Z); lia).
    reflexivity.
Qed.

Lemma formatSize_rounds_to_1024_witness :
  formatSize 1048575 = Some (lit "1024.00 KiB")
  /\ formatSize 1048576 = Some (lit "1.00 MiB").
Proof.
  split; [|reflexivity].
  apply (formatSize_rounds_to_1024 1 1048575);
    [split; [apply le_n | repeat constructor] | reflexivity | discriminate].
Defined.

End SizeFacts.

(** ** Searching the releases *)

Module LoaderFacts.

Import Schema Loader BadgeSpec StrFacts.

Lemma includes_spec (s p : str) :
  includes s p = true <-> exists a b, s = a ++ p ++ b.
Proof.
  unfold includes. split.
  - destruct (find p s) as [i|] eqn:E; [|discriminate]. intros _.
    apply str_find_bound in E as [E _]. apply str_startsWith_iff in E as [r E].
    exists (firstn i s), r. rewrite <- E. symmetry. apply firstn_skipn.
  - intros (a & b & ->). destruct (str_find_occurs p a b) as [i ->]. reflexivity.
Qed.

Lemma includes_trans (a b c : str) :
  includes a b = true -> includes b c = true -> includes a c = true.
Proof.
  intros H1 H2. apply includes_spec in H1 as (u & v & ->).
  apply includes_spec in H2 as (x & y & ->).
  apply includes_spec. exists (u ++ x), (y ++ v).
  now rewrite <- !app_assoc.
Qed.

Lemma includes_empty (s : str) : includes s [] = true.
Proof. unfold includes. now destruct s. Qed.

Lemma optIncludes_trans (t : option str) (q q' : str) :
  includes q' q = true -> optIncludes t q' = true -> optIncludes t q = true.
Proof.
  destruct t as [x|]; [|discriminate]. cbn [optIncludes]. intros H1 H2.
  exact (includes_trans _ _ _ H2 H1).
Qed.

Lemma titleMatches_narrower (q q' : str) (r : Release) :
  includes q' q = true ->
  titleMatches q' r = true -> titleMatches q r = true.
Proof.
  intros H Hm. unfold titleMatches in *.
  apply orb_true_iff in Hm as [Hm | Hm];
    [apply orb_true_iff in Hm as [Hm | Hm]|].
  - now rewrite (includes_trans _ _ _ Hm H).
  - rewrite (optIncludes_trans _ _ _ H Hm). now rewrite orb_true_r.
  - rewrite (optIncludes_trans _ _ _ H Hm). now rewrite orb_true_r.
Qed.

(** X28. A longer query narrows the search: when the query [q] occurs
    in the query [q'], letter case apart, the releases found for [q']
    are those among the releases found for [q] that match [q'], in the
    same order. *)
Theorem search_narrows (allReleases : list Release) (q q' : str) :
  includes (toLowerCase q') (toLowerCase q) = true ->
  searchReleases allReleases q'
  = filter (titleMatches (toLowerCase q')) (searchReleases allReleases q).
Proof.
  intros H. unfold searchReleases.
  apply MediaInfoFacts.filter_within.
  intros r. apply titleMatches_narrower, H.
Qed.

Lemma search_narrows_witness :
  let allReleases :=
    [ titled (lit "a1") (lit "Kara no Kyoukai") (Some (lit "The Garden of Sinners")) None;
      titled (lit "b2") (lit "Garden of Words") None None;
      titled (lit "c3") (lit "Akira") None None ] in
  searchReleases allReleases (lit "garden") = firstn 2 allReleases
  /\ searchReleases allReleases (lit "Garden of S") = firstn 1 allReleases
  /\ searchReleases allReleases (lit "Garden of S")
     = filter (titleMatches (lit "garden of s"))
         (searchReleases allReleases (lit "garden")).
Proof.
  cbv zeta. split; [reflexivity|]. split; [reflexivity|].
  exact (search_narrows
           [ titled (lit "a1") (lit "Kara no Kyoukai") (Some (lit "The Garden of Sinners")) None;
             titled (lit "b2") (lit "Garden of Words") None None;
             titled (lit "c3") (lit "Akira") None None ]
           (lit "garden") (lit "Garden of S") eq_refl).
Defined.

(** X29. The empty query finds every release, in the order of the
    list, and the letter case of a query does not matter. *)
Theorem search_empty_and_case (allReleases : list Release) (q : str) :
  searchReleases allReleases [] = allReleases
  /\ searchReleases allReleases (toLowerCase q) = searchReleases allReleases q.
Proof.
  split.
  - unfold searchReleases. cbn [toLowerCase map].
    rewrite (filter_ext (titleMatches []) (fun _ => true)).
    + apply LangFacts.filter_all.
    + intros r. unfold titleMatches. now rewrite includes_empty.
  - unfold searchReleases. now rewrite FlagFacts.toLowerCase_idem.
Qed.

End LoaderFacts.
